(** * Reliability-based CMA-ES learner of pypuf

    A shallow embedding of [pypuf/learner/evolution_strategies/becker.py]
    (class [Reliability_based_CMA_ES]) and the properties its
    specification states about it.

    Numbers.  A numpy [float64] is modelled by [npfloat]: an exact rational,
    one of the two infinities, or NaN.  Arithmetic is exact (no rounding, no
    signed zero); the special values follow IEEE 754, so that a division by
    zero or the square root of a negative number yields what numpy yields
    (a warning and [inf] or [nan], never an exception).

    Arrays.  A one-dimensional array is a list, a two-dimensional array a
    list of rows.  Element-wise operations pair the elements up to the
    shorter operand; numpy raises on operands of different shapes, and the
    statements below carry the shapes as hypotheses where they matter.

    Integers.  [pop_size] and [parent_size] are Python integers ([Z]);
    lengths, indices and counts that the code only uses as such are [nat].

    Errors.  Code that can raise returns a [result]; the exceptions are
    those of Python and numpy.

    Environment.  What the class calls but does not define is a parameter:
    [np.sqrt] and [np.exp] on the rationals (the special values are written
    out), [np.linalg.eigh], [np.linalg.inv], [np.argsort], and
    [LTFArray.eval] and [LTFArray.val] of pypuf's simulation.  Random draws
    and the answers of the noisy instance are arguments of the functions
    that ask for them.

    Rounding.  The constructor truncates the sum of the priorities to an
    integer and compares [c_1 + c_mu] with 1, so that the rounding of
    these numbers decides whether it returns.  The constructor is
    therefore modelled with float64's arithmetic: its sums are numpy's
    float64 sums and its other operations round their exact result to the
    nearest float64, both parameters as well ([float_sum], [round64]).
    The sums of the other methods add responses and counts, which float64
    adds exactly. *)

From Stdlib Require Import List ZArith QArith Qabs Lia Lqa Bool Permutation.
Import ListNotations.

Set Implicit Arguments.
Local Open Scope nat_scope.

(** ** Exceptions and results *)

(** The exceptions the code can raise.  numpy words an IndexError either
    "too many indices for array" or "index i is out of bounds for axis 0
    with size s". *)
Inductive exn : Type :=
| IndexError_too_many_indices
| IndexError_out_of_bounds (i size : nat)
| ValueError
| OverflowError
| AssertionError
| LinAlgError.

Inductive result (A : Type) : Type :=
| Ok (a : A)
| Raise (e : exn).

Arguments Ok {A} a.
Arguments Raise {A} e.

Definition bind {A B : Type} (r : result A) (k : A -> result B) : result B :=
  match r with
  | Ok a => k a
  | Raise e => Raise e
  end.

Notation "x <- r ;; k" := (bind r (fun x => k))
  (at level 61, r at next level, right associativity).
Notation "r ;;; k" := (bind r (fun _ => k))
  (at level 61, right associativity).

Definition is_ok {A : Type} (r : result A) : bool :=
  match r with
  | Ok _ => true
  | Raise _ => false
  end.

(** [assert b]: Python's [assert]. *)
Definition py_assert (b : bool) : result unit :=
  if b then Ok tt else Raise AssertionError.

(** ** numpy float64 values *)

Inductive npfloat : Type :=
| Fin (q : Q)
| PInf
| NInf
| NaN.

Declare Scope np_scope.
Delimit Scope np_scope with np.
Bind Scope np_scope with npfloat.

Definition Qltb (a b : Q) : bool := negb (Qle_bool b a).

(** The infinity (or NaN) a non-zero (or zero) finite value turns into
    when it is multiplied by +inf. *)
Definition inf_of_sign (a : Q) : npfloat :=
  if Qltb 0 a then PInf else if Qltb a 0 then NInf else NaN.

Definition fopp (x : npfloat) : npfloat :=
  match x with
  | Fin a => Fin (- a)
  | PInf => NInf
  | NInf => PInf
  | NaN => NaN
  end.

Definition fadd (x y : npfloat) : npfloat :=
  match x, y with
  | NaN, _ | _, NaN => NaN
  | Fin a, Fin b => Fin (a + b)
  | PInf, NInf | NInf, PInf => NaN
  | PInf, _ | _, PInf => PInf
  | NInf, _ | _, NInf => NInf
  end.

Definition fsub (x y : npfloat) : npfloat := fadd x (fopp y).

Definition fmul (x y : npfloat) : npfloat :=
  match x, y with
  | NaN, _ | _, NaN => NaN
  | Fin a, Fin b => Fin (a * b)
  | Fin a, PInf | PInf, Fin a => inf_of_sign a
  | Fin a, NInf | NInf, Fin a => inf_of_sign (- a)
  | PInf, PInf | NInf, NInf => PInf
  | PInf, NInf | NInf, PInf => NInf
  end.

Definition fdiv (x y : npfloat) : npfloat :=
  match x, y with
  | NaN, _ | _, NaN => NaN
  | Fin a, Fin b => if Qeq_bool b 0 then inf_of_sign a else Fin (a / b)
  | Fin _, _ => Fin 0
  | PInf, Fin b => if Qltb b 0 then NInf else PInf
  | NInf, Fin b => if Qltb b 0 then PInf else NInf
  | _, _ => NaN
  end.

Definition fabs (x : npfloat) : npfloat :=
  match x with
  | Fin a => Fin (Qabs a)
  | PInf | NInf => PInf
  | NaN => NaN
  end.

(** Comparisons: every comparison with NaN is false. *)
Definition fltb (x y : npfloat) : bool :=
  match x, y with
  | NaN, _ | _, NaN => false
  | Fin a, Fin b => Qltb a b
  | NInf, NInf | PInf, _ | _, NInf => false
  | NInf, _ | _, PInf => true
  end.

Definition fleb (x y : npfloat) : bool :=
  match x, y with
  | NaN, _ | _, NaN => false
  | Fin a, Fin b => Qle_bool a b
  | NInf, _ | _, PInf => true
  | PInf, _ | _, NInf => false
  end.

Definition feqb (x y : npfloat) : bool :=
  match x, y with
  | Fin a, Fin b => Qeq_bool a b
  | PInf, PInf | NInf, NInf => true
  | _, _ => false
  end.

Definition fgtb (x y : npfloat) : bool := fltb y x.

(** Python's truth value of a float: everything but zero. *)
Definition truthy (x : npfloat) : bool := negb (feqb x (Fin 0)).

(** Python's [int(x)]: truncation towards zero; [int(inf)] raises
    OverflowError and [int(nan)] raises ValueError. *)
Definition py_int (x : npfloat) : result Z :=
  match x with
  | Fin a => Ok (Z.quot (Qnum a) (Zpos (Qden a)))
  | PInf | NInf => Raise OverflowError
  | NaN => Raise ValueError
  end.

Definition of_Z (z : Z) : npfloat := Fin (inject_Z z).
Definition of_nat (n : nat) : npfloat := of_Z (Z.of_nat n).

Infix "+" := fadd : np_scope.
Infix "-" := fsub : np_scope.
Infix "*" := fmul : np_scope.
Infix "/" := fdiv : np_scope.
Notation "- x" := (fopp x) : np_scope.
Notation "0" := (Fin 0) : np_scope.
Notation "1" := (Fin 1) : np_scope.
Notation "2" := (Fin 2) : np_scope.
Notation "4" := (Fin 4) : np_scope.

(** ** numpy arrays *)

Definition vec : Type := list npfloat.
Definition mat : Type := list vec.

Fixpoint map2 {A B C : Type} (f : A -> B -> C) (l : list A) (l' : list B) : list C :=
  match l, l' with
  | a :: t, b :: t' => f a b :: map2 f t t'
  | _, _ => []
  end.

(** [np.sum]: accumulation from 0. *)
Definition np_sum (v : vec) : npfloat := fold_left fadd v 0%np.

Definition np_square (v : vec) : vec := map (fun x => x * x)%np v.
Definition np_abs (v : vec) : vec := map fabs v.

(** [np.zeros(n)], [np.zeros((r, c))], [np.identity(n)]. *)
Definition np_zeros (n : nat) : vec := repeat 0%np n.
Definition np_zeros2 (r c : nat) : mat := repeat (np_zeros c) r.
Definition np_identity (n : nat) : mat :=
  map (fun i => map (fun j => if Nat.eqb i j then 1%np else 0%np) (seq 0 n)) (seq 0 n).

(** Element-wise operations and broadcasting. *)
Definition vadd (u v : vec) : vec := map2 fadd u v.
Definition vsub (u v : vec) : vec := map2 fsub u v.
Definition vmul (u v : vec) : vec := map2 fmul u v.
Definition vscale (c : npfloat) (v : vec) : vec := map (fmul c) v.
Definition vscale_r (v : vec) (c : npfloat) : vec := map (fun x => x * c)%np v.
Definition vdiv (v : vec) (c : npfloat) : vec := map (fun x => x / c)%np v.
Definition madd (a b : mat) : mat := map2 vadd a b.
Definition mscale (c : npfloat) (a : mat) : mat := map (vscale c) a.
(** matrix + vector: the vector is added to every row. *)
Definition madd_row (a : mat) (v : vec) : mat := map (fun row => vadd row v) a.

(** Products ([@]). *)
Definition dot (u v : vec) : npfloat := np_sum (vmul u v).
Definition matvec (a : mat) (v : vec) : vec := map (fun row => dot row v) a.
Definition ncols (a : mat) : nat := length (hd [] a).
Definition column (a : mat) (j : nat) : vec := map (fun row => nth j row 0%np) a.
Definition transpose (a : mat) : mat := map (column a) (seq 0 (ncols a)).
Definition matmul (a b : mat) : mat :=
  map (fun row => map (fun j => dot row (column b j)) (seq 0 (ncols b))) a.
(** [x[:, np.newaxis] @ y[np.newaxis, :]]: a column times a row. *)
Definition col_times_row (x y : vec) : mat := map (fun xi => map (fun yj => xi * yj)%np y) x.

(** Entry [(i, j)] of a matrix. *)
Definition entry (a : mat) (i j : nat) : npfloat := nth j (nth i a []) 0%np.

Definition veqb (u v : vec) : bool :=
  Nat.eqb (length u) (length v) && forallb (fun p => feqb (fst p) (snd p)) (combine u v).
Definition meqb (a b : mat) : bool :=
  Nat.eqb (length a) (length b) && forallb (fun p => veqb (fst p) (snd p)) (combine a b).

(** A matrix is symmetric when it equals its transpose. *)
Definition symmetricb (a : mat) : bool := meqb a (transpose a).

(** ** Covariance update *)

(** [update_cm], line 141:
    [(1 - c_1 - c_mu) * cov_matrix + c_1 * path_cm * path_cm.T + c_mu * cm_mu].
    [path_cm] is one-dimensional, so [path_cm.T] is [path_cm] itself and
    [c_1 * path_cm * path_cm.T] is the element-wise product, a vector; the
    sum with the matrix broadcasts it over the rows. *)
Definition update_cm (cov_matrix : mat) (c_1 c_mu : npfloat) (path_cm : vec) (cm_mu : mat) : mat :=
  madd (madd_row (mscale (1 - c_1 - c_mu)%np cov_matrix)
                 (vmul (vscale c_1 path_cm) path_cm))
       (mscale c_mu cm_mu).

(** Indexing [a[i]] with [0 <= i]: IndexError out of range. *)
Definition index {A : Type} (l : list A) (i : nat) : result A :=
  match nth_error l i with
  | Some x => Ok x
  | None => Raise (IndexError_out_of_bounds i (length l))
  end.

(** [get_cm_mu], lines 253-258: the loop over [range(parent_size)],
    started at index [i] with [count] iterations left. *)
Fixpoint get_cm_mu_loop (sorted_individuals : mat) (priorities : vec) (i count : nat) (cm_mu : mat) : result mat :=
  match count with
  | O => Ok cm_mu
  | S count' =>
      p <- index priorities i ;;
      x <- index sorted_individuals i ;;
      get_cm_mu_loop sorted_individuals priorities (S i) count'
        (madd cm_mu (col_times_row (vscale p x) x))
  end.

Definition get_cm_mu (sorted_individuals : mat) (parent_size : nat) (priorities : vec) : result mat :=
  let n := ncols sorted_individuals in
  get_cm_mu_loop sorted_individuals priorities 0 parent_size (np_zeros2 n n).

(** The covariance update as the specification words it: the rank-one term
    is the outer product of the evolution path with itself. *)
Definition update_cm_spec (cov_matrix : mat) (c_1 c_mu : npfloat) (path_cm : vec) (cm_mu : mat) : mat :=
  madd (madd (mscale (1 - c_1 - c_mu)%np cov_matrix)
             (mscale c_1 (col_times_row path_cm path_cm)))
       (mscale c_mu cm_mu).


(** ** Array allocation and row assignment *)

(** [np.zeros((r, c))] with a Python integer [r]: ValueError on a negative
    dimension. *)
Definition np_zeros2_Z (r : Z) (c : nat) : result mat :=
  if (r <? 0)%Z then Raise ValueError else Ok (np_zeros2 (Z.to_nat r) c).

(** [np.empty((r, c))]: the contents are unspecified (zeros here); the code
    writes every row before it reads it. *)
Definition np_empty2 (r c : nat) : mat := np_zeros2 r c.

Fixpoint replace_nth {A : Type} (i : nat) (x : A) (l : list A) : list A :=
  match l, i with
  | [], _ => []
  | _ :: t, O => x :: t
  | a :: t, S i' => a :: replace_nth i' x t
  end.

(** [a[i, :] = v]: IndexError when [a] has no row [i]; the value is
    broadcast when it has one element; ValueError on any other length that
    is not the row's. *)
Definition set_row (a : mat) (i : nat) (v : vec) : result mat :=
  match nth_error a i with
  | None => Raise (IndexError_out_of_bounds i (length a))
  | Some row =>
      if Nat.eqb (length v) (length row) then Ok (replace_nth i v a)
      else if Nat.eqb (length v) 1 then Ok (replace_nth i (repeat (hd 0%np v) (length row)) a)
      else Raise ValueError
  end.

(** An array of one or of two dimensions. *)
Inductive ndarray : Type :=
| Arr1 (v : vec)
| Arr2 (m : mat).

(** [a[:, :-1]]: all columns but the last.  Two indices on a
    one-dimensional array raise IndexError (too many indices). *)
Definition drop_last_column (a : ndarray) : result mat :=
  match a with
  | Arr1 _ => Raise IndexError_too_many_indices
  | Arr2 m => Ok (map (@removelast npfloat) m)
  end.

(** [np.diag(v)], [np.tile(v, (r, 1))], [np.sum(a, axis=0)]. *)
Definition np_diag (v : vec) : mat :=
  map (fun i => map (fun j => if Nat.eqb i j then nth i v 0%np else 0%np) (seq 0 (length v)))
      (seq 0 (length v)).
Definition np_tile (v : vec) (r : nat) : mat := repeat v r.
Definition np_sum_axis0 (a : mat) (c : nat) : vec := fold_left vadd a (np_zeros c).

Fixpoint mapM {A B : Type} (f : A -> result B) (l : list A) : result (list B) :=
  match l with
  | [] => Ok []
  | a :: t => b <- f a ;; bs <- mapM f t ;; Ok (b :: bs)
  end.

(** ** Simulations *)

Inductive transform_kind : Type := transform_atf | transform_id.

(** [LTFArray(weight_array, transform, LTFArray.combiner_xor, bias=...)]:
    the combiner is the XOR combiner at every construction of this file. *)
Record LTFArray : Type := mkLTFArray {
  weight_array : mat;
  transform : transform_kind;
  bias : option bool
}.

(** The instance to be modelled: its challenge length [n] and its number of
    chains [k].  Its answers are noisy, so a function that calls
    [instance.eval] takes the answers as an argument. *)
Record instance_t : Type := mkInstance {
  inst_n : nat;
  inst_k : nat
}.

(** ** The learner's state *)

Module self.
Record t : Type := mk {
  n : nat;
  different_LTFs : mat;
  unreliability : npfloat;
  precision : npfloat;
  num_of_LTFs : nat;
  instance : instance_t;
  challenge_num : nat;
  repeat : nat;
  individuals : mat;
  mean : vec;
  step_size : npfloat;
  pop_size : Z;
  parent_size : Z;
  priorities : vec;
  cov_matrix : mat;
  path_cm : vec;
  path_ss : vec;
  mu_w : npfloat;
  c_mu : npfloat;
  d_sigma : npfloat;
  c_1 : npfloat;
  c_c : npfloat;
  c_sigma : npfloat
}.
End self.

(** The five assignments of one generation, lines 97-106, and the
    population of line 79. *)
Definition set_distribution (st : self.t) (individuals : mat) (mean : vec) (path_cm path_ss : vec)
    (cov_matrix : mat) (step_size : npfloat) : self.t :=
  self.mk (self.n st) (self.different_LTFs st) (self.unreliability st) (self.precision st)
    (self.num_of_LTFs st) (self.instance st) (self.challenge_num st) (self.repeat st)
    individuals mean step_size (self.pop_size st) (self.parent_size st) (self.priorities st)
    cov_matrix path_cm path_ss (self.mu_w st) (self.c_mu st) (self.d_sigma st) (self.c_1 st)
    (self.c_c st) (self.c_sigma st).

(** ** Methods that use no numpy primitive beyond arithmetic *)

(** [reproduce], lines 113-117; [mutations] is the draw of
    [np.random.multivariate_normal(zeros, cov_matrix, pop_size)]. *)
Definition reproduce (mean : vec) (mutations : mat) (pop_size : nat) (step_size : npfloat) : mat :=
  let duplicated_mean := np_tile mean pop_size in
  madd duplicated_mean (mscale step_size mutations).

(** [update_mean], line 122. *)
Definition update_mean (mean : vec) (step_size : npfloat) (parent : vec) : vec :=
  vadd mean (vscale step_size parent).

(** [get_parent], lines 245-250. *)
Fixpoint get_parent_loop (sorted_individuals : mat) (priorities : vec) (i count : nat) (parent : vec) : result vec :=
  match count with
  | O => Ok parent
  | S count' =>
      p <- index priorities i ;;
      x <- index sorted_individuals i ;;
      get_parent_loop sorted_individuals priorities (S i) count' (vadd parent (vscale p x))
  end.

Definition get_parent (sorted_individuals : mat) (parent_size : nat) (priorities : vec) : result vec :=
  get_parent_loop sorted_individuals priorities 0 parent_size (np_zeros (ncols sorted_individuals)).

(** [build_LTFArrays], lines 174-178: one single-chain LTFArray per row. *)
Definition build_LTFArrays (individuals : mat) : list LTFArray :=
  map (fun row => mkLTFArray [row] transform_atf (Some false)) individuals.

(** [get_reliabilities], lines 190-196: row [i] is 1 where
    [|delay_diffs[i]| > |epsilons[i]|]; rows beyond the epsilons stay zero,
    an epsilon beyond the rows raises IndexError. *)
Fixpoint get_reliabilities_rows (delay_diffs : mat) (epsilons : vec) (i size : nat) : result mat :=
  match epsilons, delay_diffs with
  | [], rest => Ok (map (fun row => np_zeros (length row)) rest)
  | _ :: _, [] => Raise (IndexError_out_of_bounds i size)
  | e :: es, row :: rest =>
      rows <- get_reliabilities_rows rest es (S i) size ;;
      Ok (map (fun d => if fgtb (fabs d) (fabs e) then 1%np else 0%np) row :: rows)
  end.

Definition get_reliabilities (delay_diffs : mat) (epsilons : vec) : result mat :=
  get_reliabilities_rows delay_diffs epsilons 0 (length delay_diffs).

(** [is_correlated], lines 227-234. *)
Definition is_correlated (responses : mat) : bool :=
  let num_of_LTFs := length responses in
  let challenge_num := of_nat (ncols responses) in
  let first := hd [] responses in
  existsb (fun i =>
             let differences := (np_sum (np_abs (vsub first (nth i responses []))) / 2)%np in
             fltb differences (Fin (1 # 4) * challenge_num)%np
             || fgtb differences (Fin (3 # 4) * challenge_num)%np)
          (seq 1 (num_of_LTFs - 1)).

(** [measure_rels], lines 237-242; [evals i] is what the call number [i]
    of [instance.eval(challenges)] returns. *)
Fixpoint measure_rels_loop (evals : nat -> vec) (i count : nat) (responses : mat) : result mat :=
  match count with
  | O => Ok responses
  | S count' =>
      responses <- set_row responses i (evals i) ;;
      measure_rels_loop evals (S i) count' responses
  end.

Definition measure_rels (evals : nat -> vec) (challenge_num repeat : nat) : result vec :=
  responses <- measure_rels_loop evals 0 repeat (np_empty2 repeat challenge_num) ;;
  Ok (vdiv (np_abs (np_sum_axis0 responses challenge_num)) (of_nat repeat)).

(** A response of a simulation is 1 or -1. *)
Definition is_response (x : npfloat) : bool := feqb x 1%np || feqb x (Fin (-1)).

(** The number of positions at which two response vectors differ. *)
Definition disagreements (u v : vec) : nat :=
  length (filter (fun p => negb (feqb (fst p) (snd p))) (combine u v)).

(** A vector is finite when none of its entries is an infinity or NaN. *)
Definition finite (x : npfloat) : bool :=
  match x with Fin _ => true | _ => false end.

Definition value (x : npfloat) : Q :=
  match x with Fin a => a | _ => 0%Q end.


(** ** The float64 arithmetic of the constructor

    The constructor compares computed numbers with 1, so that their
    rounding decides whether it returns.  Its arithmetic is float64's: the
    result of an operation is the float64 nearest to the exact result.
    [round64] is this rounding on the rationals (inf beyond the largest
    float64); an infinity or NaN is left as it is. *)
Definition rounded (round64 : Q -> npfloat) (x : npfloat) : npfloat :=
  match x with
  | Fin a => round64 a
  | _ => x
  end.

(** [np.sum(a)] and [np.ndarray.sum(a)] on a float64 array, as float64
    computes them: numpy rounds every partial sum, and the order of the
    additions depends on the length of the array.  [float_sum] stands for
    this sum on an array of at least one number; the sum of no number is
    0. *)
Definition ndarray_sum (float_sum : vec -> npfloat) (a : vec) : npfloat :=
  match a with
  | [] => 0%np
  | _ :: _ => float_sum a
  end.

(** The auxiliary constants of lines 35-38 and the sum of line 43, as
    functions of the configuration ([n] is the challenge length plus
    one). *)
Definition mu_w_of (round64 : Q -> npfloat) (float_sum : vec -> npfloat) (priorities : vec)
    : npfloat :=
  rounded round64
    (1 / ndarray_sum float_sum (map (rounded round64) (np_square priorities)))%np.
Definition c_mu_of (round64 : Q -> npfloat) (float_sum : vec -> npfloat) (n : nat)
    (priorities : vec) : npfloat :=
  rounded round64 (mu_w_of round64 float_sum priorities / of_nat (n * n))%np.
Definition c_1_of (round64 : Q -> npfloat) (n : nat) : npfloat :=
  rounded round64 (2 / of_nat (n * n))%np.
Definition c_1_plus_c_mu (round64 : Q -> npfloat) (float_sum : vec -> npfloat) (n : nat)
    (priorities : vec) : npfloat :=
  rounded round64 (c_1_of round64 n + c_mu_of round64 float_sum n priorities)%np.

(** A signature is constant when all its entries equal the first one. *)
Definition constantb (v : vec) : bool := forallb (fun x => feqb x (hd 0%np v)) v.


(** Every row of a buffer has [c] entries. *)
Definition rows_of_length (c : nat) (a : mat) : Prop := Forall (fun row => length row = c) a.


(** The priority-weighted sum of the outer products of the first
    [parent_size] individuals, at entry [(a, b)]: the sum over [i] of
    [priorities[i] * x_i[a] * x_i[b]]. *)
Definition weighted_outer_products (sorted_individuals : mat) (priorities : vec)
    (parent_size a b : nat) : npfloat :=
  fold_left
    (fun acc i =>
       (acc + nth i priorities 0 * entry sorted_individuals i a * entry sorted_individuals i b)%np)
    (seq 0 parent_size) 0%np.

(** ** Methods that use numpy's and the simulation's primitives

    The primitives are left abstract: the square root and the exponential
    on the rationals they are defined on (rounded as numpy rounds them),
    the float64 sum of an array and the rounding to float64 (both for
    the constructor), the symmetric eigen-solver, the matrix inverse, the
    sort, and the evaluation of an [LTFArray]. *)

Section Primitives.

(** [np.sqrt] on a positive rational, [np.exp] on a rational. *)
Variable sqrtQ : Q -> Q.
Variable expQ : Q -> Q.
(** The float64 sum of an array of at least one number, and the rounding
    of a rational to the nearest float64. *)
Variable float_sum : vec -> npfloat.
Variable round64 : Q -> npfloat.
(** [np.linalg.eigh]: eigenvalues and eigenvectors (as columns), or
    LinAlgError. *)
Variable linalg_eigh : mat -> result (vec * mat).
(** [np.linalg.inv]: the inverse, or LinAlgError on a singular matrix. *)
Variable linalg_inv : mat -> result mat.
(** [np.argsort]: the indices that sort a vector in ascending order. *)
Variable np_argsort : vec -> list nat.
(** [LTFArray.eval] (responses, each 1 or -1) and [LTFArray.val] (delay
    differences) on a batch of challenges. *)
Variable LTFArray_eval : LTFArray -> mat -> vec.
Variable LTFArray_val : LTFArray -> mat -> vec.

(** [np.sqrt]: NaN on a negative number, with a warning. *)
Definition np_sqrt (x : npfloat) : npfloat :=
  match x with
  | Fin a => if Qltb a 0 then NaN else if Qeq_bool a 0 then 0%np else Fin (sqrtQ a)
  | PInf => PInf
  | NInf | NaN => NaN
  end.

Definition np_exp (x : npfloat) : npfloat :=
  match x with
  | Fin a => Fin (expQ a)
  | PInf => PInf
  | NInf => 0%np
  | NaN => NaN
  end.

(** [np.linalg.norm] of a vector. *)
Definition linalg_norm (v : vec) : npfloat := np_sqrt (dot v v).

(** [x ** 2]. *)
Definition sqr (x : npfloat) : npfloat := (x * x)%np.

(** *** Construction, lines 13-43 *)

Definition init (instance : instance_t) (pop_size parent_size : Z) (priorities : vec)
    (challenge_num repeat : nat) (unreliability precision : npfloat) : result self.t :=
  let n := S (inst_n instance) in
  let different_LTFs := np_zeros2 (inst_k instance) n in
  let num_of_LTFs := O in
  individuals <- np_zeros2_Z pop_size n ;;
  let mean := np_zeros n in
  let step_size := 1%np in
  let cov_matrix := np_identity n in
  let path_cm := np_zeros n in
  let path_ss := np_zeros n in
  let mu_w := mu_w_of round64 float_sum priorities in
  let c_mu := rounded round64 (mu_w / of_nat (n * n))%np in
  let d_sigma := rounded round64 (1 + np_sqrt (rounded round64 (mu_w / of_nat n)))%np in
  let c_1 := rounded round64 (2 / of_nat (n * n))%np in
  let c_c := rounded round64 (4 / of_nat n)%np in
  let c_sigma := rounded round64 (4 / of_nat n)%np in
  py_assert (Z.eqb (Z.of_nat (length priorities)) parent_size) ;;;
  s <- py_int (ndarray_sum float_sum priorities) ;;
  py_assert (Z.eqb s 1) ;;;
  py_assert (fleb (rounded round64 (c_1 + c_mu)%np) 1%np) ;;;
  Ok (self.mk n different_LTFs unreliability precision num_of_LTFs instance challenge_num
        repeat individuals mean step_size pop_size parent_size priorities cov_matrix
        path_cm path_ss mu_w c_mu d_sigma c_1 c_c c_sigma).

(** *** Distribution updates *)

(** [cumulation_for_cm], lines 125-130. *)
Definition cumulation_for_cm (path_cm : vec) (c_c : npfloat) (path_ss : vec) (n : nat)
    (mu_w : npfloat) (parent : vec) : vec :=
  let path_cm := vscale_r path_cm (1 - c_c)%np in
  if fltb (linalg_norm path_ss) (Fin (3 # 2) * np_sqrt (of_nat n))%np
  then vadd path_cm (vscale (np_sqrt (1 - sqr (1 - c_c)) * np_sqrt mu_w)%np parent)
  else path_cm.

(** [modify_eigen_decomposition], lines 261-267. *)
Definition modify_eigen_decomposition (matrix : mat) : result mat :=
  eig <- linalg_eigh matrix ;;
  let eigen_values := fst eig in
  let eigen_vectors := snd eig in
  let diagonal := map (map np_sqrt) (np_diag eigen_values) in
  diagonal_inverse <- linalg_inv diagonal ;;
  Ok (matmul (matmul eigen_vectors diagonal_inverse) (transpose eigen_vectors)).

(** [cumulation_for_ss], lines 133-136. *)
Definition cumulation_for_ss (path_ss : vec) (c_sigma mu_w : npfloat) (cov_matrix : mat)
    (parent : vec) : result vec :=
  cm_eigen_dec <- modify_eigen_decomposition cov_matrix ;;
  Ok (vadd (vscale (1 - c_sigma)%np path_ss)
           (matvec (mscale (np_sqrt (1 - sqr (1 - c_sigma)) * np_sqrt mu_w)%np cm_eigen_dec)
                   parent)).

(** [update_ss], lines 144-147. *)
Definition update_ss (step_size c_sigma d_sigma : npfloat) (path_ss : vec) : npfloat :=
  let factor :=
    np_exp ((c_sigma / d_sigma)
            * ((linalg_norm path_ss / np_sqrt (of_nat (length path_ss))) - 1))%np in
  (step_size * factor)%np.

(** *** Fitness *)

(** [np.clip(x, -1, 1)]: NaN stays NaN. *)
Definition clip1 (x : npfloat) : npfloat :=
  match x with
  | NaN => NaN
  | _ => if fltb x (Fin (-1)) then Fin (-1) else if fltb 1%np x then 1%np else x
  end.

(** [np.corrcoef(x, y)[0, 1]]: the covariance matrix of the two rows
    (means removed, normalised by [N - 1], which is replaced by 0 when it
    is not positive), divided by the two standard deviations and clipped
    to [-1, 1].  ValueError when the lengths differ. *)
Definition corrcoef01 (x y : vec) : result npfloat :=
  if negb (Nat.eqb (length x) (length y)) then Raise ValueError else
  let N := length x in
  let avg_x := (np_sum x / of_nat N)%np in
  let avg_y := (np_sum y / of_nat N)%np in
  let dx := map (fun a => a - avg_x)%np x in
  let dy := map (fun a => a - avg_y)%np y in
  let fact := if (N <=? 1)%nat then 0%np else of_nat (N - 1) in
  let c00 := (dot dx dx * (1 / fact))%np in
  let c01 := (dot dx dy * (1 / fact))%np in
  let c11 := (dot dy dy * (1 / fact))%np in
  let stddev0 := np_sqrt c00 in
  let stddev1 := np_sqrt c11 in
  Ok (clip1 (c01 / stddev0 / stddev1)%np).

(** [np.any]. *)
Definition np_any (v : vec) : bool := existsb truthy v.

(** [get_correlations], lines 199-207. *)
Definition get_correlations (reliabilities : mat) (measured_rels : vec) : result vec :=
  mapM (fun row => if np_any row then corrcoef01 row measured_rels else Ok 0%np) reliabilities.

(** [get_delay_differences], lines 181-187. *)
Fixpoint get_delay_differences_loop (built_LTFArrays : list LTFArray) (challenges : mat)
    (i : nat) (delay_diffs : mat) : result mat :=
  match built_LTFArrays with
  | [] => Ok delay_diffs
  | built_LTFArray :: rest =>
      delay_diffs <- set_row delay_diffs i (LTFArray_val built_LTFArray challenges) ;;
      get_delay_differences_loop rest challenges (S i) delay_diffs
  end.

Definition get_delay_differences (built_LTFArrays : list LTFArray) (pop_size : nat)
    (challenges : mat) (challenge_num : nat) : result mat :=
  get_delay_differences_loop built_LTFArrays challenges 0 (np_empty2 pop_size challenge_num).

(** [fitness], lines 150-162. *)
Definition fitness (challenges : mat) (challenge_num : nat) (measured_rels : vec)
    (individuals : mat) : result vec :=
  let pop_size := length individuals in
  let built_LTFArrays := build_LTFArrays (map (@removelast npfloat) individuals) in
  delay_diffs <- get_delay_differences built_LTFArrays pop_size challenges challenge_num ;;
  let epsilons := map (fun row => last row 0%np) individuals in
  reliabilities <- get_reliabilities delay_diffs epsilons ;;
  get_correlations reliabilities measured_rels.

(** [sort_individuals], lines 165-169. *)
Definition sort_individuals (individuals : mat) (correlations : vec) : result mat :=
  let sorted_indices := np_argsort correlations in
  mapM (index individuals) (rev sorted_indices).

(** *** Deduplication, lines 56-68 *)

(** The loop of lines 66-67 over [enumerate(different_LTFs)]. *)
Fixpoint is_different_LTF_loop (different_LTFs : list LTFArray) (challenges : mat) (i : nat)
    (responses : mat) : result mat :=
  match different_LTFs with
  | [] => Ok responses
  | current_LTF :: rest =>
      responses <- set_row responses (i + 1) (LTFArray_eval current_LTF challenges) ;;
      is_different_LTF_loop rest challenges (S i) responses
  end.

(** [challenges] is the batch drawn by [tools.sample_inputs]. *)
Definition is_different_LTF (st : self.t) (new_LTF : ndarray) (challenges : mat) : result bool :=
  if Nat.eqb (self.num_of_LTFs st) 0 then Ok true else
  let weight_arrays := firstn (self.num_of_LTFs st) (self.different_LTFs st) in
  w <- drop_last_column new_LTF ;;
  let new_LTFArray := mkLTFArray w transform_atf None in
  let different_LTFs := build_LTFArrays (map (@removelast npfloat) weight_arrays) in
  let responses := np_empty2 (self.num_of_LTFs st) (self.challenge_num st) in
  responses <- set_row responses 0 (LTFArray_eval new_LTFArray challenges) ;;
  responses <- is_different_LTF_loop different_LTFs challenges 0 responses ;;
  Ok (negb (is_correlated responses)).

(** *** Polarity, lines 212-224 *)

(** [instance_responses] is what [instance.eval] returns on the batch
    [challenges] of 10 challenges drawn by [tools.sample_inputs]. *)
Definition set_pole_of_LTFs (instance_responses : vec) (challenges : mat) (different_LTFs : mat)
    : result mat :=
  let challenge_num := 10%nat in
  let responses := np_empty2 2 challenge_num in
  let xor_LTFArray := mkLTFArray different_LTFs transform_id None in
  responses <- set_row responses 0 instance_responses ;;
  responses <- set_row responses 1 (LTFArray_eval xor_LTFArray challenges) ;;
  let difference := np_sum (np_abs (vsub (nth 0 responses []) (nth 1 responses []))) in
  if fgtb difference (of_nat challenge_num) then
    match different_LTFs with
    | [] => Raise (IndexError_out_of_bounds 0 0)
    | first :: rest => Ok (vscale_r first (Fin (-1)) :: rest)
    end
  else Ok different_LTFs.

(** *** One generation of [learn_LTF], lines 86-107 *)

Inductive outcome : Type :=
| Converged (new_LTF : vec)
| Continue (st : self.t).

(** Lines 86-89: the last individual whose correlation exceeds the
    precision, if any. *)
Fixpoint scan_precision (precision : npfloat) (individuals : mat) (correlations : vec)
    (i : nat) (found : option vec) : result (option vec) :=
  match correlations with
  | [] => Ok found
  | c :: rest =>
      if fgtb c precision then
        x <- index individuals i ;;
        scan_precision precision individuals rest (S i) (Some x)
      else scan_precision precision individuals rest (S i) found
  end.

Definition generation (st : self.t) (individuals : mat) (correlations : vec) : result outcome :=
  found <- scan_precision (self.precision st) individuals correlations 0 None ;;
  sorted_individuals <- sort_individuals individuals correlations ;;
  match found with
  | Some new_LTF => Ok (Converged new_LTF)
  | None =>
      let parent_size := Z.to_nat (self.parent_size st) in
      parent <- get_parent sorted_individuals parent_size (self.priorities st) ;;
      cm_mu <- get_cm_mu sorted_individuals parent_size (self.priorities st) ;;
      let mean := update_mean (self.mean st) (self.step_size st) parent in
      let path_cm :=
        cumulation_for_cm (self.path_cm st) (self.c_c st) (self.path_ss st) (self.n st)
                          (self.mu_w st) parent in
      path_ss <- cumulation_for_ss (self.path_ss st) (self.c_sigma st) (self.mu_w st)
                                   (self.cov_matrix st) parent ;;
      let cov_matrix := update_cm (self.cov_matrix st) (self.c_1 st) (self.c_mu st) path_cm cm_mu in
      let step_size := update_ss (self.step_size st) (self.c_sigma st) (self.d_sigma st) path_ss in
      Ok (Continue (set_distribution st individuals mean path_cm path_ss cov_matrix step_size))
  end.

End Primitives.

(** ** The search for one chain and for all chains

    The loops of [learn_LTF] and [learn] have no bound; the model runs them
    for at most [fuel] rounds and answers [None] when a loop is still
    running then.  What a round draws and measures is an argument. *)

(** The draws of one generation: the mutations of
    [np.random.multivariate_normal], the challenges of
    [tools.sample_inputs], and the answers of the calls of
    [instance.eval] on these challenges. *)
Record draw : Type := mkDraw {
  mutations : mat;
  challenges : mat;
  evals : nat -> vec
}.

(** The assignment of line 79. *)
Definition set_individuals (st : self.t) (individuals : mat) : self.t :=
  set_distribution st individuals (self.mean st) (self.path_cm st) (self.path_ss st)
                   (self.cov_matrix st) (self.step_size st).

(** The assignments of lines 51-52. *)
Definition set_learned (st : self.t) (different_LTFs : mat) (num_of_LTFs : nat) : self.t :=
  self.mk (self.n st) different_LTFs (self.unreliability st) (self.precision st)
    num_of_LTFs (self.instance st) (self.challenge_num st) (self.repeat st)
    (self.individuals st) (self.mean st) (self.step_size st) (self.pop_size st)
    (self.parent_size st) (self.priorities st) (self.cov_matrix st) (self.path_cm st)
    (self.path_ss st) (self.mu_w st) (self.c_mu st) (self.d_sigma st) (self.c_1 st)
    (self.c_c st) (self.c_sigma st).

(** The sum over the first [parent_size] individuals of
    [priorities[i] * x_i[a]]. *)
Definition weighted_sum (sorted_individuals : mat) (priorities : vec) (parent_size a : nat)
    : npfloat :=
  fold_left (fun acc i => (acc + nth i priorities 0 * entry sorted_individuals i a)%np)
            (seq 0 parent_size) 0%np.

(** A loop that has returned a value: not an exception, and not still
    running when the fuel ran out. *)
Definition returned {A : Type} (r : result (option A)) : bool :=
  match r with
  | Ok (Some _) => true
  | _ => false
  end.

(** A value between -1 and 1, or NaN. *)
Definition correlation_value (f : npfloat) : Prop :=
  f = NaN \/ exists c : Q, f = Fin c /\ (-1 <= c /\ c <= 1)%Q.

(** A measured reliability: a number between 0 and 1. *)
Definition unit_value (r : npfloat) : Prop :=
  exists c : Q, r = Fin c /\ (0 <= c /\ c <= 1)%Q.

(** A value that is zero, or NaN. *)
Definition zero_or_nan (t : npfloat) : Prop :=
  t = NaN \/ exists z : Q, t = Fin z /\ (z == 0)%Q.

(** A vector of finite values whose absolute values are at most [b]. *)
Definition bounded_by (b : Q) (v : vec) : Prop :=
  Forall (fun a => exists s : Q, a = Fin s /\ (Qabs s <= b)%Q) v.

(** What a search never assigns: everything but the population and the
    five quantities of the distribution. *)
Definition same_configuration (a b : self.t) : Prop :=
  self.n a = self.n b /\
  self.different_LTFs a = self.different_LTFs b /\
  self.unreliability a = self.unreliability b /\
  self.precision a = self.precision b /\
  self.num_of_LTFs a = self.num_of_LTFs b /\
  self.instance a = self.instance b /\
  self.challenge_num a = self.challenge_num b /\
  self.repeat a = self.repeat b /\
  self.pop_size a = self.pop_size b /\
  self.parent_size a = self.parent_size b /\
  self.priorities a = self.priorities b /\
  self.mu_w a = self.mu_w b /\
  self.c_mu a = self.c_mu b /\
  self.d_sigma a = self.d_sigma b /\
  self.c_1 a = self.c_1 b /\
  self.c_c a = self.c_c b /\
  self.c_sigma a = self.c_sigma b.

Section Search.

Variable sqrtQ : Q -> Q.
Variable expQ : Q -> Q.
Variable linalg_eigh : mat -> result (vec * mat).
Variable linalg_inv : mat -> result mat.
Variable np_argsort : vec -> list nat.
Variable LTFArray_eval : LTFArray -> mat -> vec.
Variable LTFArray_val : LTFArray -> mat -> vec.

(** [learn_LTF], lines 71-108: the generations from number [x] on, with
    the draws [draws x], [draws (x + 1)], ...  A negative [pop_size] makes
    the draw of the mutations raise ValueError.  The result is the chain
    found and the learner as the search leaves it. *)
Fixpoint learn_LTF (fuel : nat) (st : self.t) (draws : nat -> draw) (x : nat)
    : result (option (vec * self.t)) :=
  match fuel with
  | O => Ok None
  | S fuel' =>
      let d := draws x in
      if (self.pop_size st <? 0)%Z then Raise ValueError else
      let individuals :=
        reproduce (self.mean st) (mutations d) (Z.to_nat (self.pop_size st))
                  (self.step_size st) in
      measured_rels <- measure_rels (evals d) (self.challenge_num st) (self.repeat st) ;;
      correlations <- fitness sqrtQ LTFArray_val (challenges d) (self.challenge_num st)
                              measured_rels individuals ;;
      out <- generation sqrtQ expQ linalg_eigh linalg_inv np_argsort st individuals
                        correlations ;;
      match out with
      | Converged new_LTF => Ok (Some (new_LTF, set_individuals st individuals))
      | Continue st' => learn_LTF fuel' st' draws (S x)
      end
  end.

(** The loop of [learn], lines 48-52: round number [t] searches with the
    draws [draws t] and compares on the challenges [dedup_challenges t]. *)
Fixpoint learn_loop (fuel search_fuel : nat) (st : self.t) (draws : nat -> nat -> draw)
    (dedup_challenges : nat -> mat) (t : nat) : result (option self.t) :=
  match fuel with
  | O => Ok None
  | S fuel' =>
      if self.num_of_LTFs st <? inst_k (self.instance st) then
        found <- learn_LTF search_fuel st (draws t) 0 ;;
        match found with
        | None => Ok None
        | Some (new_LTF, st) =>
            different <- is_different_LTF LTFArray_eval st (Arr1 new_LTF) (dedup_challenges t) ;;
            if different : bool then
              different_LTFs <- set_row (self.different_LTFs st) (self.num_of_LTFs st) new_LTF ;;
              learn_loop fuel' search_fuel
                         (set_learned st different_LTFs (self.num_of_LTFs st + 1))
                         draws dedup_challenges (S t)
            else learn_loop fuel' search_fuel st draws dedup_challenges (S t)
        end
      else Ok (Some st)
  end.

(** [learn], lines 45-54; [pole_responses] and [pole_challenges] are the
    instance's answers and the batch of [set_pole_of_LTFs]. *)
Definition learn (fuel search_fuel : nat) (st : self.t) (draws : nat -> nat -> draw)
    (dedup_challenges : nat -> mat) (pole_responses : vec) (pole_challenges : mat)
    : result (option LTFArray) :=
  looped <- learn_loop fuel search_fuel st draws dedup_challenges 0 ;;
  match looped with
  | None => Ok None
  | Some st =>
      different_LTFs <- set_pole_of_LTFs LTFArray_eval pole_responses pole_challenges
                                         (self.different_LTFs st) ;;
      Ok (Some (mkLTFArray different_LTFs transform_atf (Some false)))
  end.

End Search.
(** ** The covariance update on a concrete state

    Dimension 2, [c_1 = 1/2], [c_mu = 1/4], identity covariance, evolution
    path [(1, 0)] and one parent [(1, 0)] of priority 1. *)

Definition q (n : Z) (d : positive) : npfloat := Fin (n # d).

Definition ex_cov : mat := np_identity 2.
Definition ex_path_cm : vec := [1%np; 0%np].
Definition ex_sorted : mat := [[1%np; 0%np]].
Definition ex_cm_mu : mat := [[1%np; 0%np]; [0%np; 0%np]].


(** ** A learner that has accepted one chain

    Challenge length 2 (so [n = 3]), two chains to learn, one of them
    accepted already: weights [(1, -2)] and epsilon [1/2]. *)

Definition ex_chain : vec := [1%np; Fin (-2); q 1 2].

Definition ex_learner : self.t :=
  self.mk 3 [ex_chain; np_zeros 3] (q 1 10) (q 9 10) 1 (mkInstance 2 2) 4 5
    (np_zeros2 2 3) (np_zeros 3) 1%np 2 1 [1%np] (np_identity 3) (np_zeros 3) (np_zeros 3)
    1%np (q 1 9) 2%np (q 2 9) (q 4 3) (q 4 3).

Definition ex_challenges : mat :=
  [[1%np; 1%np]; [1%np; Fin (-1)]; [Fin (-1); 1%np]; [Fin (-1); Fin (-1)]].

(** An evaluation that answers 1 to every challenge. *)
Definition eval_ones (l : LTFArray) (challenges : mat) : vec := map (fun _ => 1%np) challenges.

(** ** A polarity check

    Two chains and a target that answers -1 to the ten challenges, while
    the learned combination ([eval_ones]) answers 1. *)

Definition ex_two_chains : mat := [[1%np; Fin (-2); q 1 2]; [q 3 4; 1%np; q 1 4]].
Definition ex_ten_challenges : mat := repeat [1%np; Fin (-1)] 10.
Definition ex_target_responses : vec := repeat (Fin (-1)) 10.

(** ** A square root to run the model with

    [sqrt_down a] is the square root of [a] rounded down to a multiple of
    [1 / (den a * 2^30)]; it is positive on positive rationals. *)
Definition sqrt_down (a : Q) : Q :=
  Z.sqrt (Qnum a * Zpos (Qden a) * 4 ^ 30) # (Qden a * 2 ^ 30).

(** ** Configurations *)

(** Challenge length 7 (so [n = 8]), two chains. *)
Definition ex_instance : instance_t := mkInstance 7 2.

(** Four equal priorities that sum to 1.  With [n = 8] every number the
    constructor computes from them but the square root has a few binary
    digits: their squares sum to 1/4, [mu_w = 4], [c_mu = 1/16],
    [c_1 = 1/32]. *)
Definition ex_priorities : vec := [q 1 4; q 1 4; q 1 4; q 1 4].

(** Seven priorities that sum to 1.25; their squares sum to 1/4, so that
    [mu_w = 4]. *)
Definition ex_heavy_priorities : vec :=
  [q 1 4; q 1 4; q 1 4; q 1 8; q 1 8; q 1 8; q 1 8].

(** Challenge length 3 (so [n = 4]), one chain. *)
Definition ex_medium_instance : instance_t := mkInstance 3 1.

(** The float64 sum on the arrays of the examples below: on numbers with
    a few binary digits, every partial sum of which float64 represents,
    numpy's sum is the exact sum.  Likewise the rounding: a number that
    float64 represents is rounded to itself. *)
Definition exact_sum : vec -> npfloat := np_sum.
Definition exact_round : Q -> npfloat := Fin.

(** Challenge length 1 (so [n = 2]), one chain. *)
Definition ex_small_instance : instance_t := mkInstance 1 1.

(** ** Primitives to run the model with

    [np.linalg.eigh] on a diagonal matrix whose diagonal is ascending: the
    eigenvalues are the diagonal entries, the eigenvectors the unit
    vectors.  [np.linalg.inv] on a diagonal matrix: LinAlgError when a
    diagonal entry is zero, the reciprocals otherwise.  [np.argsort] on an
    ascending vector. *)
Definition eigh_diag (m : mat) : result (vec * mat) :=
  Ok (map (fun i => entry m i i) (seq 0 (length m)), np_identity (length m)).

Definition inv_diag (m : mat) : result mat :=
  if existsb (fun i => feqb (entry m i i) 0%np) (seq 0 (length m))
  then Raise LinAlgError
  else Ok (np_diag (map (fun i => 1 / entry m i i)%np (seq 0 (length m)))).

Definition argsort_ascending (v : vec) : list nat := seq 0 (length v).

Definition exp_one (a : Q) : Q := 1%Q.

(** ** One generation

    The learner [ex_learner] (dimension 3, identity covariance, zero
    paths, one parent) meets a population of two whose correlations 0.1
    and 0.2 stay below the precision 0.9. *)
Definition ex_individuals : mat := [[1%np; 0%np; q 1 2]; [0%np; 1%np; q 1 4]].
Definition ex_correlations : vec := [q 1 10; q 2 10].

Definition ex_generation : result outcome :=
  generation sqrt_down exp_one eigh_diag inv_diag argsort_ascending
             ex_learner ex_individuals ex_correlations.

Definition ex_next : self.t :=
  match ex_generation with
  | Ok (Continue st) => st
  | _ => ex_learner
  end.

(** ** Signatures *)


(** ** More parents than individuals

    A learner with two priorities and a population of one (challenge
    length 1), and a generation of one individual whose correlation stays
    below the precision. *)
Definition ex_short_learner : self.t :=
  self.mk 2 [np_zeros 2] (q 1 10) (q 9 10) 0 ex_small_instance 4 5
    (np_zeros2 1 2) (np_zeros 2) 1%np 1 2 [q 1 2; q 1 2] (np_identity 2) (np_zeros 2)
    (np_zeros 2) 2%np (q 2 4) (Fin (1 + 1)) (q 2 4) 2%np 2%np.

Definition ex_one_individual : mat := [[1%np; q 1 2]].
Definition ex_one_correlation : vec := [q 1 10].

(** ** A generation in which two individuals reach the precision

    The correlations 0.95, 0.1 and 0.92 against the precision 0.9. *)
Definition ex_three_individuals : mat :=
  [[1%np; 0%np; q 1 2]; [0%np; 1%np; q 1 4]; [1%np; 1%np; q 1 8]].
Definition ex_three_correlations : vec := [q 95 100; q 1 10; q 92 100].

(** [np.argsort] of these correlations. *)
Definition argsort_three (v : vec) : list nat := [1; 2; 0].

(** ** Delay differences

    The delay differences of two individuals on three challenges, with the
    thresholds 1/2 and -1. *)
Definition ex_delay_diffs : mat := [[q 1 4; Fin (-3); q 1 2]; [2%np; Fin (-1); 0%np]].
Definition ex_epsilons : vec := [q 1 2; Fin (-1)].

(** A delay evaluation that answers with the sum of the weights of the
    chain, the same for every challenge. *)
Definition val_sum (l : LTFArray) (challenges : mat) : vec :=
  map (fun _ => np_sum (hd [] (weight_array l))) challenges.

(** ** Measurements

    Five answers of the instance to three challenges: the first and the
    third answer never change, the second flips twice. *)
Definition ex_evals (i : nat) : vec :=
  if Nat.eqb i 1 || Nat.eqb i 3 then [1%np; 1%np; Fin (-1)] else [1%np; Fin (-1); Fin (-1)].

(** The answers of an instance without noise. *)
Definition ex_steady_evals (i : nat) : vec := [1%np; Fin (-1); Fin (-1)].

(** ** A search that ends in its first generation

    A learner for one chain of challenge length 2 whose mean [(1, 1, 1)]
    predicts the measured reliabilities: the delay evaluation [val_dot]
    is the inner product of the weights and the challenge, the first and
    the last of the four challenges are answered the same five times, the
    two in the middle flip. *)
Definition val_dot (l : LTFArray) (challenges : mat) : vec :=
  map (fun c => dot (hd [] (weight_array l)) c) challenges.

Definition ex_search_learner : self.t :=
  self.mk 3 [np_zeros 3] (q 1 10) (q 9 10) 0 (mkInstance 2 1) 4 5
    (np_zeros2 1 3) [1%np; 1%np; 1%np] 1%np 1 1 [1%np] (np_identity 3) (np_zeros 3)
    (np_zeros 3) 1%np (q 1 9) 2%np (q 2 9) (q 4 3) (q 4 3).

Definition ex_flipping_evals (i : nat) : vec :=
  if Nat.eqb i 1 || Nat.eqb i 3 then [1%np; 1%np; Fin (-1); Fin (-1)]
  else [1%np; Fin (-1); 1%np; Fin (-1)].

Definition ex_draws (x : nat) : draw :=
  mkDraw [[0%np; 0%np; 0%np]] ex_challenges ex_flipping_evals.

(** The same learner after its step size has become NaN. *)
Definition ex_nan_learner : self.t :=
  set_distribution ex_search_learner (self.individuals ex_search_learner)
    (self.mean ex_search_learner) (self.path_cm ex_search_learner)
    (self.path_ss ex_search_learner) (self.cov_matrix ex_search_learner) NaN.

(** ** A constructed learner

    The learner of the constructor for challenge length 7, two chains, a
    population of 30 and the four priorities above. *)
Definition ex_constructed : self.t :=
  match init sqrt_down exact_sum exact_round ex_instance 30 4 ex_priorities 256 5
             (q 1 10) (q 9 10) with
  | Ok st => st
  | Raise _ => ex_learner
  end.

(** The draws of a search against an instance without noise: the same
    answers at every repetition. *)
Definition ex_steady_draws (x : nat) : draw :=
  mkDraw [[0%np; 0%np; 0%np]] ex_challenges (fun _ => [1%np; Fin (-1); 1%np; Fin (-1)]).

(** ** A covariance matrix with a negative eigenvalue

    The learner [ex_learner] with the covariance matrix [diag(-1, 1, 1)],
    and the learner one generation later. *)
Definition ex_indefinite_learner : self.t :=
  set_distribution ex_learner (self.individuals ex_learner) (self.mean ex_learner)
    (self.path_cm ex_learner) (self.path_ss ex_learner)
    (np_diag [Fin (-1); 1%np; 1%np]) (self.step_size ex_learner).

Definition ex_indefinite_next : self.t :=
  match generation sqrt_down exp_one eigh_diag inv_diag argsort_ascending
                   ex_indefinite_learner ex_individuals ex_correlations with
  | Ok (Continue st) => st
  | _ => ex_learner
  end.

(** * Sums of finite values *)

(** One step of a computation in [result]: the bind of a value that is
    known. *)
Ltac step := cbv beta iota delta [bind].
Ltac step_in H := cbv beta iota delta [bind] in H.

Lemma Qltb_lt (a b : Q) : Qltb a b = true <-> (a < b)%Q.
Proof.
  unfold Qltb. rewrite negb_true_iff. split.
  - intros H. apply Qnot_le_lt. intros Hle. rewrite <- Qle_bool_iff in Hle. congruence.
  - intros H. destruct (Qle_bool b a) eqn:E; [|reflexivity].
    rewrite Qle_bool_iff in E. apply Qle_not_lt in E. contradiction.
Qed.

Lemma Qltb_ge (a b : Q) : Qltb a b = false <-> (b <= a)%Q.
Proof.
  unfold Qltb. rewrite negb_false_iff. apply Qle_bool_iff.
Qed.

Lemma Qhalf (d : Q) : (d / 2 == d * (1 # 2))%Q.
Proof. reflexivity. Qed.

Lemma fold_fadd_fin (l : list Q) (a : Q) :
  fold_left fadd (map Fin l) (Fin a) = Fin (fold_left Qplus l a).
Proof.
  revert a; induction l as [|x l IH]; intros a; simpl; [reflexivity|apply IH].
Qed.

Lemma np_sum_fin (l : list Q) : np_sum (map Fin l) = Fin (fold_left Qplus l 0%Q).
Proof. apply fold_fadd_fin. Qed.

Lemma Qfold_acc (l : list Q) (a : Q) :
  (fold_left Qplus l a == a + fold_left Qplus l 0)%Q.
Proof.
  revert a; induction l as [|x l IH]; intros a; simpl.
  - ring.
  - rewrite (IH (a + x)%Q), (IH (0 + x)%Q). ring.
Qed.



Lemma finite_value (x : npfloat) : finite x = true -> x = Fin (value x).
Proof. destruct x; simpl; intros; congruence. Qed.

Lemma finite_vec (v : vec) : forallb finite v = true -> v = map Fin (map value v).
Proof.
  induction v as [|x v IH]; simpl; [reflexivity|].
  intros H. apply andb_true_iff in H as [Hx Hv].
  rewrite <- IH by assumption. rewrite <- finite_value by assumption. reflexivity.
Qed.

Lemma is_response_finite (x : npfloat) : is_response x = true -> finite x = true.
Proof. destruct x; unfold is_response; simpl; intros; congruence. Qed.

Lemma is_response_value (x : npfloat) :
  is_response x = true -> x = Fin (value x) /\ (value x == 1 \/ value x == -1)%Q.
Proof.
  destruct x as [a| | |]; unfold is_response; simpl; try discriminate.
  intros H. split; [reflexivity|].
  apply orb_true_iff in H as [H|H]; apply Qeq_bool_iff in H; auto.
Qed.

Lemma disagreements_cons (x y : Q) (u v : vec) :
  disagreements (Fin x :: u) (Fin y :: v)
  = (if Qeq_bool x y then 0 else 1) + disagreements u v.
Proof. unfold disagreements. simpl. destruct (Qeq_bool x y); reflexivity. Qed.

(** The sum of the absolute differences of two response vectors is twice
    the number of their disagreements. *)
Lemma sum_abs_diff_acc (u : vec) :
  forall (v : vec) (a : Q),
    forallb is_response u = true ->
    forallb is_response v = true ->
    exists d : Q,
      fold_left fadd (np_abs (vsub u v)) (Fin a) = Fin d /\
      (d == a + 2 * inject_Z (Z.of_nat (disagreements u v)))%Q.
Proof.
  induction u as [|x u IH]; intros v a Hu Hv.
  - exists a. split; [reflexivity|]. unfold disagreements; simpl. ring.
  - destruct v as [|y v].
    + exists a. split; [reflexivity|]. unfold disagreements; simpl. ring.
    + simpl in Hu, Hv.
      apply andb_true_iff in Hu as [Hx Hu]. apply andb_true_iff in Hv as [Hy Hv].
      destruct (is_response_value _ Hx) as [Ex Vx].
      destruct (is_response_value _ Hy) as [Ey Vy].
      rewrite Ex, Ey.
      destruct (IH v (a + Qabs (value x + - value y))%Q Hu Hv) as [d [Hd Heq]].
      exists d. split; [exact Hd|].
      rewrite Heq, disagreements_cons, Nat2Z.inj_add, inject_Z_plus.
      destruct (Qeq_bool (value x) (value y)) eqn:E.
      * apply Qeq_bool_iff in E.
        assert (Qabs (value x + - value y) == 0)%Q as ->.
        { assert (value x + - value y == 0)%Q as -> by lra. reflexivity. }
        change (inject_Z (Z.of_nat 0)) with 0%Q. ring.
      * apply Qeq_bool_neq in E.
        assert (Qabs (value x + - value y) == 2)%Q as ->.
        { destruct Vx as [Vx|Vx], Vy as [Vy|Vy]; try (exfalso; apply E; lra).
          - assert (value x + - value y == 2)%Q as -> by lra. reflexivity.
          - assert (value x + - value y == -(2))%Q as -> by lra. reflexivity. }
        change (inject_Z (Z.of_nat 1)) with 1%Q. ring.
Qed.

Lemma sum_abs_diff_responses (u v : vec) :
  forallb is_response u = true ->
  forallb is_response v = true ->
  exists d : Q,
    np_sum (np_abs (vsub u v)) = Fin d /\
    (d == 2 * inject_Z (Z.of_nat (disagreements u v)))%Q.
Proof.
  intros Hu Hv. destruct (sum_abs_diff_acc u v 0%Q Hu Hv) as [d [Hd Heq]].
  exists d. split; [exact Hd|]. rewrite Heq. ring.
Qed.

Lemma map2_length (A B C : Type) (f : A -> B -> C) (a : list A) (b : list B) :
  length (map2 f a b) = Nat.min (length a) (length b).
Proof.
  revert b; induction a as [|x a IH]; intros [|y b]; simpl; auto.
Qed.

Example get_cm_mu_ex : get_cm_mu ex_sorted 1 [1%np] = Ok [[(0 + 1 * 1 * 1)%np; (0 + 1 * 1 * 0)%np]; [(0 + 1 * 0 * 1)%np; (0 + 1 * 0 * 0)%np]].
Proof. reflexivity. Qed.

(** C1 (the code departs from the claim): on the concrete state above the
    specification's formula, with the outer product of the evolution path
    with itself, gives [[1, 0], [0, 1/4]].  [update_cm] returns
    [[1, 0], [1/2, 1/4]]: it adds the squared path entry [c_1 * p_j * p_j]
    to every row of column [j], here 1/2 to entry (1, 0). *)
Theorem update_cm_rank_one_term_differs_from_outer_product :
  meqb (update_cm_spec ex_cov (q 1 2) (q 1 4) ex_path_cm ex_cm_mu)
       [[1%np; 0%np]; [0%np; q 1 4]] = true /\
  meqb (update_cm ex_cov (q 1 2) (q 1 4) ex_path_cm ex_cm_mu)
       [[1%np; 0%np]; [q 1 2; q 1 4]] = true /\
  meqb (update_cm ex_cov (q 1 2) (q 1 4) ex_path_cm ex_cm_mu)
       (update_cm_spec ex_cov (q 1 2) (q 1 4) ex_path_cm ex_cm_mu) = false.
Proof. repeat split; vm_compute; reflexivity. Qed.

(** C2 (the code departs from the claim): the covariance matrix and
    [cm_mu] of the concrete state are symmetric, the matrix [update_cm]
    returns is not: its entry (1, 0) is 1/2 and its entry (0, 1) is 0. *)
Theorem update_cm_loses_symmetry :
  symmetricb ex_cov = true /\
  symmetricb ex_cm_mu = true /\
  symmetricb (update_cm ex_cov (q 1 2) (q 1 4) ex_path_cm ex_cm_mu) = false /\
  feqb (entry (update_cm ex_cov (q 1 2) (q 1 4) ex_path_cm ex_cm_mu) 1 0) (q 1 2) = true /\
  feqb (entry (update_cm ex_cov (q 1 2) (q 1 4) ex_path_cm ex_cm_mu) 0 1) 0%np = true.
Proof. repeat split; vm_compute; reflexivity. Qed.

(** * Deduplication *)

Section Dedup.

Variable LTFArray_eval : LTFArray -> mat -> vec.

Lemma replace_nth_length (A : Type) (i : nat) (x : A) (l : list A) :
  length (replace_nth i x l) = length l.
Proof.
  revert i; induction l as [|a l IH]; intros [|i]; simpl; auto.
Qed.

Lemma set_row_length (a a' : mat) (i : nat) (v : vec) :
  set_row a i v = Ok a' -> length a' = length a.
Proof.
  unfold set_row. destruct (nth_error a i) as [row|]; [|discriminate].
  destruct (Nat.eqb (length v) (length row)).
  - intros [= <-]. apply replace_nth_length.
  - destruct (Nat.eqb (length v) 1); [|discriminate].
    intros [= <-]. apply replace_nth_length.
Qed.

Lemma set_row_out_of_bounds (a : mat) (i : nat) (v : vec) :
  length a <= i -> set_row a i v = Raise (IndexError_out_of_bounds i (length a)).
Proof.
  intros H. unfold set_row.
  destruct (nth_error a i) eqn:E; [|reflexivity].
  assert (nth_error a i <> None) as Hn by congruence.
  apply nth_error_Some in Hn. lia.
Qed.

(** The loop of lines 66-67 writes the rows [i + 1 .. i + length ltfs]:
    on a buffer with no more than [i + length ltfs] rows it raises. *)
Lemma is_different_LTF_loop_raises (ltfs : list LTFArray) (challenges : mat) :
  forall (i : nat) (responses : mat),
    ltfs <> [] ->
    length responses <= i + length ltfs ->
    is_ok (is_different_LTF_loop LTFArray_eval ltfs challenges i responses) = false.
Proof.
  induction ltfs as [|cur rest IH]; intros i responses Hne Hlen; [congruence|].
  simpl.
  destruct (set_row responses (i + 1) (LTFArray_eval cur challenges)) as [r'|e] eqn:Hset;
    simpl; [|reflexivity].
  pose proof (set_row_length _ _ _ Hset) as Hl.
  destruct rest as [|cur' rest'].
  - simpl in Hlen. rewrite set_row_out_of_bounds in Hset by lia. discriminate.
  - apply IH; [discriminate|]. simpl in *. lia.
Qed.

Lemma replace_nth_rows (c : nat) (a : mat) (i : nat) (v : vec) :
  rows_of_length c a -> length v = c -> rows_of_length c (replace_nth i v a).
Proof.
  unfold rows_of_length. intros Ha Hv. revert i.
  induction Ha as [|row a Hrow Ha IH]; intros [|i]; simpl; auto.
Qed.

Lemma set_row_in_bounds (c : nat) (a : mat) (i : nat) (v : vec) :
  rows_of_length c a -> length v = c -> i < length a ->
  set_row a i v = Ok (replace_nth i v a).
Proof.
  intros Ha Hv Hi. unfold set_row.
  destruct (nth_error a i) as [row|] eqn:E.
  - assert (length row = c) as ->.
    { unfold rows_of_length in Ha. rewrite Forall_forall in Ha.
      apply Ha. eapply nth_error_In; eauto. }
    rewrite Hv, Nat.eqb_refl. reflexivity.
  - apply nth_error_None in E. lia.
Qed.

Lemma is_different_LTF_loop_cons (cur : LTFArray) (rest : list LTFArray) (challenges : mat)
    (i : nat) (responses : mat) :
  is_different_LTF_loop LTFArray_eval (cur :: rest) challenges i responses
  = bind (set_row responses (i + 1) (LTFArray_eval cur challenges))
         (fun r => is_different_LTF_loop LTFArray_eval rest challenges (S i) r).
Proof. reflexivity. Qed.

(** With one response per challenge, the loop fails exactly at the write
    of the row after the last one. *)
Lemma is_different_LTF_loop_out_of_bounds (c : nat) (ltfs : list LTFArray) (challenges : mat) :
  (forall l, length (LTFArray_eval l challenges) = c) ->
  forall (i : nat) (responses : mat),
    ltfs <> [] ->
    rows_of_length c responses ->
    length responses = i + length ltfs ->
    is_different_LTF_loop LTFArray_eval ltfs challenges i responses
    = Raise (IndexError_out_of_bounds (length responses) (length responses)).
Proof.
  intros Heval.
  induction ltfs as [|cur rest IH]; intros i responses Hne Hrows Hlen; [congruence|].
  rewrite is_different_LTF_loop_cons. destruct rest as [|cur' rest'].
  - simpl in Hlen. rewrite set_row_out_of_bounds by lia. simpl.
    replace (i + 1) with (length responses) by lia. reflexivity.
  - rewrite (set_row_in_bounds (c := c)); auto; [|simpl in Hlen; lia].
    unfold bind.
    rewrite (IH (S i) (replace_nth (i + 1) (LTFArray_eval cur challenges) responses)).
    + rewrite replace_nth_length. reflexivity.
    + discriminate.
    + apply replace_nth_rows; auto.
    + rewrite replace_nth_length. simpl in *. lia.
Qed.

Lemma np_empty2_rows (r c : nat) : rows_of_length c (np_empty2 r c).
Proof.
  unfold rows_of_length, np_empty2, np_zeros2, np_zeros.
  apply Forall_forall. intros row Hin. apply repeat_spec in Hin. subst.
  apply repeat_length.
Qed.

Lemma np_empty2_length (r c : nat) : length (np_empty2 r c) = r.
Proof. apply repeat_length. Qed.

(** No acceptance test completes once a chain has been accepted. *)
Lemma is_different_LTF_never_ok (st : self.t) (new_LTF : ndarray) (challenges : mat) :
  1 <= self.num_of_LTFs st ->
  self.num_of_LTFs st <= length (self.different_LTFs st) ->
  is_ok (is_different_LTF LTFArray_eval st new_LTF challenges) = false.
Proof.
  intros H1 Hk. unfold is_different_LTF.
  destruct (Nat.eqb_spec (self.num_of_LTFs st) 0) as [E|_]; [lia|].
  destruct (drop_last_column new_LTF) as [w|e]; simpl; [|reflexivity].
  match goal with |- context [set_row ?a 0 ?v] => destruct (set_row a 0 v) as [r|e] eqn:Hset end;
    simpl; [|reflexivity].
  pose proof (set_row_length _ _ _ Hset) as Hl. rewrite np_empty2_length in Hl.
  match goal with |- context [is_different_LTF_loop ?E ?l ?c ?i ?r] =>
    pose proof (@is_different_LTF_loop_raises l c i r) as Hloop;
    destruct (is_different_LTF_loop E l c i r) end; simpl; [|reflexivity].
  apply Hloop.
  - unfold build_LTFArrays. intros Hnil. apply (f_equal (@length _)) in Hnil.
    rewrite !length_map, length_firstn in Hnil. simpl in Hnil. lia.
  - unfold build_LTFArrays. rewrite !length_map, length_firstn. lia.
Qed.

(** A one-dimensional candidate fails at the slicing of line 61. *)
Lemma is_different_LTF_one_dimensional (st : self.t) (v : vec) (challenges : mat) :
  1 <= self.num_of_LTFs st ->
  is_different_LTF LTFArray_eval st (Arr1 v) challenges = Raise IndexError_too_many_indices.
Proof.
  intros H1. unfold is_different_LTF.
  destruct (Nat.eqb_spec (self.num_of_LTFs st) 0) as [E|_]; [lia|]. reflexivity.
Qed.

(** A two-dimensional candidate fails at the write of row [num_of_LTFs]. *)
Lemma is_different_LTF_two_dimensional (st : self.t) (m : mat) (challenges : mat) :
  1 <= self.num_of_LTFs st ->
  self.num_of_LTFs st <= length (self.different_LTFs st) ->
  (forall l, length (LTFArray_eval l challenges) = self.challenge_num st) ->
  is_different_LTF LTFArray_eval st (Arr2 m) challenges
  = Raise (IndexError_out_of_bounds (self.num_of_LTFs st) (self.num_of_LTFs st)).
Proof.
  intros H1 Hk Heval. unfold is_different_LTF.
  destruct (Nat.eqb_spec (self.num_of_LTFs st) 0) as [E|_]; [lia|].
  cbv beta iota delta [drop_last_column]. step.
  rewrite (set_row_in_bounds (c := self.challenge_num st));
    [|apply np_empty2_rows|apply Heval|rewrite np_empty2_length; lia].
  step.
  rewrite (is_different_LTF_loop_out_of_bounds (c := self.challenge_num st)); auto.
  - rewrite replace_nth_length, np_empty2_length. reflexivity.
  - unfold build_LTFArrays. intros Hnil. apply (f_equal (@length _)) in Hnil.
    rewrite !length_map, length_firstn in Hnil. simpl in Hnil. lia.
  - apply replace_nth_rows; [apply np_empty2_rows|apply Heval].
  - rewrite replace_nth_length, np_empty2_length.
    unfold build_LTFArrays. rewrite !length_map, length_firstn. lia.
Qed.

(** The first candidate is accepted without any comparison. *)
Lemma is_different_LTF_first (st : self.t) (new_LTF : ndarray) (challenges : mat) :
  self.num_of_LTFs st = 0 ->
  is_different_LTF LTFArray_eval st new_LTF challenges = Ok true.
Proof. intros H. unfold is_different_LTF. rewrite H. reflexivity. Qed.

End Dedup.

(** * Polarity *)

Lemma fmul_minus_one (x : npfloat) : (x * Fin (-1))%np = fopp x.
Proof.
  destruct x as [a| | |]; try reflexivity.
  destruct a as [n d]. unfold fmul, fopp, Qmult, Qopp. simpl Qnum. simpl Qden.
  rewrite Pos.mul_1_r. f_equal. f_equal. lia.
Qed.

Lemma vscale_r_minus_one (v : vec) : vscale_r v (Fin (-1)) = map fopp v.
Proof. unfold vscale_r. apply map_ext. intros x. apply fmul_minus_one. Qed.

(** C9: with ten responses (each 1 or -1) from the target and from the
    identity-transform XOR combination of the learned chains,
    [set_pole_of_LTFs] returns the chains with the first weight vector
    negated when more than 5 of the 10 responses disagree, and the chains as
    they were otherwise; the other weight vectors are returned as they
    were in both cases. *)
Theorem set_pole_of_LTFs_negates_first_chain
    (LTFArray_eval : LTFArray -> mat -> vec)
    (instance_responses : vec) (challenges : mat) (first : vec) (rest : mat) :
  let learned := LTFArray_eval (mkLTFArray (first :: rest) transform_id None) challenges in
  length instance_responses = 10 ->
  length learned = 10 ->
  forallb is_response instance_responses = true ->
  forallb is_response learned = true ->
  set_pole_of_LTFs LTFArray_eval instance_responses challenges (first :: rest)
  = Ok ((if 5 <? disagreements instance_responses learned then map fopp first else first)
        :: rest).
Proof.
  intros learned Hlen0 Hlen1 Hr0 Hr1. unfold set_pole_of_LTFs.
  fold learned. clearbody learned.
  rewrite (set_row_in_bounds (c := 10)); [|apply np_empty2_rows|assumption|simpl; lia].
  step.
  rewrite (set_row_in_bounds (c := 10));
    [|apply replace_nth_rows; [apply np_empty2_rows|assumption]|assumption|simpl; lia].
  step.
  change (nth 0 (replace_nth 1 learned (replace_nth 0 instance_responses (np_empty2 2 10))) [])
    with instance_responses.
  change (nth 1 (replace_nth 1 learned (replace_nth 0 instance_responses (np_empty2 2 10))) [])
    with learned.
  destruct (sum_abs_diff_responses _ _ Hr0 Hr1) as [d [Hd Heq]].
  rewrite Hd. unfold fgtb, of_nat, of_Z, fltb.
  rewrite vscale_r_minus_one.
  destruct (Nat.ltb_spec 5 (disagreements instance_responses learned)) as [Hgt|Hle].
  - assert (Qltb (inject_Z (Z.of_nat 10)) d = true) as ->; [|reflexivity].
    apply Qltb_lt. rewrite Heq.
    assert (inject_Z (Z.of_nat 6) <= inject_Z (Z.of_nat (disagreements instance_responses learned)))%Q as Hq.
    { rewrite <- Zle_Qle. lia. }
    change (inject_Z (Z.of_nat 10)) with 10%Q. change (inject_Z (Z.of_nat 6)) with 6%Q in Hq. lra.
  - assert (Qltb (inject_Z (Z.of_nat 10)) d = false) as ->; [|reflexivity].
    apply Qltb_ge. rewrite Heq.
    assert (inject_Z (Z.of_nat (disagreements instance_responses learned)) <= inject_Z (Z.of_nat 5))%Q as Hq.
    { rewrite <- Zle_Qle. lia. }
    change (inject_Z (Z.of_nat 10)) with 10%Q. change (inject_Z (Z.of_nat 5)) with 5%Q in Hq. lra.
Qed.

Lemma set_pole_of_LTFs_negates_first_chain_witness :
  set_pole_of_LTFs eval_ones ex_target_responses ex_ten_challenges ex_two_chains
  = Ok [[Fin (-1); Fin (- -2); Fin (- (1 # 2))]; [q 3 4; 1%np; q 1 4]].
Proof.
  exact (@set_pole_of_LTFs_negates_first_chain eval_ones ex_target_responses ex_ten_challenges
           [1%np; Fin (-2); q 1 2] [[q 3 4; 1%np; q 1 4]]
           eq_refl eq_refl eq_refl eq_refl).
Defined.

(** ** What the comparison itself decides *)

Lemma disagreements_same (v : vec) :
  forallb is_response v = true -> disagreements v v = 0.
Proof.
  induction v as [|x v IH]; [reflexivity|]. simpl. intros H.
  apply andb_true_iff in H as [Hx Hv].
  destruct (is_response_value _ Hx) as [Ex _]. rewrite Ex, disagreements_cons.
  rewrite Qeq_bool_refl. simpl. auto.
Qed.

Lemma disagreements_negated (v : vec) :
  forallb is_response v = true -> disagreements v (map fopp v) = length v.
Proof.
  induction v as [|x v IH]; [reflexivity|]. simpl. intros H.
  apply andb_true_iff in H as [Hx Hv].
  destruct (is_response_value _ Hx) as [Ex Vx]. rewrite Ex. simpl fopp.
  rewrite disagreements_cons, (IH Hv).
  destruct (Qeq_bool (value x) (- value x)) eqn:E; [|reflexivity].
  apply Qeq_bool_iff in E. exfalso. destruct Vx as [Vx|Vx]; lra.
Qed.

Lemma is_response_fopp (v : vec) :
  forallb is_response v = true -> forallb is_response (map fopp v) = true.
Proof.
  induction v as [|x v IH]; [reflexivity|]. simpl. intros H.
  apply andb_true_iff in H as [Hx Hv]. rewrite (IH Hv), andb_true_r.
  destruct (is_response_value _ Hx) as [Ex Vx]. rewrite Ex. unfold is_response. simpl.
  apply orb_true_iff. destruct Vx as [Vx|Vx]; [right|left]; apply Qeq_bool_iff; lra.
Qed.

(** [is_correlated] reports a candidate whose responses equal those of an
    accepted chain, or are their negation: the duplicate the acceptance
    test is meant to reject. *)
Lemma is_correlated_duplicate (new : vec) (accepted : mat) (r : vec) :
  In r accepted ->
  new <> [] ->
  forallb is_response new = true ->
  r = new \/ r = map fopp new ->
  is_correlated (new :: accepted) = true.
Proof.
  intros Hin Hne Hresp Hr. unfold is_correlated.
  apply existsb_exists.
  destruct (In_nth _ _ [] Hin) as [k [Hk Hnth]].
  unfold mat, vec in *.
  exists (S k). split.
  - apply in_seq. simpl length. unfold mat, vec in *. lia.
  - cbv beta zeta. simpl nth. rewrite Hnth. simpl hd. unfold ncols. simpl hd.
    assert (forallb is_response r = true) as Hr'.
    { destruct Hr as [->| ->]; [assumption|apply is_response_fopp; assumption]. }
    destruct (sum_abs_diff_responses _ _ Hresp Hr') as [d [Hd Heq]].
    rewrite Hd. unfold fgtb, of_nat, of_Z. simpl fdiv. simpl fmul. simpl fltb.
    assert (1 <= inject_Z (Z.of_nat (length new)))%Q as Hlen.
    { change 1%Q with (inject_Z 1). rewrite <- Zle_Qle.
      destruct new; [congruence|simpl length; lia]. }
    apply orb_true_iff. destruct Hr as [->| ->].
    + left. rewrite disagreements_same in Heq by assumption.
      change (inject_Z (Z.of_nat 0)) with 0%Q in Heq.
      apply Qltb_lt. rewrite Heq, Qhalf.
      set (L := inject_Z (Z.of_nat (length new))) in *. lra.
    + right. rewrite disagreements_negated in Heq by assumption.
      apply Qltb_lt. rewrite Heq, Qhalf.
      set (L := inject_Z (Z.of_nat (length new))) in *. lra.
Qed.

Lemma is_correlated_duplicate_witness :
  is_correlated [[1%np; Fin (-1); 1%np; 1%np]; [Fin (-1); 1%np; Fin (-1); Fin (-1)]] = true.
Proof.
  apply (@is_correlated_duplicate [1%np; Fin (-1); 1%np; 1%np]
           [[Fin (-1); 1%np; Fin (-1); Fin (-1)]] [Fin (-1); 1%np; Fin (-1); Fin (-1)]).
  - left. reflexivity.
  - discriminate.
  - reflexivity.
  - right. reflexivity.
Defined.

(** * The acceptance test once a chain has been accepted *)

(** C3 (the code departs from the claim): with one accepted chain, a
    candidate with the very same weights, or with their negation, is not
    rejected: the call raises an IndexError, for a one-dimensional
    candidate (what [learn_LTF] returns) and for a two-dimensional one
    alike, whatever the simulation answers.  With no accepted chain every
    candidate is accepted. *)
Theorem is_different_LTF_raises_on_duplicate (LTFArray_eval : LTFArray -> mat -> vec) :
  is_different_LTF LTFArray_eval ex_learner (Arr1 ex_chain) ex_challenges
  = Raise IndexError_too_many_indices /\
  is_different_LTF LTFArray_eval ex_learner (Arr1 (map fopp ex_chain)) ex_challenges
  = Raise IndexError_too_many_indices /\
  is_ok (is_different_LTF LTFArray_eval ex_learner (Arr2 [ex_chain]) ex_challenges) = false /\
  is_ok (is_different_LTF LTFArray_eval ex_learner (Arr2 [map fopp ex_chain]) ex_challenges)
  = false /\
  (forall st new_LTF challenges,
      self.num_of_LTFs st = 0 ->
      is_different_LTF LTFArray_eval st new_LTF challenges = Ok true).
Proof.
  repeat split.
  - apply is_different_LTF_never_ok; simpl; lia.
  - apply is_different_LTF_never_ok; simpl; lia.
  - intros st new_LTF challenges H. apply is_different_LTF_first. exact H.
Qed.

(** C4 (as amended): once a chain has been accepted, with
    [num_of_LTFs] no larger than the number of rows of [different_LTFs],
    no call of [is_different_LTF] completes.  A one-dimensional candidate
    fails at the slicing [new_LTF[:, :-1]].  A two-dimensional candidate,
    when every evaluation returns one response per challenge, fails at the
    write of row [num_of_LTFs] into the buffer of [num_of_LTFs] rows. *)
Theorem is_different_LTF_never_completes (LTFArray_eval : LTFArray -> mat -> vec)
    (st : self.t) (new_LTF : ndarray) (challenges : mat) :
  1 <= self.num_of_LTFs st ->
  self.num_of_LTFs st <= length (self.different_LTFs st) ->
  is_ok (is_different_LTF LTFArray_eval st new_LTF challenges) = false /\
  (forall v, new_LTF = Arr1 v ->
     is_different_LTF LTFArray_eval st new_LTF challenges = Raise IndexError_too_many_indices) /\
  (forall m, new_LTF = Arr2 m ->
     (forall l, length (LTFArray_eval l challenges) = self.challenge_num st) ->
     length (np_empty2 (self.num_of_LTFs st) (self.challenge_num st)) = self.num_of_LTFs st /\
     is_different_LTF LTFArray_eval st new_LTF challenges
     = Raise (IndexError_out_of_bounds (self.num_of_LTFs st) (self.num_of_LTFs st))).
Proof.
  intros H1 Hk. split; [|split].
  - apply is_different_LTF_never_ok; assumption.
  - intros v ->. apply is_different_LTF_one_dimensional; assumption.
  - intros m -> Heval. split; [apply np_empty2_length|].
    apply is_different_LTF_two_dimensional; assumption.
Qed.

Lemma is_different_LTF_never_completes_witness :
  is_ok (is_different_LTF eval_ones ex_learner (Arr2 [ex_chain]) ex_challenges) = false /\
  (forall v, Arr2 [ex_chain] = Arr1 v ->
     is_different_LTF eval_ones ex_learner (Arr2 [ex_chain]) ex_challenges
     = Raise IndexError_too_many_indices) /\
  (forall m, Arr2 [ex_chain] = Arr2 m ->
     (forall l, length (eval_ones l ex_challenges) = 4) ->
     length (np_empty2 1 4) = 1 /\
     is_different_LTF eval_ones ex_learner (Arr2 [ex_chain]) ex_challenges
     = Raise (IndexError_out_of_bounds 1 1)).
Proof.
  apply (@is_different_LTF_never_completes eval_ones ex_learner (Arr2 [ex_chain]) ex_challenges);
    simpl; lia.
Defined.

(** C4 (the claim as stated fails): the candidate [learn_LTF] returns is
    one-dimensional; with one accepted chain the call then stops at the
    slicing of line 61, before the buffer is allocated, and the write of
    row [num_of_LTFs] is not reached. *)
Lemma is_different_LTF_one_dimensional_stops_at_slicing :
  self.num_of_LTFs ex_learner = 1 /\
  drop_last_column (Arr1 ex_chain) = Raise IndexError_too_many_indices /\
  is_different_LTF eval_ones ex_learner (Arr1 ex_chain) ex_challenges
  = Raise IndexError_too_many_indices.
Proof. repeat split. Qed.

(** * Construction *)

Section Construction.

Variable sqrtQ : Q -> Q.
Variable float_sum : vec -> npfloat.
Variable round64 : Q -> npfloat.

(** The three assertions and the allocation of the population decide
    whether the constructor returns. *)
Lemma init_ok (instance : instance_t) (pop_size parent_size : Z) (priorities : vec)
    (challenge_num repeat : nat) (unreliability precision : npfloat) :
  is_ok (init sqrtQ float_sum round64 instance pop_size parent_size priorities challenge_num repeat
              unreliability precision)
  = negb (pop_size <? 0)%Z
    && (Z.of_nat (length priorities) =? parent_size)%Z
    && match py_int (ndarray_sum float_sum priorities) with
       | Ok s => (s =? 1)%Z
       | Raise _ => false
       end
    && fleb (c_1_plus_c_mu round64 float_sum (S (inst_n instance)) priorities) 1%np.
Proof.
  unfold init, np_zeros2_Z, c_1_plus_c_mu, c_1_of, c_mu_of.
  destruct (pop_size <? 0)%Z; [reflexivity|]. cbv beta iota delta [bind negb andb].
  destruct (Z.of_nat (length priorities) =? parent_size)%Z; [|reflexivity].
  cbv beta iota delta [bind py_assert].
  destruct (py_int (ndarray_sum float_sum priorities)) as [s|e]; [|reflexivity].
  step.
  destruct (s =? 1)%Z; [|reflexivity].
  step.
  match goal with |- context [fleb ?a ?b] => destruct (fleb a b) end; reflexivity.
Qed.

(** [int(s) == 1] holds exactly for [1 <= s < 2]. *)
Lemma py_int_one (s : Q) :
  py_int (Fin s) = Ok 1%Z <-> (1 <= s /\ s < 2)%Q.
Proof.
  destruct s as [n d]. unfold py_int, Qle, Qlt. simpl Qnum. simpl Qden.
  split.
  - intros [= H]. pose proof (Z.quot_rem' n (Zpos d)) as Hqr.
    destruct (Z.le_gt_cases 0 n) as [Hn|Hn].
    + pose proof (Z.rem_bound_pos n (Zpos d) Hn eq_refl). lia.
    + assert (0 <= - n)%Z as Hn' by lia.
      pose proof (Z.rem_bound_pos (- n) (Zpos d) Hn' eq_refl) as Hb.
      rewrite Z.rem_opp_l in Hb by lia. lia.
  - intros [H1 H2]. f_equal.
    rewrite Z.quot_div_nonneg by lia.
    symmetry. apply (Z.div_unique n (Zpos d) 1 (n - Zpos d)); lia.
Qed.

End Construction.

(** C5 (as amended): construction fails when the number of priorities
    differs from [parent_size], when the float64 sum of the priorities
    (the sum as numpy computes it, with its rounding) truncated to an
    integer is not 1 (this sum lies outside [1, 2)), when
    [c_1 + c_mu <= 1] does not hold for the float64 numbers the
    constructor computes, when [parent_size] is not positive, and when
    [pop_size] is negative; it succeeds for every configuration with a
    non-negative [pop_size], as many priorities as [parent_size],
    priorities whose float64 sum is 1 and [c_1 + c_mu <= 1].  The
    constructor draws no sample. *)
Theorem init_rejects_and_accepts (sqrtQ : Q -> Q) (float_sum : vec -> npfloat)
    (round64 : Q -> npfloat)
    (instance : instance_t) (pop_size parent_size : Z) (priorities : vec)
    (challenge_num repeat : nat) (unreliability precision : npfloat) :
  (Z.of_nat (length priorities) <> parent_size ->
   is_ok (init sqrtQ float_sum round64 instance pop_size parent_size priorities challenge_num repeat
               unreliability precision) = false) /\
  (forall s : Q, ndarray_sum float_sum priorities = Fin s -> (s < 1 \/ 2 <= s)%Q ->
   is_ok (init sqrtQ float_sum round64 instance pop_size parent_size priorities challenge_num repeat
               unreliability precision) = false) /\
  (fleb (c_1_plus_c_mu round64 float_sum (S (inst_n instance)) priorities) 1%np = false ->
   is_ok (init sqrtQ float_sum round64 instance pop_size parent_size priorities challenge_num repeat
               unreliability precision) = false) /\
  ((parent_size <= 0)%Z ->
   is_ok (init sqrtQ float_sum round64 instance pop_size parent_size priorities challenge_num repeat
               unreliability precision) = false) /\
  ((pop_size < 0)%Z ->
   is_ok (init sqrtQ float_sum round64 instance pop_size parent_size priorities challenge_num repeat
               unreliability precision) = false) /\
  ((0 <= pop_size)%Z ->
   Z.of_nat (length priorities) = parent_size ->
   (exists s : Q, ndarray_sum float_sum priorities = Fin s /\ (s == 1)%Q) ->
   fleb (c_1_plus_c_mu round64 float_sum (S (inst_n instance)) priorities) 1%np = true ->
   is_ok (init sqrtQ float_sum round64 instance pop_size parent_size priorities challenge_num repeat
               unreliability precision) = true).
Proof.
  rewrite init_ok.
  assert (forall s : Q, ndarray_sum float_sum priorities = Fin s -> (s < 1 \/ 2 <= s)%Q ->
          match py_int (ndarray_sum float_sum priorities) with
          | Ok s => (s =? 1)%Z
          | Raise _ => false
          end = false)
    as Hsum.
  { intros s Hs Hout. rewrite Hs.
    destruct (py_int (Fin s)) as [z|e] eqn:E; [|reflexivity].
    destruct (Z.eqb_spec z 1) as [->|]; [|reflexivity].
    apply py_int_one in E. lra. }
  refine (conj _ (conj _ (conj _ (conj _ (conj _ _))))).
  - intros H. apply Z.eqb_neq in H. rewrite H. apply andb_false_iff. left.
    apply andb_false_iff. left. apply andb_false_r.
  - intros s Hs Hout. rewrite (Hsum s Hs Hout). apply andb_false_iff. left. apply andb_false_r.
  - intros H. rewrite H. apply andb_false_r.
  - intros H. destruct (Z.eqb_spec (Z.of_nat (length priorities)) parent_size) as [E|E].
    + assert (priorities = []) as ->.
      { destruct priorities; [reflexivity|simpl length in E; lia]. }
      simpl. rewrite andb_false_r. reflexivity.
    + rewrite andb_false_r. reflexivity.
  - intros H. apply Z.ltb_lt in H. rewrite H. reflexivity.
  - intros Hpop Hlen [s [Hs Hone]] Hc.
    apply Z.ltb_ge in Hpop. apply Z.eqb_eq in Hlen. rewrite Hpop, Hlen, Hc, Hs.
    assert (py_int (Fin s) = Ok 1%Z) as -> by (apply py_int_one; lra).
    reflexivity.
Qed.

Lemma init_rejects_and_accepts_witness :
  is_ok (init sqrt_down exact_sum exact_round ex_instance 30 4 ex_priorities 256 5
              (q 1 10) (q 9 10))
  = true.
Proof.
  refine (proj2 (proj2 (proj2 (proj2 (proj2
            (@init_rejects_and_accepts sqrt_down exact_sum exact_round ex_instance 30 4
                                       ex_priorities 256 5 (q 1 10) (q 9 10)))))) _ _ _ _).
  - lia.
  - reflexivity.
  - eexists. split; [reflexivity|]. vm_compute. reflexivity.
  - vm_compute. reflexivity.
Defined.

(** C5 (the claim as stated fails): the constructor returns a learner for
    [parent_size = 2 > pop_size = 1], and for [pop_size = 0].  The
    priorities are 1/2 and 1/2, and 1, and [n = 2]: float64 represents
    every number that decides ([c_1 = 1/2], [c_mu = 1/2] and 1/4), so
    that no operation rounds. *)
Lemma init_accepts_parent_size_above_pop_size :
  (forall sqrtQ : Q -> Q,
     is_ok (init sqrtQ exact_sum exact_round ex_small_instance 1 2 [q 1 2; q 1 2] 256 5
                 (q 1 10) (q 9 10))
     = true) /\
  (forall sqrtQ : Q -> Q,
     is_ok (init sqrtQ exact_sum exact_round ex_small_instance 0 1 [1%np] 256 5
                 (q 1 10) (q 9 10))
     = true).
Proof. split; intros sqrtQ; vm_compute; reflexivity. Qed.

(** C10 (as amended): the float64 sum of the priorities, as numpy
    computes it, is truncated to an integer before it is compared with 1.
    Priorities whose float64 sum lies in [0, 1) are rejected, whatever
    their exact sum.  A float64 sum in [1, 2) passes this check, and the
    constructor returns a learner when the other checks pass as well: as
    many priorities as [parent_size], a non-negative [pop_size], and
    [c_1 + c_mu <= 1]. *)
Theorem init_truncates_priorities_sum (sqrtQ : Q -> Q) (float_sum : vec -> npfloat)
    (round64 : Q -> npfloat)
    (instance : instance_t) (pop_size parent_size : Z) (priorities : vec)
    (challenge_num repeat : nat) (unreliability precision : npfloat) (s : Q) :
  ndarray_sum float_sum priorities = Fin s ->
  ((0 <= s /\ s < 1)%Q ->
   is_ok (init sqrtQ float_sum round64 instance pop_size parent_size priorities challenge_num repeat
               unreliability precision) = false) /\
  ((1 <= s /\ s < 2)%Q ->
   Z.of_nat (length priorities) = parent_size ->
   (0 <= pop_size)%Z ->
   fleb (c_1_plus_c_mu round64 float_sum (S (inst_n instance)) priorities) 1%np = true ->
   is_ok (init sqrtQ float_sum round64 instance pop_size parent_size priorities challenge_num repeat
               unreliability precision) = true).
Proof.
  intros Hs. rewrite init_ok, Hs. split.
  - intros H. destruct (py_int (Fin s)) as [z|e] eqn:E.
    + destruct (Z.eqb_spec z 1) as [->|].
      * apply py_int_one in E. lra.
      * rewrite andb_false_r. reflexivity.
    + rewrite andb_false_r. reflexivity.
  - intros H Hlen Hpop Hc.
    apply py_int_one in H. apply Z.ltb_ge in Hpop. apply Z.eqb_eq in Hlen.
    rewrite H, Hpop, Hlen, Hc. reflexivity.
Qed.

Lemma init_truncates_priorities_sum_witness :
  is_ok (init sqrt_down exact_sum exact_round ex_medium_instance 30 7 ex_heavy_priorities
              256 5 (q 1 10) (q 9 10))
  = true.
Proof.
  refine (proj2 (@init_truncates_priorities_sum sqrt_down exact_sum exact_round
                   ex_medium_instance 30 7 ex_heavy_priorities 256 5 (q 1 10) (q 9 10)
                   (0 + (1 # 4) + (1 # 4) + (1 # 4) + (1 # 8) + (1 # 8) + (1 # 8) + (1 # 8))%Q
                   eq_refl) _ _ _ _).
  - split; vm_compute; [discriminate|reflexivity].
  - reflexivity.
  - lia.
  - vm_compute. reflexivity.
Defined.

(** C10 (the claim as stated fails): the seven priorities that sum to
    1.25, in [1, 2), exactly and in float64, are as many as
    [parent_size]; with challenge length 1 ([n = 2]) the constructor
    raises all the same, on [c_1 + c_mu <= 1]: [c_1 = 1/2] and
    [c_mu = 4 / 4 = 1], without any rounding. *)
Lemma init_rejects_sum_between_one_and_two :
  feqb (ndarray_sum exact_sum ex_heavy_priorities) (q 5 4) = true /\
  Z.of_nat (length ex_heavy_priorities) = 7%Z /\
  (forall sqrtQ : Q -> Q,
     init sqrtQ exact_sum exact_round ex_small_instance 30 7 ex_heavy_priorities 256 5
          (q 1 10) (q 9 10)
     = Raise AssertionError).
Proof.
  split; [vm_compute; reflexivity|]. split; [reflexivity|].
  intros sqrtQ. vm_compute. reflexivity.
Qed.

(** * The distribution update *)

Section Update.

Variable sqrtQ : Q -> Q.
Variable expQ : Q -> Q.
Variable linalg_eigh : mat -> result (vec * mat).
Variable linalg_inv : mat -> result mat.
Variable np_argsort : vec -> list nat.

Lemma bind_ok (A B : Type) (r : result A) (k : A -> result B) (b : B) :
  bind r k = Ok b -> exists a, r = Ok a /\ k a = Ok b.
Proof. destruct r as [a|e]; simpl; [eauto|discriminate]. Qed.

(** What a generation that does not converge did to reach its state. *)
Lemma generation_continue (st : self.t) (individuals : mat) (correlations : vec) (st' : self.t) :
  generation sqrtQ expQ linalg_eigh linalg_inv np_argsort st individuals correlations
  = Ok (Continue st') ->
  exists sorted_individuals parent cm_mu path_ss,
    sort_individuals np_argsort individuals correlations = Ok sorted_individuals /\
    get_parent sorted_individuals (Z.to_nat (self.parent_size st)) (self.priorities st)
    = Ok parent /\
    get_cm_mu sorted_individuals (Z.to_nat (self.parent_size st)) (self.priorities st)
    = Ok cm_mu /\
    cumulation_for_ss sqrtQ linalg_eigh linalg_inv (self.path_ss st) (self.c_sigma st)
                      (self.mu_w st) (self.cov_matrix st) parent = Ok path_ss /\
    st' = set_distribution st individuals
            (update_mean (self.mean st) (self.step_size st) parent)
            (cumulation_for_cm sqrtQ (self.path_cm st) (self.c_c st) (self.path_ss st)
                               (self.n st) (self.mu_w st) parent)
            path_ss
            (update_cm (self.cov_matrix st) (self.c_1 st) (self.c_mu st)
               (cumulation_for_cm sqrtQ (self.path_cm st) (self.c_c st) (self.path_ss st)
                                  (self.n st) (self.mu_w st) parent)
               cm_mu)
            (update_ss sqrtQ expQ (self.step_size st) (self.c_sigma st) (self.d_sigma st) path_ss).
Proof.
  unfold generation. intros H.
  apply bind_ok in H as [found [_ H]].
  apply bind_ok in H as [sorted [Hsort H]].
  destruct found as [new_LTF|]; [discriminate|].
  apply bind_ok in H as [parent [Hparent H]].
  apply bind_ok in H as [cm_mu [Hcm H]].
  apply bind_ok in H as [path_ss [Hss H]].
  injection H as <-.
  exists sorted, parent, cm_mu, path_ss. auto.
Qed.

End Update.

(** A generation goes on when no correlation exceeds the precision and
    the sort, the recombination and the eigen-decomposition succeed. *)
Lemma generation_goes_on
    (sqrtQ expQ : Q -> Q) (linalg_eigh : mat -> result (vec * mat))
    (linalg_inv : mat -> result mat) (np_argsort : vec -> list nat)
    (st : self.t) (individuals : mat) (correlations : vec)
    (sorted_individuals : mat) (parent : vec) (cm_mu : mat) (path_ss : vec) :
  scan_precision (self.precision st) individuals correlations 0 None = Ok None ->
  sort_individuals np_argsort individuals correlations = Ok sorted_individuals ->
  get_parent sorted_individuals (Z.to_nat (self.parent_size st)) (self.priorities st)
  = Ok parent ->
  get_cm_mu sorted_individuals (Z.to_nat (self.parent_size st)) (self.priorities st)
  = Ok cm_mu ->
  cumulation_for_ss sqrtQ linalg_eigh linalg_inv (self.path_ss st) (self.c_sigma st)
                    (self.mu_w st) (self.cov_matrix st) parent = Ok path_ss ->
  exists st',
    generation sqrtQ expQ linalg_eigh linalg_inv np_argsort st individuals correlations
    = Ok (Continue st').
Proof.
  intros Hscan Hsort Hparent Hcm Hss. unfold generation.
  rewrite Hscan, Hsort. step.
  rewrite Hparent, Hcm. step.
  rewrite Hss. step.
  eexists. reflexivity.
Qed.

(** C8: in every generation that goes on, the new [path_cm] is the old one
    times [1 - c_c], plus [sqrt(1 - (1 - c_c)^2) * sqrt(mu_w) * parent]
    exactly when the norm of [path_ss] is strictly below [1.5 * sqrt(n)],
    where [path_ss] is the path the generation started with: the new
    [path_ss] is computed afterwards, from the same old path.  A generation
    goes on whenever its steps succeed and no individual reaches the
    precision. *)
Theorem generation_path_cm_guard_reads_old_path_ss
    (sqrtQ expQ : Q -> Q) (linalg_eigh : mat -> result (vec * mat))
    (linalg_inv : mat -> result mat) (np_argsort : vec -> list nat)
    (st : self.t) (individuals : mat) (correlations : vec) :
  (forall st',
     generation sqrtQ expQ linalg_eigh linalg_inv np_argsort st individuals correlations
     = Ok (Continue st') ->
     exists sorted_individuals parent,
       sort_individuals np_argsort individuals correlations = Ok sorted_individuals /\
       get_parent sorted_individuals (Z.to_nat (self.parent_size st)) (self.priorities st)
       = Ok parent /\
       self.path_cm st'
       = (if fltb (linalg_norm sqrtQ (self.path_ss st))
                  (Fin (3 # 2) * np_sqrt sqrtQ (of_nat (self.n st)))%np
          then map2 fadd
                 (map (fun x => x * (1 - self.c_c st))%np (self.path_cm st))
                 (map (fmul (np_sqrt sqrtQ (1 - (1 - self.c_c st) * (1 - self.c_c st))
                             * np_sqrt sqrtQ (self.mu_w st))%np) parent)
          else map (fun x => x * (1 - self.c_c st))%np (self.path_cm st)) /\
       cumulation_for_ss sqrtQ linalg_eigh linalg_inv (self.path_ss st) (self.c_sigma st)
                         (self.mu_w st) (self.cov_matrix st) parent
       = Ok (self.path_ss st')) /\
  (forall sorted_individuals parent cm_mu path_ss,
     scan_precision (self.precision st) individuals correlations 0 None = Ok None ->
     sort_individuals np_argsort individuals correlations = Ok sorted_individuals ->
     get_parent sorted_individuals (Z.to_nat (self.parent_size st)) (self.priorities st)
     = Ok parent ->
     get_cm_mu sorted_individuals (Z.to_nat (self.parent_size st)) (self.priorities st)
     = Ok cm_mu ->
     cumulation_for_ss sqrtQ linalg_eigh linalg_inv (self.path_ss st) (self.c_sigma st)
                       (self.mu_w st) (self.cov_matrix st) parent = Ok path_ss ->
     exists st',
       generation sqrtQ expQ linalg_eigh linalg_inv np_argsort st individuals correlations
       = Ok (Continue st')).
Proof.
  split.
  - intros st' H.
    apply generation_continue in H
      as (sorted & parent & cm_mu & path_ss & Hs & Hp & _ & Hss & ->).
    exists sorted, parent.
    split; [assumption|]. split; [assumption|]. split; [|assumption].
    simpl. unfold cumulation_for_cm, vadd, vscale, vscale_r, sqr.
    destruct (fltb _ _); reflexivity.
  - intros sorted parent cm_mu path_ss. apply generation_goes_on.
Qed.

Lemma generation_path_cm_guard_reads_old_path_ss_witness :
  exists sorted_individuals parent,
    sort_individuals argsort_ascending ex_individuals ex_correlations = Ok sorted_individuals /\
    get_parent sorted_individuals (Z.to_nat (self.parent_size ex_learner))
               (self.priorities ex_learner) = Ok parent /\
    self.path_cm ex_next
    = (if fltb (linalg_norm sqrt_down (self.path_ss ex_learner))
               (Fin (3 # 2) * np_sqrt sqrt_down (of_nat (self.n ex_learner)))%np
       then map2 fadd
              (map (fun x => x * (1 - self.c_c ex_learner))%np (self.path_cm ex_learner))
              (map (fmul (np_sqrt sqrt_down
                            (1 - (1 - self.c_c ex_learner) * (1 - self.c_c ex_learner))
                          * np_sqrt sqrt_down (self.mu_w ex_learner))%np) parent)
       else map (fun x => x * (1 - self.c_c ex_learner))%np (self.path_cm ex_learner)) /\
    cumulation_for_ss sqrt_down eigh_diag inv_diag (self.path_ss ex_learner)
                      (self.c_sigma ex_learner) (self.mu_w ex_learner)
                      (self.cov_matrix ex_learner) parent
    = Ok (self.path_ss ex_next).
Proof.
  apply (proj1 (@generation_path_cm_guard_reads_old_path_ss sqrt_down exp_one eigh_diag inv_diag
                  argsort_ascending ex_learner ex_individuals ex_correlations) ex_next).
  vm_compute. reflexivity.
Defined.

(** * The step-size path and the eigen-decomposition *)

Section StepSizePath.

Variable sqrtQ : Q -> Q.
Variable linalg_eigh : mat -> result (vec * mat).
Variable linalg_inv : mat -> result mat.

Lemma nth_map_some (A B : Type) (f : A -> B) (l : list A) (i : nat) (y : A) (d : B) :
  nth_error l i = Some y -> nth i (map f l) d = f y.
Proof.
  intros H. apply nth_error_nth. apply map_nth_error. exact H.
Qed.

(** The diagonal entries of the matrix handed to [np.linalg.inv] are the
    square roots of the eigenvalues. *)
Lemma diagonal_entry (eigen_values : vec) (i : nat) (x : npfloat) :
  nth_error eigen_values i = Some x ->
  entry (map (map (np_sqrt sqrtQ)) (np_diag eigen_values)) i i = np_sqrt sqrtQ x.
Proof.
  intros Hx.
  assert (i < length eigen_values) as Hi.
  { apply nth_error_Some. congruence. }
  assert (nth_error (seq 0 (length eigen_values)) i = Some i) as Hseq.
  { rewrite nth_error_seq. destruct (Nat.ltb_spec i (length eigen_values)); [reflexivity|lia]. }
  unfold entry, np_diag.
  rewrite map_map.
  erewrite nth_map_some by exact Hseq.
  rewrite map_map.
  erewrite nth_map_some by exact Hseq.
  rewrite Nat.eqb_refl. f_equal. apply nth_error_nth. exact Hx.
Qed.

Lemma np_sqrt_negative (a : Q) : (a < 0)%Q -> np_sqrt sqrtQ (Fin a) = NaN.
Proof. intros H. unfold np_sqrt. apply Qltb_lt in H. rewrite H. reflexivity. Qed.

End StepSizePath.

(** C7 (as amended): [cumulation_for_ss] fails when [np.linalg.eigh] or
    [np.linalg.inv] raises, with their error, and at no other point: it
    does not test the eigenvalues.  With a negative eigenvalue the matrix
    handed to the inverse holds NaN at that place of the diagonal, and
    whenever the inverse returns, so does the update, for a path and a
    parent of the dimension [n] of the matrix (the eigenvectors and the
    inverse being [n] by [n], as numpy returns them). *)
Theorem cumulation_for_ss_fails_only_with_eigh_or_inv
    (sqrtQ : Q -> Q) (linalg_eigh : mat -> result (vec * mat)) (linalg_inv : mat -> result mat)
    (path_ss : vec) (c_sigma mu_w : npfloat) (cov_matrix : mat) (parent : vec) (n : nat) :
  (forall e, linalg_eigh cov_matrix = Raise e ->
     cumulation_for_ss sqrtQ linalg_eigh linalg_inv path_ss c_sigma mu_w cov_matrix parent
     = Raise e) /\
  (forall eigen_values eigen_vectors,
     linalg_eigh cov_matrix = Ok (eigen_values, eigen_vectors) ->
     let diagonal := map (map (np_sqrt sqrtQ)) (np_diag eigen_values) in
     (forall i a, nth_error eigen_values i = Some (Fin a) -> (a < 0)%Q ->
        entry diagonal i i = NaN) /\
     (forall e, linalg_inv diagonal = Raise e ->
        cumulation_for_ss sqrtQ linalg_eigh linalg_inv path_ss c_sigma mu_w cov_matrix parent
        = Raise e) /\
     (forall diagonal_inverse, linalg_inv diagonal = Ok diagonal_inverse ->
        length cov_matrix = n -> rows_of_length n cov_matrix ->
        length eigen_values = n ->
        length eigen_vectors = n -> rows_of_length n eigen_vectors ->
        length diagonal_inverse = n -> rows_of_length n diagonal_inverse ->
        length path_ss = n ->
        length parent = n ->
        exists new_path_ss,
          cumulation_for_ss sqrtQ linalg_eigh linalg_inv path_ss c_sigma mu_w cov_matrix parent
          = Ok new_path_ss /\
          length new_path_ss = n /\
          new_path_ss
          = vadd (vscale (1 - c_sigma)%np path_ss)
                 (matvec (mscale (np_sqrt sqrtQ (1 - sqr (1 - c_sigma)) * np_sqrt sqrtQ mu_w)%np
                                 (matmul (matmul eigen_vectors diagonal_inverse)
                                         (transpose eigen_vectors)))
                         parent))).
Proof.
  unfold cumulation_for_ss, modify_eigen_decomposition. split.
  - intros e ->. reflexivity.
  - intros vals vecs Heig. rewrite Heig. cbv beta iota zeta delta [bind fst snd].
    split; [|split].
    + intros i a Hi Ha. rewrite (@diagonal_entry sqrtQ _ _ _ Hi).
      apply np_sqrt_negative. exact Ha.
    + intros e Hinv. rewrite Hinv. reflexivity.
    + intros dinv Hinv _ _ _ Hvl _ _ _ Hp _. rewrite Hinv.
      eexists. split; [reflexivity|]. split; [|reflexivity].
      unfold vadd, vscale, matvec, mscale, matmul.
      rewrite map2_length, !length_map. lia.
Qed.

Lemma cumulation_for_ss_fails_only_with_eigh_or_inv_witness :
  exists new_path_ss,
    cumulation_for_ss sqrt_down eigh_diag inv_diag [0%np] 4%np 1%np [[Fin (-1)]] [1%np]
    = Ok new_path_ss /\
    length new_path_ss = 1 /\
    new_path_ss
    = vadd (vscale (1 - 4)%np [0%np])
           (matvec (mscale (np_sqrt sqrt_down (1 - sqr (1 - 4)) * np_sqrt sqrt_down 1)%np
                           (matmul (matmul [[1%np]] [[NaN]]) (transpose [[1%np]])))
                   [1%np]).
Proof.
  refine (proj2 (proj2 (proj2 (@cumulation_for_ss_fails_only_with_eigh_or_inv
            sqrt_down eigh_diag inv_diag [0%np] 4%np 1%np [[Fin (-1)]] [1%np] 1)
            [Fin (-1)] [[1%np]] eq_refl)) [[NaN]] _ _ _ _ _ _ _ _ _ _).
  - vm_compute. reflexivity.
  - reflexivity.
  - repeat constructor.
  - reflexivity.
  - reflexivity.
  - repeat constructor.
  - reflexivity.
  - repeat constructor.
  - reflexivity.
  - reflexivity.
Defined.

(** C7 (the claim as stated fails): the one-by-one matrix [(-1)] is not
    positive-definite, its eigenvalue is -1; the update raises nothing and
    returns the path [(nan)]. *)
Lemma cumulation_for_ss_returns_nan :
  eigh_diag [[Fin (-1)]] = Ok ([Fin (-1)], [[1%np]]) /\
  inv_diag [[NaN]] = Ok [[NaN]] /\
  (forall sqrtQ : Q -> Q,
     cumulation_for_ss sqrtQ eigh_diag inv_diag [0%np] 4%np 1%np [[Fin (-1)]] [1%np]
     = Ok [NaN]).
Proof.
  split; [reflexivity|]. split; [reflexivity|].
  intros sqrtQ. vm_compute. reflexivity.
Qed.

(** * Fitness *)


Lemma vmul_fin (a b : list Q) : vmul (map Fin a) (map Fin b) = map Fin (map2 Qmult a b).
Proof.
  unfold vmul.
  revert b; induction a as [|x a IH]; intros [|y b]; simpl; try reflexivity.
  rewrite IH. reflexivity.
Qed.

Lemma dot_fin (a b : list Q) :
  dot (map Fin a) (map Fin b) = Fin (fold_left Qplus (map2 Qmult a b) 0%Q).
Proof. unfold dot. rewrite vmul_fin. apply np_sum_fin. Qed.

Lemma center_fin (l : list Q) (m : Q) :
  map (fun a => a - Fin m)%np (map Fin l) = map Fin (map (fun a => a + - m)%Q l).
Proof. rewrite !map_map. reflexivity. Qed.

Lemma fdiv_fin (a b : Q) : ~ (b == 0)%Q -> (Fin a / Fin b)%np = Fin (a / b).
Proof.
  intros H. unfold fdiv. destruct (Qeq_bool b 0) eqn:E; [|reflexivity].
  apply Qeq_bool_iff in E. contradiction.
Qed.






Lemma inject_nat_pos (k : nat) : 1 <= k -> (0 < inject_Z (Z.of_nat k))%Q.
Proof. intros H. change 0%Q with (inject_Z 0). rewrite <- Zlt_Qlt. lia. Qed.

Section Fitness.

Variable sqrtQ : Q -> Q.
Hypothesis sqrtQ_pos : forall a : Q, (0 < a)%Q -> (0 < sqrtQ a)%Q.





End Fitness.

Lemma mapM_total (A B : Type) (g : A -> result B) (l : list A) :
  (forall a, In a l -> exists b, g a = Ok b) -> exists bs, mapM g l = Ok bs.
Proof.
  induction l as [|a l IH]; intros H; simpl.
  - exists []. reflexivity.
  - destruct (H a (or_introl eq_refl)) as [b Hb]. rewrite Hb. simpl.
    destruct IH as [bs Hbs]; [intros a' Ha'; apply H; right; exact Ha'|].
    rewrite Hbs. simpl. exists (b :: bs). reflexivity.
Qed.

Lemma mapM_nth (A B : Type) (g : A -> result B) (l : list A) :
  forall bs, mapM g l = Ok bs ->
    length bs = length l /\
    forall i a, nth_error l i = Some a -> exists b, nth_error bs i = Some b /\ g a = Ok b.
Proof.
  induction l as [|a l IH]; intros bs H; simpl in H.
  - injection H as <-. split; [reflexivity|]. intros [|i] a' Hi; discriminate.
  - destruct (g a) as [b|e] eqn:Hb; [|discriminate]. simpl in H.
    destruct (mapM g l) as [bs'|e] eqn:Hbs; [|discriminate]. simpl in H.
    injection H as <-. destruct (IH bs' eq_refl) as [Hlen Hnth].
    split; [simpl; congruence|].
    intros [|i] a' Hi; simpl in Hi.
    + injection Hi as <-. exists b. auto.
    + apply Hnth. exact Hi.
Qed.





Lemma corrcoef01_same_length (sqrtQ : Q -> Q) (x y : vec) :
  length x = length y -> exists f, corrcoef01 sqrtQ x y = Ok f.
Proof.
  intros H. unfold corrcoef01. rewrite H, Nat.eqb_refl. simpl negb. cbv iota.
  eexists. reflexivity.
Qed.





(** * The covariance update, entry by entry *)

Lemma nth_map2 (A B C : Type) (f : A -> B -> C) (a : list A) (b : list B) (i : nat)
    (da : A) (db : B) (dc : C) :
  i < length a -> i < length b ->
  nth i (map2 f a b) dc = f (nth i a da) (nth i b db).
Proof.
  revert b i; induction a as [|x a IH]; intros [|y b] [|i]; simpl; intros Ha Hb; try lia.
  - reflexivity.
  - apply IH; lia.
Qed.

Lemma nth_map_lt (A B : Type) (f : A -> B) (l : list A) (i : nat) (d : A) (d' : B) :
  i < length l -> nth i (map f l) d' = f (nth i l d).
Proof.
  intros H. rewrite (nth_indep (map f l) d' (f d)) by (rewrite length_map; exact H).
  apply map_nth.
Qed.

Lemma rows_of_length_nth (c : nat) (a : mat) (i : nat) :
  rows_of_length c a -> i < length a -> length (nth i a []) = c.
Proof.
  unfold rows_of_length. intros Ha Hi. rewrite Forall_forall in Ha.
  apply Ha. apply nth_In. exact Hi.
Qed.

Lemma entry_mscale (n : nat) (a : mat) (i j : nat) (c : npfloat) :
  rows_of_length n a -> i < length a -> j < n ->
  entry (mscale c a) i j = (c * entry a i j)%np.
Proof.
  intros Hr Hi Hj. unfold entry, mscale, vscale.
  rewrite (@nth_map_lt vec vec _ a i [] []) by exact Hi.
  apply nth_map_lt. rewrite (rows_of_length_nth Hr Hi). exact Hj.
Qed.

Lemma entry_madd (n : nat) (a b : mat) (i j : nat) :
  rows_of_length n a -> rows_of_length n b -> i < length a -> i < length b -> j < n ->
  entry (madd a b) i j = (entry a i j + entry b i j)%np.
Proof.
  intros Ha Hb Hia Hib Hj. unfold entry, madd, vadd.
  rewrite (@nth_map2 vec vec vec _ a b i [] [] []) by assumption.
  apply nth_map2.
  - rewrite (rows_of_length_nth Ha Hia). exact Hj.
  - rewrite (rows_of_length_nth Hb Hib). exact Hj.
Qed.

Lemma entry_madd_row (n : nat) (a : mat) (v : vec) (i j : nat) :
  rows_of_length n a -> i < length a -> j < n -> j < length v ->
  entry (madd_row a v) i j = (entry a i j + nth j v 0)%np.
Proof.
  intros Ha Hi Hj Hv. unfold entry, madd_row, vadd.
  rewrite (@nth_map_lt vec vec _ a i [] []) by exact Hi.
  apply nth_map2; [|exact Hv].
  rewrite (rows_of_length_nth Ha Hi). exact Hj.
Qed.

Lemma mscale_shape (n : nat) (a : mat) (c : npfloat) :
  rows_of_length n a -> rows_of_length n (mscale c a).
Proof.
  unfold mscale, vscale, rows_of_length. intros Ha.
  apply Forall_forall. intros row Hin. apply in_map_iff in Hin as [r [<- Hr]].
  rewrite length_map. rewrite Forall_forall in Ha. auto.
Qed.

Lemma madd_row_shape (n : nat) (a : mat) (v : vec) :
  rows_of_length n a -> length v = n -> rows_of_length n (madd_row a v).
Proof.
  unfold madd_row, vadd, rows_of_length. intros Ha Hv.
  apply Forall_forall. intros row Hin. apply in_map_iff in Hin as [r [<- Hr]].
  rewrite map2_length. rewrite Forall_forall in Ha.
  rewrite (Ha r Hr), Hv. apply Nat.min_id.
Qed.

Lemma madd_shape (n : nat) (a b : mat) :
  rows_of_length n a -> rows_of_length n b -> rows_of_length n (madd a b).
Proof.
  unfold madd, vadd, rows_of_length. intros Ha. revert b.
  induction Ha as [|r a Hr Ha IH]; intros [|r' b] Hb; simpl; try constructor.
  - rewrite map2_length. inversion Hb as [|? ? Hr' Hb']; subst.
    rewrite Hr'. apply Nat.min_id.
  - apply IH. inversion Hb; assumption.
Qed.

(** What [update_cm] computes: entry [(i, j)] of the result is
    [(1 - c_1 - c_mu) * C[i][j] + c_1 * p[j] * p[j] + c_mu * cm_mu[i][j]],
    with the square of the path's entry [j] in place of the product
    [p[i] * p[j]] of the outer product. *)
Lemma update_cm_entry (n : nat) (cov_matrix cm_mu : mat) (c_1 c_mu : npfloat) (path_cm : vec)
    (i j : nat) :
  length cov_matrix = n -> rows_of_length n cov_matrix ->
  length cm_mu = n -> rows_of_length n cm_mu ->
  length path_cm = n ->
  i < n -> j < n ->
  entry (update_cm cov_matrix c_1 c_mu path_cm cm_mu) i j
  = ((1 - c_1 - c_mu) * entry cov_matrix i j
     + c_1 * nth j path_cm 0 * nth j path_cm 0
     + c_mu * entry cm_mu i j)%np.
Proof.
  intros HC HCr HM HMr Hp Hi Hj. unfold update_cm.
  pose proof (@mscale_shape n cov_matrix (1 - c_1 - c_mu)%np HCr) as H1r.
  pose proof (@mscale_shape n cm_mu c_mu HMr) as H2r.
  assert (length (vmul (vscale c_1 path_cm) path_cm) = n) as Hv.
  { unfold vmul, vscale. rewrite map2_length, length_map, Hp. apply Nat.min_id. }
  pose proof (@madd_row_shape n _ _ H1r Hv) as H3r.
  rewrite (@entry_madd n);
    [|assumption|assumption
     |unfold madd_row, mscale; rewrite !length_map; lia
     |unfold mscale; rewrite length_map; lia|assumption].
  rewrite (@entry_madd_row n);
    [|assumption|unfold mscale; rewrite length_map; lia|assumption|lia].
  rewrite !(@entry_mscale n) by (assumption || lia).
  f_equal. f_equal. unfold vmul, vscale.
  rewrite (@nth_map2 _ _ _ _ _ _ j 0%np 0%np 0%np) by (rewrite ?length_map; lia).
  rewrite (@nth_map_lt _ _ _ path_cm j 0%np 0%np) by lia. reflexivity.
Qed.

Lemma update_cm_entry_witness :
  entry (update_cm ex_cov (q 1 2) (q 1 4) ex_path_cm ex_cm_mu) 1 0
  = ((1 - q 1 2 - q 1 4) * entry ex_cov 1 0
     + q 1 2 * nth 0 ex_path_cm 0 * nth 0 ex_path_cm 0
     + q 1 4 * entry ex_cm_mu 1 0)%np.
Proof.
  apply (@update_cm_entry 2 ex_cov ex_cm_mu (q 1 2) (q 1 4) ex_path_cm 1 0);
    try reflexivity; try lia; repeat constructor.
Defined.

(** * The rank-mu matrix *)

Lemma entry_col_times_row (x y : vec) (a b : nat) :
  a < length x -> b < length y ->
  entry (col_times_row x y) a b = (nth a x 0 * nth b y 0)%np.
Proof.
  intros Ha Hb. unfold entry, col_times_row.
  rewrite (@nth_map_lt npfloat vec _ x a 0%np []) by exact Ha.
  apply (@nth_map_lt npfloat npfloat _ y b 0%np 0%np). exact Hb.
Qed.

Lemma col_times_row_shape (n : nat) (x y : vec) :
  length y = n -> rows_of_length n (col_times_row x y).
Proof.
  intros Hy. unfold rows_of_length, col_times_row.
  apply Forall_forall. intros row Hin. apply in_map_iff in Hin as [r [<- _]].
  rewrite length_map. exact Hy.
Qed.

Lemma index_some (A : Type) (l : list A) (i : nat) (d : A) :
  i < length l -> index l i = Ok (nth i l d).
Proof.
  intros H. unfold index. rewrite (nth_error_nth' l d H). reflexivity.
Qed.

Lemma entry_np_zeros2 (r c a b : nat) : entry (np_zeros2 r c) a b = 0%np.
Proof.
  unfold entry, np_zeros2, np_zeros, vec.
  destruct (Nat.lt_ge_cases a r) as [Ha|Ha].
  - rewrite nth_repeat_lt by exact Ha. rewrite nth_repeat. reflexivity.
  - assert (nth a (repeat (repeat 0%np c) r) [] = []) as ->.
    { apply nth_overflow. rewrite repeat_length. exact Ha. }
    destruct b; reflexivity.
Qed.

Section RankMu.

Variable n : nat.
Variable sorted_individuals : mat.
Variable priorities : vec.
Hypothesis sorted_rows : rows_of_length n sorted_individuals.

Lemma get_cm_mu_loop_sum (count : nat) :
  forall (i : nat) (acc : mat),
    i + count <= length sorted_individuals ->
    i + count <= length priorities ->
    length acc = n ->
    rows_of_length n acc ->
    exists cm_mu,
      get_cm_mu_loop sorted_individuals priorities i count acc = Ok cm_mu /\
      length cm_mu = n /\
      rows_of_length n cm_mu /\
      forall a b, a < n -> b < n ->
        entry cm_mu a b
        = fold_left
            (fun s k =>
               (s + nth k priorities 0 * entry sorted_individuals k a
                    * entry sorted_individuals k b)%np)
            (seq i count) (entry acc a b).
Proof.
  induction count as [|count IH]; intros i acc Hs Hp Hlen Hrows.
  - exists acc. simpl. auto.
  - simpl get_cm_mu_loop.
    rewrite (@index_some _ priorities i 0%np) by lia.
    rewrite (@index_some _ sorted_individuals i []) by lia.
    step.
    set (p := nth i priorities 0%np). set (x := nth i sorted_individuals []).
    assert (length x = n) as Hx by (apply rows_of_length_nth; [assumption|lia]).
    assert (rows_of_length n (col_times_row (vscale p x) x)) as Hc
        by (apply col_times_row_shape; exact Hx).
    assert (length (col_times_row (vscale p x) x) = n) as Hcl.
    { unfold col_times_row, vscale. rewrite !length_map. exact Hx. }
    destruct (IH (S i) (madd acc (col_times_row (vscale p x) x))) as (cm & Hcm & Hl & Hr & He).
    + lia.
    + lia.
    + unfold madd. rewrite map2_length, Hlen, Hcl. apply Nat.min_id.
    + apply madd_shape; assumption.
    + exists cm. split; [exact Hcm|]. split; [exact Hl|]. split; [exact Hr|].
      intros a b Ha Hb. rewrite (He a b Ha Hb). simpl seq. simpl fold_left.
      f_equal. rewrite (@entry_madd n) by (assumption || lia).
      f_equal. rewrite entry_col_times_row by (unfold vscale; rewrite ?length_map; lia).
      unfold vscale. rewrite (@nth_map_lt npfloat npfloat _ x a 0%np 0%np) by lia.
      reflexivity.
Qed.

End RankMu.

(** [get_cm_mu] returns the priority-weighted sum of the outer products
    [individual outer-product individual] of the [parent_size] fittest
    individuals: a square matrix of the individuals' dimension whose entry
    [(a, b)] is the sum of [priorities[i] * x_i[a] * x_i[b]]. *)
Lemma get_cm_mu_weighted_outer_products (sorted_individuals : mat) (parent_size : nat)
    (priorities : vec) :
  rows_of_length (ncols sorted_individuals) sorted_individuals ->
  parent_size <= length sorted_individuals ->
  parent_size <= length priorities ->
  exists cm_mu,
    get_cm_mu sorted_individuals parent_size priorities = Ok cm_mu /\
    length cm_mu = ncols sorted_individuals /\
    rows_of_length (ncols sorted_individuals) cm_mu /\
    forall a b, a < ncols sorted_individuals -> b < ncols sorted_individuals ->
      entry cm_mu a b = weighted_outer_products sorted_individuals priorities parent_size a b.
Proof.
  intros Hrows Hs Hp. unfold get_cm_mu, weighted_outer_products.
  destruct (@get_cm_mu_loop_sum (ncols sorted_individuals) sorted_individuals priorities Hrows
              parent_size 0
              (np_zeros2 (ncols sorted_individuals) (ncols sorted_individuals)))
    as (cm & Hcm & Hl & Hr & He).
  - lia.
  - lia.
  - apply np_empty2_length.
  - apply np_empty2_rows.
  - exists cm. split; [exact Hcm|]. split; [exact Hl|]. split; [exact Hr|].
    intros a b Ha Hb. rewrite (He a b Ha Hb), entry_np_zeros2. reflexivity.
Qed.

Lemma get_cm_mu_weighted_outer_products_witness :
  exists cm_mu,
    get_cm_mu ex_sorted 1 [1%np] = Ok cm_mu /\
    length cm_mu = ncols ex_sorted /\
    rows_of_length (ncols ex_sorted) cm_mu /\
    forall a b, a < ncols ex_sorted -> b < ncols ex_sorted ->
      entry cm_mu a b = weighted_outer_products ex_sorted [1%np] 1 a b.
Proof.
  apply (@get_cm_mu_weighted_outer_products ex_sorted 1 [1%np]).
  - repeat constructor.
  - simpl. lia.
  - simpl. lia.
Defined.

(** * The recombination of the parents *)

Section Parent.

Variable n : nat.
Variable sorted_individuals : mat.
Variable priorities : vec.
Hypothesis sorted_rows : rows_of_length n sorted_individuals.

Lemma get_parent_loop_sum (count : nat) :
  forall (i : nat) (acc : vec),
    i + count <= length sorted_individuals ->
    i + count <= length priorities ->
    length acc = n ->
    exists parent,
      get_parent_loop sorted_individuals priorities i count acc = Ok parent /\
      length parent = n /\
      forall a, a < n ->
        nth a parent 0%np
        = fold_left (fun s k => (s + nth k priorities 0 * entry sorted_individuals k a)%np)
                    (seq i count) (nth a acc 0%np).
Proof.
  induction count as [|count IH]; intros i acc Hs Hp Hlen.
  - exists acc. simpl. auto.
  - simpl get_parent_loop.
    rewrite (@index_some _ priorities i 0%np) by lia.
    rewrite (@index_some _ sorted_individuals i []) by lia.
    step.
    set (p := nth i priorities 0%np). set (x := nth i sorted_individuals []).
    assert (length x = n) as Hx by (apply rows_of_length_nth; [assumption|lia]).
    destruct (IH (S i) (vadd acc (vscale p x))) as (parent & Hparent & Hl & He).
    + lia.
    + lia.
    + unfold vadd, vscale. rewrite map2_length, length_map, Hlen, Hx. apply Nat.min_id.
    + exists parent. split; [exact Hparent|]. split; [exact Hl|].
      intros a Ha. rewrite (He a Ha). simpl seq. simpl fold_left. f_equal.
      unfold vadd, vscale.
      rewrite (@nth_map2 _ _ _ _ _ _ a 0%np 0%np 0%np) by (rewrite ?length_map; lia).
      rewrite (@nth_map_lt npfloat npfloat _ x a 0%np 0%np) by lia. reflexivity.
Qed.

End Parent.

(** The loop of [get_parent] stops with an IndexError at the first index
    that is not a row of the individuals. *)
Lemma get_parent_loop_out_of_bounds (sorted_individuals : mat) (priorities : vec) (count : nat) :
  forall (i : nat) (acc : vec),
    i <= length sorted_individuals ->
    length sorted_individuals < i + count ->
    i + count <= length priorities ->
    get_parent_loop sorted_individuals priorities i count acc
    = Raise (IndexError_out_of_bounds (length sorted_individuals) (length sorted_individuals)).
Proof.
  induction count as [|count IH]; intros i acc Hi Hs Hp; [lia|].
  simpl get_parent_loop.
  rewrite (@index_some _ priorities i 0%np) by lia. step.
  destruct (Nat.eq_dec i (length sorted_individuals)) as [->|Hne].
  - unfold index. rewrite (proj2 (nth_error_None _ _)) by lia. reflexivity.
  - rewrite (@index_some _ sorted_individuals i []) by lia. step.
    apply IH; lia.
Qed.

(** With at least one parent, [get_parent] returns the priority-weighted
    sum of the [parent_size] fittest individuals: a vector of the
    individuals' dimension whose entry [a] is the sum of
    [priorities[i] * x_i[a]]. *)
Lemma get_parent_weighted_sum (sorted_individuals : mat) (parent_size : nat) (priorities : vec) :
  rows_of_length (ncols sorted_individuals) sorted_individuals ->
  1 <= parent_size ->
  parent_size <= length sorted_individuals ->
  parent_size <= length priorities ->
  exists parent,
    get_parent sorted_individuals parent_size priorities = Ok parent /\
    length parent = ncols sorted_individuals /\
    forall a, a < ncols sorted_individuals ->
      nth a parent 0%np = weighted_sum sorted_individuals priorities parent_size a.
Proof.
  intros Hrows _ Hs Hp. unfold get_parent, weighted_sum.
  destruct (@get_parent_loop_sum (ncols sorted_individuals) sorted_individuals priorities Hrows
              parent_size 0 (np_zeros (ncols sorted_individuals)))
    as (parent & Hparent & Hl & He).
  - lia.
  - lia.
  - apply repeat_length.
  - exists parent. split; [exact Hparent|]. split; [exact Hl|].
    intros a Ha. rewrite (He a Ha). unfold np_zeros. rewrite nth_repeat. reflexivity.
Qed.

Lemma get_parent_weighted_sum_witness :
  exists parent,
    get_parent ex_individuals 2 [q 3 4; q 1 4] = Ok parent /\
    length parent = ncols ex_individuals /\
    forall a, a < ncols ex_individuals ->
      nth a parent 0%np = weighted_sum ex_individuals [q 3 4; q 1 4] 2 a.
Proof.
  apply (@get_parent_weighted_sum ex_individuals 2 [q 3 4; q 1 4]).
  - repeat constructor.
  - lia.
  - simpl. lia.
  - simpl. lia.
Defined.

(** A generation that does not converge raises an IndexError when
    [parent_size] exceeds the number of individuals (and there are at
    least [parent_size] priorities): the recombination reads the row after
    the last individual. *)
Lemma generation_raises_with_too_many_parents
    (sqrtQ expQ : Q -> Q) (linalg_eigh : mat -> result (vec * mat))
    (linalg_inv : mat -> result mat) (np_argsort : vec -> list nat)
    (st : self.t) (individuals : mat) (correlations : vec) (sorted_individuals : mat) :
  scan_precision (self.precision st) individuals correlations 0 None = Ok None ->
  sort_individuals np_argsort individuals correlations = Ok sorted_individuals ->
  length sorted_individuals < Z.to_nat (self.parent_size st) ->
  Z.to_nat (self.parent_size st) <= length (self.priorities st) ->
  generation sqrtQ expQ linalg_eigh linalg_inv np_argsort st individuals correlations
  = Raise (IndexError_out_of_bounds (length sorted_individuals) (length sorted_individuals)).
Proof.
  intros Hscan Hsort Hlt Hp. unfold generation.
  rewrite Hscan, Hsort. step.
  unfold get_parent. rewrite get_parent_loop_out_of_bounds by lia. reflexivity.
Qed.

Lemma generation_raises_with_too_many_parents_witness :
  generation sqrt_down exp_one eigh_diag inv_diag argsort_ascending
             ex_short_learner ex_one_individual ex_one_correlation
  = Raise (IndexError_out_of_bounds 1 1).
Proof.
  apply (@generation_raises_with_too_many_parents sqrt_down exp_one eigh_diag inv_diag
           argsort_ascending ex_short_learner ex_one_individual ex_one_correlation
           ex_one_individual).
  - reflexivity.
  - reflexivity.
  - simpl. lia.
  - simpl. lia.
Defined.

(** * The end of the search and the ranking *)

Lemma scan_precision_spec (precision : npfloat) (individuals : mat) :
  forall (correlations : vec) (i : nat) (found : option vec),
    i + length correlations <= length individuals ->
    exists r,
      scan_precision precision individuals correlations i found = Ok r /\
      (((forall j, j < length correlations ->
           fgtb (nth j correlations 0%np) precision = false) /\ r = found) \/
       (exists j x,
           j < length correlations /\
           fgtb (nth j correlations 0%np) precision = true /\
           nth_error individuals (i + j) = Some x /\
           r = Some x /\
           forall j', j < j' -> j' < length correlations ->
             fgtb (nth j' correlations 0%np) precision = false)).
Proof.
  induction correlations as [|c rest IH]; intros i found Hlen.
  - exists found. split; [reflexivity|]. left. split; [|reflexivity].
    intros j Hj. simpl in Hj. lia.
  - simpl length in Hlen. simpl scan_precision.
    destruct (fgtb c precision) eqn:Hc.
    + rewrite (@index_some _ individuals i []) by lia. step.
      destruct (IH (S i) (Some (nth i individuals [])) ltac:(lia)) as (r & Hr & [[Hno ->]|Hyes]).
      * exists (Some (nth i individuals [])). split; [exact Hr|]. right.
        exists 0, (nth i individuals []).
        split; [simpl; lia|]. split; [exact Hc|].
        split; [rewrite Nat.add_0_r; apply nth_error_nth'; lia|].
        split; [reflexivity|].
        intros [|j'] Hlt Hj'; [lia|]. simpl. apply Hno. simpl in Hj'. lia.
      * destruct Hyes as (j & x & Hj & Habove & Hx & -> & Hlast).
        exists (Some x). split; [exact Hr|]. right.
        exists (S j), x. split; [simpl; lia|]. split; [exact Habove|].
        split; [rewrite <- Hx; f_equal; lia|]. split; [reflexivity|].
        intros [|j'] Hlt Hj'; [lia|]. simpl. apply Hlast; [lia|simpl in Hj'; lia].
    + destruct (IH (S i) found ltac:(lia)) as (r & Hr & [[Hno ->]|Hyes]).
      * exists found. split; [exact Hr|]. left. split; [|reflexivity].
        intros [|j] Hj; [exact Hc|]. simpl. apply Hno. simpl in Hj. lia.
      * destruct Hyes as (j & x & Hj & Habove & Hx & -> & Hlast).
        exists (Some x). split; [exact Hr|]. right.
        exists (S j), x. split; [simpl; lia|]. split; [exact Habove|].
        split; [rewrite <- Hx; f_equal; lia|]. split; [reflexivity|].
        intros [|j'] Hlt Hj'; [lia|]. simpl. apply Hlast; [lia|simpl in Hj'; lia].
Qed.

(** The scan of lines 86-89 ends the search with the last individual
    whose correlation exceeds the precision, whatever the correlations of
    the individuals before it; it finds none exactly when no correlation
    exceeds the precision. *)
Lemma scan_precision_returns_last (precision : npfloat) (individuals : mat) (correlations : vec) :
  length correlations <= length individuals ->
  exists r,
    scan_precision precision individuals correlations 0 None = Ok r /\
    (r = None ->
     forall j, j < length correlations -> fgtb (nth j correlations 0%np) precision = false) /\
    (forall x, r = Some x ->
     exists j,
       j < length correlations /\
       fgtb (nth j correlations 0%np) precision = true /\
       nth_error individuals j = Some x /\
       forall j', j < j' -> j' < length correlations ->
         fgtb (nth j' correlations 0%np) precision = false).
Proof.
  intros Hlen.
  destruct (@scan_precision_spec precision individuals correlations 0 None ltac:(lia))
    as (r & Hr & [[Hno ->]|(j & x & Hj & Habove & Hx & -> & Hlast)]).
  - exists None. split; [exact Hr|]. split; [intros _; exact Hno|]. intros x Hx. discriminate.
  - exists (Some x). split; [exact Hr|]. split; [discriminate|].
    intros x' [= <-]. exists j. auto.
Qed.

Lemma scan_precision_returns_last_witness :
  exists r,
    scan_precision (q 9 10) ex_three_individuals ex_three_correlations 0 None = Ok r /\
    (r = None ->
     forall j, j < length ex_three_correlations ->
       fgtb (nth j ex_three_correlations 0%np) (q 9 10) = false) /\
    (forall x, r = Some x ->
     exists j,
       j < length ex_three_correlations /\
       fgtb (nth j ex_three_correlations 0%np) (q 9 10) = true /\
       nth_error ex_three_individuals j = Some x /\
       forall j', j < j' -> j' < length ex_three_correlations ->
         fgtb (nth j' ex_three_correlations 0%np) (q 9 10) = false).
Proof.
  apply (@scan_precision_returns_last (q 9 10) ex_three_individuals ex_three_correlations).
  simpl. lia.
Defined.

Lemma mapM_index (A : Type) (xs : list A) (d : A) (l : list nat) :
  (forall i, In i l -> i < length xs) ->
  mapM (index xs) l = Ok (map (fun i => nth i xs d) l).
Proof.
  induction l as [|i l IH]; intros H; simpl; [reflexivity|].
  rewrite (@index_some _ xs i d) by (apply H; left; reflexivity). step.
  rewrite IH by (intros j Hj; apply H; right; exact Hj). reflexivity.
Qed.

Lemma map_nth_seq (A : Type) (xs : list A) (d : A) :
  map (fun i => nth i xs d) (seq 0 (length xs)) = xs.
Proof.
  apply (nth_ext _ _ d d).
  - rewrite length_map, length_seq. reflexivity.
  - intros k Hk. rewrite length_map, length_seq in Hk.
    rewrite (@nth_map_lt nat A _ (seq 0 (length xs)) k 0 d) by (rewrite length_seq; exact Hk).
    rewrite seq_nth by exact Hk. reflexivity.
Qed.

(** When [np.argsort] returns a permutation of the indices of the
    individuals, [sort_individuals] returns a permutation of the
    individuals, in the reverse of the order of [np.argsort]: its row [k]
    is the individual at the index that [np.argsort] puts at place
    [length - 1 - k]. *)
Lemma sort_individuals_permutation (np_argsort : vec -> list nat) (individuals : mat)
    (correlations : vec) :
  Permutation (np_argsort correlations) (seq 0 (length individuals)) ->
  exists sorted_individuals,
    sort_individuals np_argsort individuals correlations = Ok sorted_individuals /\
    Permutation sorted_individuals individuals /\
    length sorted_individuals = length individuals /\
    forall k, k < length individuals ->
      nth k sorted_individuals []
      = nth (nth (length individuals - 1 - k) (np_argsort correlations) 0) individuals [].
Proof.
  intros Hperm. unfold sort_individuals.
  assert (length (np_argsort correlations) = length individuals) as Hlen.
  { rewrite (Permutation_length Hperm). apply length_seq. }
  rewrite (@mapM_index _ individuals []).
  - eexists. split; [reflexivity|]. split; [|split].
    + apply perm_trans
        with (l' := map (fun i => nth i individuals []) (seq 0 (length individuals))).
      * apply Permutation_map. rewrite <- Hperm. symmetry. apply Permutation_rev.
      * rewrite (@map_nth_seq vec individuals []). apply Permutation_refl.
    + rewrite length_map, length_rev. exact Hlen.
    + intros k Hk.
      rewrite (@nth_map_lt nat vec _ (rev (np_argsort correlations)) k 0 [])
        by (rewrite length_rev; lia).
      rewrite rev_nth by lia. rewrite Hlen. f_equal. f_equal. lia.
  - intros i Hi. apply in_rev in Hi.
    apply (Permutation_in _ Hperm) in Hi. apply in_seq in Hi. lia.
Qed.

Lemma sort_individuals_permutation_witness :
  exists sorted_individuals,
    sort_individuals argsort_three ex_three_individuals ex_three_correlations
    = Ok sorted_individuals /\
    Permutation sorted_individuals ex_three_individuals /\
    length sorted_individuals = length ex_three_individuals /\
    forall k, k < length ex_three_individuals ->
      nth k sorted_individuals []
      = nth (nth (length ex_three_individuals - 1 - k) (argsort_three ex_three_correlations) 0)
            ex_three_individuals [].
Proof.
  apply (@sort_individuals_permutation argsort_three ex_three_individuals ex_three_correlations).
  simpl. apply perm_trans with (l' := [1; 0; 2]).
  - constructor. apply perm_swap.
  - apply perm_swap.
Defined.

(** * Predicted signatures and the fitness of a population *)

Lemma get_reliabilities_rows_equal (delay_diffs : mat) :
  forall (epsilons : vec) (i size : nat),
    length epsilons = length delay_diffs ->
    get_reliabilities_rows delay_diffs epsilons i size
    = Ok (map2 (fun row e => map (fun d => if fgtb (fabs d) (fabs e) then 1%np else 0%np) row)
               delay_diffs epsilons).
Proof.
  induction delay_diffs as [|row rest IH]; intros [|e es] i size Hlen; try discriminate.
  - reflexivity.
  - simpl. rewrite IH by (simpl in Hlen; lia). reflexivity.
Qed.

Lemma get_reliabilities_rows_out_of_bounds (delay_diffs : mat) :
  forall (epsilons : vec) (i size : nat),
    length delay_diffs < length epsilons ->
    get_reliabilities_rows delay_diffs epsilons i size
    = Raise (IndexError_out_of_bounds (i + length delay_diffs) size).
Proof.
  induction delay_diffs as [|row rest IH]; intros [|e es] i size Hlen;
    try (simpl in Hlen; lia).
  - simpl. rewrite Nat.add_0_r. reflexivity.
  - simpl. rewrite IH by (simpl in Hlen; lia). simpl. rewrite Nat.add_succ_r. reflexivity.
Qed.

(** With one threshold per individual, [get_reliabilities] returns a
    matrix of the shape of the delay differences whose entry [(i, j)] is 1
    when [|delay_diffs[i][j]| > |epsilons[i]|] and 0 otherwise; with more
    thresholds than rows of delay differences it raises an IndexError. *)
Lemma get_reliabilities_binary (delay_diffs : mat) (epsilons : vec) :
  (length epsilons = length delay_diffs ->
   exists reliabilities,
     get_reliabilities delay_diffs epsilons = Ok reliabilities /\
     length reliabilities = length delay_diffs /\
     forall i, i < length delay_diffs ->
       length (nth i reliabilities []) = length (nth i delay_diffs []) /\
       forall j, j < length (nth i delay_diffs []) ->
         entry reliabilities i j
         = (if fgtb (fabs (entry delay_diffs i j)) (fabs (nth i epsilons 0%np))
            then 1%np else 0%np)) /\
  (length delay_diffs < length epsilons ->
   get_reliabilities delay_diffs epsilons
   = Raise (IndexError_out_of_bounds (length delay_diffs) (length delay_diffs))).
Proof.
  unfold get_reliabilities. split.
  - intros Hlen. rewrite get_reliabilities_rows_equal by exact Hlen.
    eexists. split; [reflexivity|].
    split; [rewrite map2_length, Hlen; apply Nat.min_id|].
    intros i Hi. unfold entry.
    rewrite (@nth_map2 vec npfloat vec _ delay_diffs epsilons i [] 0%np []) by lia.
    split; [apply length_map|].
    intros j Hj.
    rewrite (@nth_map_lt npfloat npfloat _ (nth i delay_diffs []) j 0%np 0%np) by exact Hj.
    reflexivity.
  - intros Hlen. rewrite get_reliabilities_rows_out_of_bounds by exact Hlen. reflexivity.
Qed.

Lemma get_reliabilities_binary_witness :
  exists reliabilities,
    get_reliabilities ex_delay_diffs ex_epsilons = Ok reliabilities /\
    length reliabilities = length ex_delay_diffs /\
    forall i, i < length ex_delay_diffs ->
      length (nth i reliabilities []) = length (nth i ex_delay_diffs []) /\
      forall j, j < length (nth i ex_delay_diffs []) ->
        entry reliabilities i j
        = (if fgtb (fabs (entry ex_delay_diffs i j)) (fabs (nth i ex_epsilons 0%np))
           then 1%np else 0%np).
Proof.
  apply (proj1 (@get_reliabilities_binary ex_delay_diffs ex_epsilons)). reflexivity.
Defined.


Lemma clip1_value (x : npfloat) : correlation_value (clip1 x).
Proof.
  unfold correlation_value. destruct x as [z| | |].
  - right. unfold clip1, fltb.
    destruct (Qltb z (-1)) eqn:E1.
    + exists (-1)%Q. split; [reflexivity|lra].
    + destruct (Qltb 1 z) eqn:E2.
      * exists 1%Q. split; [reflexivity|lra].
      * exists z. apply Qltb_ge in E1, E2. split; [reflexivity|lra].
  - right. exists 1%Q. split; [reflexivity|lra].
  - right. exists (-1)%Q. split; [reflexivity|lra].
  - left. reflexivity.
Qed.

Lemma corrcoef01_value (sqrtQ : Q -> Q) (x y : vec) (f : npfloat) :
  corrcoef01 sqrtQ x y = Ok f -> correlation_value f.
Proof.
  unfold corrcoef01. destruct (negb (length x =? length y)); [discriminate|].
  intros [= <-]. apply clip1_value.
Qed.

Lemma get_delay_differences_loop_shape (LTFArray_val : LTFArray -> mat -> vec)
    (challenges : mat) (c : nat) (built : list LTFArray) :
  (forall l, length (LTFArray_val l challenges) = c) ->
  forall (i : nat) (delay_diffs : mat),
    rows_of_length c delay_diffs ->
    i + length built <= length delay_diffs ->
    exists filled,
      get_delay_differences_loop LTFArray_val built challenges i delay_diffs = Ok filled /\
      length filled = length delay_diffs /\
      rows_of_length c filled.
Proof.
  intros Hval. induction built as [|l rest IH]; intros i delay_diffs Hrows Hlen.
  - exists delay_diffs. simpl. auto.
  - simpl get_delay_differences_loop. simpl length in Hlen.
    rewrite (@set_row_in_bounds c) by (auto; lia). step.
    destruct (IH (S i) (replace_nth i (LTFArray_val l challenges) delay_diffs))
      as (filled & Hf & Hl & Hr).
    + apply replace_nth_rows; auto.
    + rewrite replace_nth_length. lia.
    + exists filled. split; [exact Hf|]. split; [|exact Hr].
      rewrite Hl. apply replace_nth_length.
Qed.

Lemma map2_rows (c : nat) (delay_diffs : mat) :
  forall (epsilons : vec),
    rows_of_length c delay_diffs ->
    rows_of_length c
      (map2 (fun row e => map (fun d => if fgtb (fabs d) (fabs e) then 1%np else 0%np) row)
            delay_diffs epsilons).
Proof.
  unfold rows_of_length. intros epsilons H. revert epsilons.
  induction H as [|row rest Hrow Hrest IH]; intros [|e es]; simpl; constructor.
  - rewrite length_map. exact Hrow.
  - apply IH.
Qed.

(** When every individual has at least one entry (its last entry is its
    threshold), [LTFArray.val] returns one delay difference per challenge
    and the measured signature has one entry per challenge, [fitness]
    returns one correlation per individual, and each of them is a number
    of [-1, 1] or NaN: never an infinity, never a number outside
    [-1, 1]. *)
Lemma fitness_one_value_per_individual (sqrtQ : Q -> Q)
    (LTFArray_val : LTFArray -> mat -> vec)
    (challenges : mat) (challenge_num : nat) (measured_rels : vec) (individuals : mat) :
  (forall row, In row individuals -> row <> []) ->
  (forall l, length (LTFArray_val l challenges) = challenge_num) ->
  length measured_rels = challenge_num ->
  exists correlations,
    fitness sqrtQ LTFArray_val challenges challenge_num measured_rels individuals
    = Ok correlations /\
    length correlations = length individuals /\
    Forall correlation_value correlations.
Proof.
  intros _ Hval Hm. unfold fitness, get_delay_differences.
  destruct (@get_delay_differences_loop_shape LTFArray_val challenges challenge_num
              (build_LTFArrays (map (@removelast npfloat) individuals)) Hval 0
              (np_empty2 (length individuals) challenge_num))
    as (dd & Hdd & Hl & Hr).
  { apply np_empty2_rows. }
  { unfold build_LTFArrays. rewrite !length_map, np_empty2_length. apply Nat.le_refl. }
  rewrite np_empty2_length in Hl.
  rewrite Hdd. step. unfold get_reliabilities.
  rewrite get_reliabilities_rows_equal by (rewrite length_map; symmetry; exact Hl). step.
  match goal with |- context [map2 ?f dd ?e] => set (rel := map2 f dd e) end.
  assert (rows_of_length challenge_num rel) as Hrel by (apply map2_rows; exact Hr).
  assert (length rel = length individuals) as Hrl.
  { unfold rel. rewrite map2_length, length_map. unfold mat, vec in *. rewrite Hl. apply Nat.min_id. }
  unfold get_correlations.
  destruct (@mapM_total _ _
              (fun row => if np_any row then corrcoef01 sqrtQ row measured_rels else Ok 0%np)
              rel) as [correlations Hc].
  { intros row Hin. destruct (np_any row).
    - apply corrcoef01_same_length. unfold rows_of_length in Hrel.
      rewrite Forall_forall in Hrel. rewrite (Hrel row Hin). symmetry. exact Hm.
    - exists 0%np. reflexivity. }
  exists correlations. split; [exact Hc|].
  destruct (mapM_nth _ _ Hc) as [Hcl Hnth].
  split; [unfold mat, vec in *; lia|].
  apply Forall_forall. intros f Hin.
  destruct (In_nth_error _ _ Hin) as [i Hi].
  assert (i < length rel) as Hlt.
  { assert (i < length correlations) as Hic by (apply nth_error_Some; congruence).
    unfold mat, vec in *. lia. }
  destruct (nth_error rel i) as [row|] eqn:Hrow;
    [|apply nth_error_None in Hrow; lia].
  destruct (Hnth i row Hrow) as (f' & Hf' & Hg).
  assert (f' = f) as -> by congruence.
  destruct (np_any row).
  - eapply corrcoef01_value. exact Hg.
  - injection Hg as <-. right. exists 0%Q. split; [reflexivity|lra].
Qed.

Lemma fitness_one_value_per_individual_witness :
  exists correlations,
    fitness sqrt_down val_sum ex_challenges 4 [q 1 5; q 3 5; 1%np; q 1 5] ex_three_individuals
    = Ok correlations /\
    length correlations = length ex_three_individuals /\
    Forall correlation_value correlations.
Proof.
  apply (@fitness_one_value_per_individual sqrt_down val_sum ex_challenges 4
           [q 1 5; q 3 5; 1%np; q 1 5] ex_three_individuals).
  - intros row Hrow. simpl in Hrow. destruct Hrow as [<-|[<-|[<-|[]]]]; discriminate.
  - intros l. reflexivity.
  - reflexivity.
Defined.

(** * Measured reliabilities *)

Lemma nth_replace_nth_eq (A : Type) (l : list A) (i : nat) (x d : A) :
  i < length l -> nth i (replace_nth i x l) d = x.
Proof.
  revert i; induction l as [|a l IH]; intros [|i] H; simpl in *; try lia; auto.
  apply IH. lia.
Qed.

Lemma nth_replace_nth_neq (A : Type) (l : list A) (i k : nat) (x d : A) :
  k <> i -> nth k (replace_nth i x l) d = nth k l d.
Proof.
  revert i k; induction l as [|a l IH]; intros [|i] [|k] H; simpl; try reflexivity; try lia.
  apply IH. lia.
Qed.

(** The loop of [measure_rels] fills the rows [i .. i + count - 1] with the
    answers of the instance and leaves the rows before them alone. *)
Lemma measure_rels_loop_fills (evals : nat -> vec) (c : nat) (count : nat) :
  forall (i : nat) (responses : mat),
    rows_of_length c responses ->
    i + count <= length responses ->
    (forall k, i <= k -> k < i + count -> length (evals k) = c) ->
    exists filled,
      measure_rels_loop evals i count responses = Ok filled /\
      length filled = length responses /\
      (forall k, i <= k -> k < i + count -> nth k filled [] = evals k) /\
      (forall k, k < i -> nth k filled [] = nth k responses []).
Proof.
  induction count as [|count IH]; intros i responses Hrows Hlen Hev.
  - exists responses. simpl. split; [reflexivity|]. split; [reflexivity|].
    split; [intros k H1 H2; lia|reflexivity].
  - simpl measure_rels_loop.
    rewrite (@set_row_in_bounds c) by (auto; try apply Hev; lia). step.
    destruct (IH (S i) (replace_nth i (evals i) responses))
      as (filled & Hf & Hl & Hnew & Hold).
    + apply replace_nth_rows; [exact Hrows|apply Hev; lia].
    + rewrite replace_nth_length. lia.
    + intros k H1 H2. apply Hev; lia.
    + exists filled. split; [exact Hf|].
      split; [rewrite Hl; apply replace_nth_length|]. split.
      * intros k H1 H2. destruct (Nat.eq_dec k i) as [->|Hne].
        -- rewrite Hold by lia. apply nth_replace_nth_eq. lia.
        -- apply Hnew; lia.
      * intros k Hk. rewrite Hold by lia. apply nth_replace_nth_neq. lia.
Qed.

Lemma measure_rels_loop_all (evals : nat -> vec) (c repeat : nat) :
  (forall k, k < repeat -> length (evals k) = c) ->
  measure_rels_loop evals 0 repeat (np_empty2 repeat c) = Ok (map evals (seq 0 repeat)).
Proof.
  intros Hev.
  destruct (@measure_rels_loop_fills evals c repeat 0 (np_empty2 repeat c))
    as (filled & Hf & Hl & Hnew & _).
  - apply np_empty2_rows.
  - rewrite np_empty2_length. lia.
  - intros k _ Hk. apply Hev. exact Hk.
  - rewrite Hf. f_equal. rewrite np_empty2_length in Hl.
    apply (nth_ext _ _ [] []).
    + rewrite length_map, length_seq. exact Hl.
    + intros k Hk. assert (k < repeat) as Hk' by (unfold mat, vec in *; lia).
      clear Hk. rename Hk' into Hk. rewrite Hnew by lia.
      rewrite (@nth_map_lt nat vec _ (seq 0 repeat) k 0 []) by (rewrite length_seq; exact Hk).
      rewrite seq_nth by exact Hk. reflexivity.
Qed.


Lemma vadd_bounded (b : Q) (acc : vec) :
  forall row : vec,
    bounded_by b acc ->
    forallb is_response row = true ->
    bounded_by (b + 1) (vadd acc row).
Proof.
  unfold bounded_by, vadd. intros row Hacc. revert row.
  induction Hacc as [|a acc Ha Hacc IH]; intros [|r row] Hrow; simpl; try constructor.
  - simpl in Hrow. apply andb_true_iff in Hrow as [Hr _].
    destruct Ha as (s & -> & Hs). destruct (is_response_value _ Hr) as [-> Vr].
    exists (s + value r)%Q. split; [reflexivity|].
    eapply Qle_trans; [apply Qabs_triangle|].
    assert (Qabs (value r) == 1)%Q as ->; [|lra].
    destruct Vr as [-> | ->]; reflexivity.
  - apply IH. simpl in Hrow. apply andb_true_iff in Hrow. tauto.
Qed.

Lemma bounded_by_weaken (b b' : Q) (v : vec) :
  (b <= b')%Q -> bounded_by b v -> bounded_by b' v.
Proof.
  unfold bounded_by. intros Hb Hv. eapply Forall_impl; [|exact Hv].
  intros a (s & -> & Hs). exists s. split; [reflexivity|lra].
Qed.

Lemma np_sum_axis0_bounded (c : nat) (rows : mat) :
  forall (acc : vec) (b : Q),
    bounded_by b acc ->
    length acc = c ->
    (forall row, In row rows -> length row = c /\ forallb is_response row = true) ->
    bounded_by (b + inject_Z (Z.of_nat (length rows))) (fold_left vadd rows acc) /\
    length (fold_left vadd rows acc) = c.
Proof.
  induction rows as [|row rows IH]; intros acc b Hacc Hlen Hrows.
  - simpl. split; [|exact Hlen].
    apply (@bounded_by_weaken b); [|exact Hacc]. simpl length.
    change (inject_Z 0) with 0%Q. lra.
  - simpl fold_left.
    destruct (Hrows row (or_introl eq_refl)) as [Hr Hresp].
    destruct (IH (vadd acc row) (b + 1)%Q) as [Hb Hl].
    + apply vadd_bounded; assumption.
    + unfold vadd. rewrite map2_length, Hlen, Hr. apply Nat.min_id.
    + intros row' Hin. apply Hrows. right. exact Hin.
    + split; [|exact Hl].
      apply (@bounded_by_weaken (b + 1 + inject_Z (Z.of_nat (length rows)))%Q); [|exact Hb].
      simpl length. rewrite Nat2Z.inj_succ, <- Z.add_1_r, inject_Z_plus.
      change (inject_Z 1) with 1%Q. lra.
Qed.

Lemma np_zeros_bounded (c : nat) : bounded_by 0 (np_zeros c).
Proof.
  unfold bounded_by, np_zeros. apply Forall_forall. intros a Ha.
  apply repeat_spec in Ha. subst. exists 0%Q. split; [reflexivity|]. apply Qle_refl.
Qed.

(** With at least one repetition and, at every repetition, one response
    (1 or -1) per challenge, [measure_rels] returns one reliability per
    challenge, each a number between 0 and 1.  With no repetition it
    returns NaN for every challenge. *)
Lemma measure_rels_unit_interval (evals : nat -> vec) (challenge_num repeat : nat) :
  (1 <= repeat ->
   (forall i, i < repeat ->
      length (evals i) = challenge_num /\ forallb is_response (evals i) = true) ->
   exists measured_rels,
     measure_rels evals challenge_num repeat = Ok measured_rels /\
     length measured_rels = challenge_num /\
     Forall unit_value measured_rels) /\
  (repeat = 0 ->
   measure_rels evals challenge_num repeat = Ok (List.repeat NaN challenge_num)).
Proof.
  split.
  - intros Hrep Hev. unfold measure_rels.
    rewrite (@measure_rels_loop_all evals challenge_num repeat)
      by (intros k Hk; apply Hev; exact Hk).
    step. eexists. split; [reflexivity|]. unfold np_sum_axis0.
    destruct (@np_sum_axis0_bounded challenge_num (map evals (seq 0 repeat))
                (np_zeros challenge_num) 0%Q) as [Hb Hl].
    + apply np_zeros_bounded.
    + apply repeat_length.
    + intros row Hin. apply in_map_iff in Hin as (i & <- & Hi).
      apply in_seq in Hi. apply Hev. lia.
    + rewrite length_map, length_seq in Hb.
      unfold vdiv, np_abs. rewrite !length_map. split; [exact Hl|].
      apply Forall_forall. intros r Hin.
      apply in_map_iff in Hin as (a & <- & Ha).
      apply in_map_iff in Ha as (a0 & <- & Ha0).
      unfold bounded_by in Hb. rewrite Forall_forall in Hb.
      destruct (Hb a0 Ha0) as (s & -> & Hs).
      assert (0 < inject_Z (Z.of_nat repeat))%Q as Hpos by (apply inject_nat_pos; exact Hrep).
      unfold of_nat, of_Z. simpl fabs. rewrite fdiv_fin by lra.
      exists (Qabs s / inject_Z (Z.of_nat repeat))%Q. split; [reflexivity|]. split.
      * apply Qle_shift_div_l; [exact Hpos|]. rewrite Qmult_0_l. apply Qabs_nonneg.
      * apply Qle_shift_div_r; [exact Hpos|]. lra.
  - intros ->. unfold measure_rels. simpl. f_equal.
    unfold np_sum_axis0, vdiv, np_abs, np_zeros. simpl fold_left.
    rewrite !map_map. induction challenge_num as [|c IH]; simpl; [reflexivity|].
    rewrite IH. reflexivity.
Qed.

Lemma measure_rels_unit_interval_witness :
  exists measured_rels,
    measure_rels ex_evals 3 5 = Ok measured_rels /\
    length measured_rels = 3 /\
    Forall unit_value measured_rels.
Proof.
  apply (proj1 (@measure_rels_unit_interval ex_evals 3 5)).
  - lia.
  - intros i Hi. unfold ex_evals. destruct (Nat.eqb i 1 || Nat.eqb i 3); split; reflexivity.
Defined.

(** ** An instance without noise *)

Lemma vadd_multiple (k : Q) (r : vec) :
  forall acc : vec,
    forallb is_response r = true ->
    Forall2 (fun a x => exists s : Q, a = Fin s /\ (s == k * value x)%Q) acc r ->
    Forall2 (fun a x => exists s : Q, a = Fin s /\ (s == (k + 1) * value x)%Q) (vadd acc r) r.
Proof.
  unfold vadd. intros acc Hr H. induction H as [|a x acc r (s & -> & Hs) Hrest IH]; simpl.
  - constructor.
  - simpl in Hr. apply andb_true_iff in Hr as [Hx Hr].
    apply is_response_finite in Hx. destruct x as [vx| | |]; try discriminate. constructor.
    + exists (s + vx)%Q. split; [reflexivity|]. rewrite Hs. simpl value. ring.
    + apply IH. exact Hr.
Qed.

Lemma fold_vadd_multiple (r : vec) (rows : mat) :
  forallb is_response r = true ->
  (forall row, In row rows -> row = r) ->
  forall (acc : vec) (k : Q),
    Forall2 (fun a x => exists s : Q, a = Fin s /\ (s == k * value x)%Q) acc r ->
    Forall2 (fun a x => exists s : Q,
                 a = Fin s /\ (s == (k + inject_Z (Z.of_nat (length rows))) * value x)%Q)
            (fold_left vadd rows acc) r.
Proof.
  intros Hr. induction rows as [|row rows IH]; intros Hrows acc k H.
  - simpl. eapply Forall2_impl; [|exact H].
    intros a x (s & -> & Hs). exists s. split; [reflexivity|]. rewrite Hs.
    change (inject_Z (Z.of_nat 0)) with 0%Q. ring.
  - simpl fold_left. rewrite (Hrows row (or_introl eq_refl)).
    assert (forall row', In row' rows -> row' = r) as Hrows'
        by (intros row' Hin; apply Hrows; right; exact Hin).
    pose proof (IH Hrows' (vadd acc r) (k + 1)%Q (vadd_multiple Hr H)) as H'.
    eapply Forall2_impl; [|exact H'].
    intros a x (s & -> & Hs). exists s. split; [reflexivity|]. rewrite Hs.
    simpl length. rewrite Nat2Z.inj_succ, <- Z.add_1_r, inject_Z_plus.
    change (inject_Z 1) with 1%Q. ring.
Qed.

Lemma zeros_multiple (r : vec) :
  Forall2 (fun a x => exists s : Q, a = Fin s /\ (s == 0 * value x)%Q) (np_zeros (length r)) r.
Proof.
  induction r as [|x r IH]; simpl; constructor; [|exact IH].
  exists 0%Q. split; [reflexivity|ring].
Qed.

Lemma ones_constant (v : vec) :
  Forall (fun r => exists c : Q, r = Fin c /\ (c == 1)%Q) v ->
  forallb finite v = true /\ constantb v = true.
Proof.
  intros H. split.
  - induction H as [|r v (c & -> & _) _ IH]; simpl; auto.
  - unfold constantb. destruct H as [|r v (c & -> & Hc) Hv]; [reflexivity|].
    simpl. rewrite Qeq_bool_refl. simpl.
    induction Hv as [|r' v' (c' & -> & Hc') _ IH]; simpl; [reflexivity|].
    rewrite IH, andb_true_r. apply Qeq_bool_iff. lra.
Qed.

Lemma vdiv_abs_ones (R D : Q) (total r : vec) :
  (0 < D)%Q -> (R == D)%Q ->
  forallb is_response r = true ->
  Forall2 (fun a x => exists s : Q, a = Fin s /\ (s == R * value x)%Q) total r ->
  Forall (fun x => exists c : Q, x = Fin c /\ (c == 1)%Q) (vdiv (np_abs total) (Fin D)) /\
  length (vdiv (np_abs total) (Fin D)) = length r.
Proof.
  intros HD HR Hr H. unfold vdiv, np_abs. rewrite !length_map.
  induction H as [|a x total r (s & -> & Hs) Hrest IH]; cbn [map fabs length].
  - split; [constructor|reflexivity].
  - simpl in Hr. apply andb_true_iff in Hr as [Hx Hr].
    destruct (IH Hr) as [IH1 IH2]. split; [|rewrite IH2; reflexivity].
    constructor; [|exact IH1].
    destruct (is_response_value _ Hx) as [_ Vx].
    rewrite fdiv_fin by lra.
    eexists. split; [reflexivity|].
    assert (Qabs s == D)%Q as ->.
    { rewrite Hs, Qabs_Qmult.
      assert (Qabs (value x) == 1)%Q as -> by (destruct Vx as [-> | ->]; reflexivity).
      rewrite Qabs_pos by lra. lra. }
    field. lra.
Qed.

Lemma measure_rels_steady (evals : nat -> vec) (challenge_num repeat : nat) (r : vec) :
  1 <= repeat ->
  length r = challenge_num ->
  forallb is_response r = true ->
  (forall i, i < repeat -> evals i = r) ->
  exists measured_rels,
    measure_rels evals challenge_num repeat = Ok measured_rels /\
    length measured_rels = challenge_num /\
    Forall (fun x => exists c : Q, x = Fin c /\ (c == 1)%Q) measured_rels /\
    forallb finite measured_rels = true /\
    constantb measured_rels = true.
Proof.
  intros Hrep Hlen Hr Hev. unfold measure_rels.
  rewrite (@measure_rels_loop_all evals challenge_num repeat)
    by (intros k Hk; rewrite (Hev k Hk); exact Hlen).
  step. eexists. split; [reflexivity|]. unfold np_sum_axis0.
  assert (forall row, In row (map evals (seq 0 repeat)) -> row = r) as Hrows.
  { intros row Hin. apply in_map_iff in Hin as (i & <- & Hi).
    apply in_seq in Hi. apply Hev. lia. }
  pose proof (@fold_vadd_multiple r (map evals (seq 0 repeat)) Hr Hrows
                (np_zeros (length r)) 0%Q (zeros_multiple r)) as H.
  rewrite length_map, length_seq in H. rewrite <- Hlen.
  assert (0 < inject_Z (Z.of_nat repeat))%Q as Hpos by (apply inject_nat_pos; exact Hrep).
  destruct (@vdiv_abs_ones (0 + inject_Z (Z.of_nat repeat))%Q (inject_Z (Z.of_nat repeat))
              _ r Hpos ltac:(ring) Hr H) as [Hones Hl].
  unfold of_nat, of_Z.
  split; [exact Hl|]. split; [exact Hones|]. apply ones_constant. exact Hones.
Qed.

(** When the instance gives the same answers (each 1 or -1) at every
    repetition, every measured reliability is 1: the measured signature is
    constant. *)
Lemma measure_rels_without_noise (evals : nat -> vec) (challenge_num repeat : nat) (r : vec) :
  1 <= repeat ->
  length r = challenge_num ->
  forallb is_response r = true ->
  (forall i, i < repeat -> evals i = r) ->
  exists measured_rels,
    measure_rels evals challenge_num repeat = Ok measured_rels /\
    length measured_rels = challenge_num /\
    Forall (fun x => exists c : Q, x = Fin c /\ (c == 1)%Q) measured_rels /\
    forallb finite measured_rels = true /\
    constantb measured_rels = true.
Proof.
  intros Hrep Hlen Hr Hev. apply (@measure_rels_steady evals challenge_num repeat r); assumption.
Qed.

Lemma measure_rels_without_noise_witness :
  exists measured_rels,
    measure_rels ex_steady_evals 3 5 = Ok measured_rels /\
    length measured_rels = 3 /\
    Forall (fun x => exists c : Q, x = Fin c /\ (c == 1)%Q) measured_rels /\
    forallb finite measured_rels = true /\
    constantb measured_rels = true.
Proof.
  apply (@measure_rels_without_noise ex_steady_evals 3 5 [1%np; Fin (-1); Fin (-1)]).
  - lia.
  - reflexivity.
  - reflexivity.
  - intros i Hi. reflexivity.
Defined.

(** * A measured signature without deviation *)

Lemma inf_of_sign_zero (z : Q) : (z == 0)%Q -> inf_of_sign z = NaN.
Proof.
  intros H. unfold inf_of_sign.
  assert (Qltb 0 z = false) as -> by (apply Qltb_ge; lra).
  assert (Qltb z 0 = false) as -> by (apply Qltb_ge; lra).
  reflexivity.
Qed.

Lemma fdiv_nan_r (t : npfloat) : (t / NaN)%np = NaN.
Proof. destruct t; reflexivity. Qed.

Lemma constantb_true (l : list Q) :
  constantb (map Fin l) = true -> exists h : Q, Forall (fun b => (b == h)%Q) l.
Proof.
  unfold constantb. destruct l as [|h l]; [exists 0%Q; constructor|].
  change (hd 0%np (map Fin (h :: l))) with (Fin h).
  intros H. exists h. apply Forall_forall. intros b Hb.
  rewrite forallb_forall in H.
  specialize (H (Fin b) (in_map Fin _ _ Hb)). simpl in H. apply Qeq_bool_iff. exact H.
Qed.

Lemma Qfold_const (l : list Q) (h : Q) :
  Forall (fun b => (b == h)%Q) l ->
  (fold_left Qplus l 0 == inject_Z (Z.of_nat (length l)) * h)%Q.
Proof.
  induction 1 as [|b l Hb Hl IH]; simpl fold_left.
  - simpl. ring.
  - cbv beta in Hb. rewrite Qfold_acc, IH. simpl length.
    setoid_replace (0 + b)%Q with h by (rewrite Hb; ring).
    rewrite Nat2Z.inj_succ, <- Z.add_1_r, inject_Z_plus. change (inject_Z 1) with 1%Q. ring.
Qed.

Lemma Qfold_zero (l : list Q) :
  Forall (fun b => (b == 0)%Q) l -> (fold_left Qplus l 0 == 0)%Q.
Proof. intros H. rewrite (Qfold_const H). ring. Qed.

Lemma map2_mult_zero_r (a b : list Q) :
  Forall (fun y => (y == 0)%Q) b -> Forall (fun y => (y == 0)%Q) (map2 Qmult a b).
Proof.
  intros H. revert a. induction H as [|y b Hy Hb IH]; intros [|x a]; simpl; constructor.
  - rewrite Hy. ring.
  - apply IH.
Qed.

(** The deviations of a constant signature from its mean are zero. *)
Lemma deviations_zero (l : list Q) :
  constantb (map Fin l) = true -> 1 <= length l ->
  Forall (fun y => (y == 0)%Q)
         (map (fun b => b + - (fold_left Qplus l 0 / inject_Z (Z.of_nat (length l))))%Q l).
Proof.
  intros Hc Hlen. destruct (constantb_true _ Hc) as [h Hh].
  pose proof (inject_nat_pos Hlen) as Hpos.
  assert (fold_left Qplus l 0 / inject_Z (Z.of_nat (length l)) == h)%Q as Hmean.
  { rewrite (Qfold_const Hh). field. lra. }
  apply Forall_forall. intros y Hy. apply in_map_iff in Hy as (b & <- & Hb).
  rewrite Forall_forall in Hh. rewrite (Hh b Hb), Hmean. ring.
Qed.

Section ConstantMeasured.

Variable sqrtQ : Q -> Q.

(** The quotient of the correlation coefficient when the covariance [W]
    and the second variance [V] are zero. *)
Lemma quotient_nan (W U V : Q) (R : npfloat) :
  (W == 0)%Q -> (V == 0)%Q ->
  R = PInf \/ (exists r : Q, R = Fin r) ->
  clip1 (Fin W * R / np_sqrt sqrtQ (Fin U * R) / np_sqrt sqrtQ (Fin V * R))%np = NaN.
Proof.
  intros HW HV [->|[r ->]].
  - simpl fmul. rewrite (inf_of_sign_zero HV). simpl np_sqrt. rewrite fdiv_nan_r. reflexivity.
  - simpl fmul.
    assert (np_sqrt sqrtQ (Fin (V * r)) = 0%np) as ->.
    { unfold np_sqrt.
      assert (Qltb (V * r) 0 = false) as -> by (apply Qltb_ge; rewrite HV; lra).
      assert (Qeq_bool (V * r) 0 = true) as -> by (apply Qeq_bool_iff; rewrite HV; ring).
      reflexivity. }
    assert (W * r == 0)%Q as Hw by (rewrite HW; ring).
    unfold np_sqrt. destruct (Qltb (U * r) 0); [reflexivity|].
    destruct (Qeq_bool (U * r) 0).
    + unfold fdiv at 2. simpl Qeq_bool. cbv iota. rewrite (inf_of_sign_zero Hw). reflexivity.
    + unfold fdiv at 2. destruct (Qeq_bool (sqrtQ (U * r)) 0).
      * rewrite (inf_of_sign_zero Hw). reflexivity.
      * unfold fdiv. simpl Qeq_bool. cbv iota.
        rewrite inf_of_sign_zero; [reflexivity|]. rewrite Hw. unfold Qdiv. ring.
Qed.

(** Against a constant measured signature the correlation coefficient of
    a finite signature is NaN, in exact arithmetic: the deviations from
    the mean are 0.  (float64 computes the mean of a signature of ones
    exactly; the statements below are about such a signature.) *)
Lemma corrcoef01_constant_measured (xs ys : list Q) :
  length xs = length ys ->
  constantb (map Fin ys) = true ->
  corrcoef01 sqrtQ (map Fin xs) (map Fin ys) = Ok NaN.
Proof.
  intros Hlen Hc. unfold corrcoef01.
  rewrite !length_map, Hlen, Nat.eqb_refl. cbv beta iota zeta delta [negb].
  destruct (Nat.eq_dec (length ys) 0) as [H0|Hn].
  - destruct ys; [|discriminate]. destruct xs; [|discriminate]. reflexivity.
  - assert (1 <= length ys) as H1 by lia.
    pose proof (inject_nat_pos H1) as HNq.
    rewrite !np_sum_fin.
    assert (fdiv (Fin (fold_left Qplus xs 0%Q)) (of_nat (length ys))
            = Fin (fold_left Qplus xs 0%Q / inject_Z (Z.of_nat (length ys)))) as ->.
    { unfold of_nat, of_Z. apply fdiv_fin. lra. }
    assert (fdiv (Fin (fold_left Qplus ys 0%Q)) (of_nat (length ys))
            = Fin (fold_left Qplus ys 0%Q / inject_Z (Z.of_nat (length ys)))) as ->.
    { unfold of_nat, of_Z. apply fdiv_fin. lra. }
    rewrite !center_fin, !dot_fin.
    pose proof (deviations_zero _ Hc H1) as Hdev.
    f_equal. apply quotient_nan.
    + apply Qfold_zero. apply map2_mult_zero_r. exact Hdev.
    + apply Qfold_zero. apply map2_mult_zero_r. exact Hdev.
    + destruct (Nat.leb_spec (length ys) 1) as [Hle|Hgt].
      * left. reflexivity.
      * right. unfold of_nat, of_Z. eexists. apply fdiv_fin.
        assert (0 < inject_Z (Z.of_nat (length ys - 1)))%Q by (apply inject_nat_pos; lia).
        lra.
Qed.

End ConstantMeasured.

(** When every measured reliability is 1 (what an instance without
    noise measures), the measured signature has no deviation from its
    mean, exactly and in float64: every fitness is NaN (a quotient 0/0)
    or 0, and no individual exceeds a non-negative precision, so that the
    generation does not end the search. *)
Lemma all_ones_measured_signature_never_converges (sqrtQ : Q -> Q)
    (reliabilities : mat) (measured_rels : vec) (p : Q) (individuals : mat) :
  Forall (fun x => exists c : Q, x = Fin c /\ (c == 1)%Q) measured_rels ->
  (forall row, In row reliabilities ->
     length row = length measured_rels /\ forallb finite row = true) ->
  (0 <= p)%Q ->
  length reliabilities <= length individuals ->
  exists correlations,
    get_correlations sqrtQ reliabilities measured_rels = Ok correlations /\
    Forall (fun f => f = NaN \/ f = 0%np) correlations /\
    scan_precision (Fin p) individuals correlations 0 None = Ok None.
Proof.
  intros Hones Hrows Hp Hlen. destruct (ones_constant Hones) as [Hfm Hcm].
  unfold get_correlations.
  destruct (@mapM_total _ _
              (fun row => if np_any row then corrcoef01 sqrtQ row measured_rels else Ok 0%np)
              reliabilities) as [correlations Hc].
  { intros row Hin. destruct (np_any row).
    - apply corrcoef01_same_length. apply Hrows. exact Hin.
    - exists 0%np. reflexivity. }
  exists correlations. split; [exact Hc|].
  destruct (mapM_nth _ _ Hc) as [Hcl Hnth].
  assert (Forall (fun f => f = NaN \/ f = 0%np) correlations) as Hvals.
  { apply Forall_forall. intros f Hin.
    destruct (In_nth_error _ _ Hin) as [i Hi].
    assert (i < length correlations) as Hic by (apply nth_error_Some; congruence).
    destruct (nth_error reliabilities i) as [row|] eqn:Hrow;
      [|apply nth_error_None in Hrow; unfold mat, vec in *; lia].
    destruct (Hnth i row Hrow) as (f' & Hf' & Hg).
    assert (f' = f) as -> by congruence.
    destruct (Hrows row (nth_error_In _ _ Hrow)) as [Hrl Hrf].
    destruct (np_any row).
    - left. rewrite (finite_vec _ Hrf), (finite_vec _ Hfm) in Hg.
      rewrite corrcoef01_constant_measured in Hg.
      + congruence.
      + rewrite !length_map. exact Hrl.
      + rewrite <- (finite_vec _ Hfm). exact Hcm.
    - right. congruence. }
  split; [exact Hvals|].
  destruct (@scan_precision_spec (Fin p) individuals correlations 0 None)
    as (r & Hr & [[_ ->]|(j & x & Hj & Habove & _)]).
  - unfold mat, vec in *. lia.
  - exact Hr.
  - exfalso. rewrite Forall_forall in Hvals.
    destruct (Hvals (nth j correlations 0%np) (nth_In _ _ Hj)) as [E|E];
      rewrite E in Habove; unfold fgtb, fltb in Habove; [discriminate|].
    apply Qltb_lt in Habove. lra.
Qed.

Lemma all_ones_measured_signature_never_converges_witness :
  exists correlations,
    get_correlations sqrt_down [[1%np; 0%np; 1%np]; [0%np; 0%np; 0%np]] [1%np; 1%np; 1%np]
    = Ok correlations /\
    Forall (fun f => f = NaN \/ f = 0%np) correlations /\
    scan_precision (Fin (9 # 10)) ex_individuals correlations 0 None = Ok None.
Proof.
  apply (@all_ones_measured_signature_never_converges sqrt_down
           [[1%np; 0%np; 1%np]; [0%np; 0%np; 0%np]] [1%np; 1%np; 1%np] (9 # 10)
           ex_individuals).
  - repeat constructor; exists 1%Q; split; reflexivity.
  - intros row Hin. simpl in Hin. destruct Hin as [<-|[<-|[]]]; split; reflexivity.
  - discriminate.
  - simpl. lia.
Defined.

(** * The search for one chain and the main loop *)

Lemma same_configuration_refl (st : self.t) : same_configuration st st.
Proof. unfold same_configuration. repeat split. Qed.

Lemma same_configuration_trans (a b c : self.t) :
  same_configuration a b -> same_configuration b c -> same_configuration a c.
Proof.
  unfold same_configuration. intros H1 H2.
  repeat match goal with H : _ /\ _ |- _ => destruct H end.
  repeat split; congruence.
Qed.

Lemma set_distribution_same_configuration (st : self.t) (individuals : mat) (mean : vec)
    (path_cm path_ss : vec) (cov_matrix : mat) (step_size : npfloat) :
  same_configuration st
    (set_distribution st individuals mean path_cm path_ss cov_matrix step_size).
Proof. unfold same_configuration. repeat split. Qed.

(** What the scan finds is a row of the population. *)
Lemma scan_precision_in (precision : npfloat) (individuals : mat) (correlations : vec) :
  forall (i : nat) (found : option vec) (x : vec),
    (forall y, found = Some y -> In y individuals) ->
    scan_precision precision individuals correlations i found = Ok (Some x) ->
    In x individuals.
Proof.
  induction correlations as [|c rest IH]; intros i found x Hfound H.
  - simpl in H. injection H as H. auto.
  - simpl scan_precision in H. destruct (fgtb c precision).
    + unfold index in H. destruct (nth_error individuals i) as [y|] eqn:Hy; [|discriminate].
      eapply IH; [|exact H].
      intros y' [= <-]. exact (nth_error_In _ _ Hy).
    + eapply IH; [exact Hfound|exact H].
Qed.

Section Learn.

Variable sqrtQ : Q -> Q.
Variable expQ : Q -> Q.
Variable linalg_eigh : mat -> result (vec * mat).
Variable linalg_inv : mat -> result mat.
Variable np_argsort : vec -> list nat.
Variable LTFArray_eval : LTFArray -> mat -> vec.
Variable LTFArray_val : LTFArray -> mat -> vec.

Lemma generation_converged (st : self.t) (individuals : mat) (correlations : vec) (x : vec) :
  generation sqrtQ expQ linalg_eigh linalg_inv np_argsort st individuals correlations
  = Ok (Converged x) ->
  In x individuals.
Proof.
  unfold generation. intros H.
  apply bind_ok in H as [found [Hscan H]].
  apply bind_ok in H as [sorted [_ H]].
  destruct found as [y|].
  - injection H as <-. eapply scan_precision_in; [|exact Hscan]. discriminate.
  - apply bind_ok in H as [parent [_ H]].
    apply bind_ok in H as [cm_mu [_ H]].
    apply bind_ok in H as [path_ss [_ H]]. discriminate.
Qed.

Lemma learn_LTF_spec (fuel : nat) :
  forall (st : self.t) (draws : nat -> draw) (x : nat) (new_LTF : vec) (st' : self.t),
    learn_LTF sqrtQ expQ linalg_eigh linalg_inv np_argsort LTFArray_val fuel st draws x
    = Ok (Some (new_LTF, st')) ->
    same_configuration st st' /\
    In new_LTF (self.individuals st') /\
    exists y, x <= y /\ y < x + fuel /\
      self.individuals st'
      = reproduce (self.mean st') (mutations (draws y)) (Z.to_nat (self.pop_size st'))
                  (self.step_size st').
Proof.
  induction fuel as [|fuel IH]; intros st draws x new_LTF st' H; [discriminate|].
  simpl learn_LTF in H.
  destruct (self.pop_size st <? 0)%Z; [discriminate|].
  apply bind_ok in H as [measured_rels [_ H]].
  apply bind_ok in H as [correlations [_ H]].
  apply bind_ok in H as [out [Hgen H]].
  destruct out as [found|next].
  - injection H as <- <-. split; [apply set_distribution_same_configuration|].
    split; [exact (generation_converged _ _ _ Hgen)|].
    exists x. split; [lia|]. split; [lia|]. reflexivity.
  - destruct (generation_continue _ _ _ _ _ _ _ _ Hgen) as (s & p & c & ps & _ & _ & _ & _ & Hnext).
    destruct (IH _ _ _ _ _ H) as (Hsame & Hin & y & Hy1 & Hy2 & Hpop).
    split.
    + apply (same_configuration_trans (b := next)); [|exact Hsame].
      rewrite Hnext. apply set_distribution_same_configuration.
    + split; [exact Hin|]. exists y. split; [lia|]. split; [lia|]. exact Hpop.
Qed.

Lemma learn_loop_stops (fuel search_fuel : nat) :
  forall (st : self.t) (draws : nat -> nat -> draw) (dedup_challenges : nat -> mat) (t : nat),
    1 <= self.num_of_LTFs st ->
    self.num_of_LTFs st < inst_k (self.instance st) ->
    returned (learn_loop sqrtQ expQ linalg_eigh linalg_inv np_argsort LTFArray_eval
                         LTFArray_val fuel search_fuel st draws dedup_challenges t) = false.
Proof.
  intros st draws dedup_challenges t H1 Hk. destruct fuel as [|fuel]; [reflexivity|].
  simpl learn_loop.
  destruct (Nat.ltb_spec (self.num_of_LTFs st) (inst_k (self.instance st))) as [_|Hge]; [|lia].
  destruct (learn_LTF sqrtQ expQ linalg_eigh linalg_inv np_argsort LTFArray_val search_fuel st
                      (draws t) 0) as [[[new_LTF st']|]|e] eqn:Hsearch; [|reflexivity|reflexivity].
  step.
  destruct (learn_LTF_spec _ _ _ _ Hsearch) as (Hsame & _).
  rewrite is_different_LTF_one_dimensional; [reflexivity|].
  unfold same_configuration in Hsame.
  repeat match goal with H : _ /\ _ |- _ => destruct H end. lia.
Qed.

End Learn.

(** [learn_LTF] returns a row of the population it leaves in
    [self.individuals]; that population is the one drawn around the mean
    the learner is left with; and the search assigns nothing but the
    population, the mean, the two paths, the covariance matrix and the
    step size. *)
Theorem learn_LTF_returns_row_of_last_population
    (sqrtQ expQ : Q -> Q) (linalg_eigh : mat -> result (vec * mat))
    (linalg_inv : mat -> result mat) (np_argsort : vec -> list nat)
    (LTFArray_val : LTFArray -> mat -> vec)
    (fuel : nat) (st : self.t) (draws : nat -> draw) (new_LTF : vec) (st' : self.t) :
  learn_LTF sqrtQ expQ linalg_eigh linalg_inv np_argsort LTFArray_val fuel st draws 0
  = Ok (Some (new_LTF, st')) ->
  same_configuration st st' /\
  In new_LTF (self.individuals st') /\
  exists y, y < fuel /\
    self.individuals st'
    = reproduce (self.mean st') (mutations (draws y)) (Z.to_nat (self.pop_size st'))
                (self.step_size st').
Proof.
  intros H.
  apply learn_LTF_spec in H. destruct H as (Hsame & Hin & y & _ & Hy & Hpop).
  split; [exact Hsame|]. split; [exact Hin|]. exists y. split; [lia|exact Hpop].
Qed.

Lemma learn_LTF_returns_row_of_last_population_witness :
  same_configuration ex_search_learner
    (set_individuals ex_search_learner [[1%np; 1%np; 1%np]]) /\
  In [1%np; 1%np; 1%np]
     (self.individuals (set_individuals ex_search_learner [[1%np; 1%np; 1%np]])) /\
  exists y, y < 3 /\
    self.individuals (set_individuals ex_search_learner [[1%np; 1%np; 1%np]])
    = reproduce (self.mean (set_individuals ex_search_learner [[1%np; 1%np; 1%np]]))
                (mutations (ex_draws y))
                (Z.to_nat (self.pop_size (set_individuals ex_search_learner [[1%np; 1%np; 1%np]])))
                (self.step_size (set_individuals ex_search_learner [[1%np; 1%np; 1%np]])).
Proof.
  apply (@learn_LTF_returns_row_of_last_population sqrt_down exp_one eigh_diag inv_diag
           argsort_ascending val_dot 3 ex_search_learner ex_draws [1%np; 1%np; 1%np]
           (set_individuals ex_search_learner [[1%np; 1%np; 1%np]])).
  vm_compute. reflexivity.
Defined.

(** With two or more chains to learn, [learn] never returns a model:
    after the first chain is stored, the next search either goes on, or
    raises, or its result stops the acceptance test at the slicing of a
    one-dimensional array. *)
Theorem learn_never_returns_two_chains
    (sqrtQ expQ : Q -> Q) (linalg_eigh : mat -> result (vec * mat))
    (linalg_inv : mat -> result mat) (np_argsort : vec -> list nat)
    (LTFArray_eval LTFArray_val : LTFArray -> mat -> vec)
    (fuel search_fuel : nat) (st : self.t) (draws : nat -> nat -> draw)
    (dedup_challenges : nat -> mat) (pole_responses : vec) (pole_challenges : mat) :
  2 <= inst_k (self.instance st) ->
  self.num_of_LTFs st < inst_k (self.instance st) ->
  returned (learn sqrtQ expQ linalg_eigh linalg_inv np_argsort LTFArray_eval LTFArray_val
                  fuel search_fuel st draws dedup_challenges pole_responses pole_challenges)
  = false.
Proof.
  intros H2 Hk.
  assert (returned (learn_loop sqrtQ expQ linalg_eigh linalg_inv np_argsort LTFArray_eval
                               LTFArray_val fuel search_fuel st draws dedup_challenges 0)
          = false) as Hloop.
  { destruct (Nat.eq_dec (self.num_of_LTFs st) 0) as [H0|Hn];
      [|apply learn_loop_stops; lia].
    destruct fuel as [|fuel]; [reflexivity|]. simpl learn_loop.
    destruct (Nat.ltb_spec (self.num_of_LTFs st) (inst_k (self.instance st))) as [_|Hge]; [|lia].
    destruct (learn_LTF sqrtQ expQ linalg_eigh linalg_inv np_argsort LTFArray_val search_fuel st
                        (draws 0) 0) as [[[new_LTF st']|]|e] eqn:Hsearch;
      [|reflexivity|reflexivity].
    step.
    apply learn_LTF_spec in Hsearch. destruct Hsearch as (Hsame & _).
    unfold same_configuration in Hsame.
    repeat match goal with H : _ /\ _ |- _ => destruct H end.
    assert (inst_k (self.instance st') = inst_k (self.instance st)) as Hinst by congruence.
    rewrite is_different_LTF_first by congruence. step.
    destruct (set_row (self.different_LTFs st') (self.num_of_LTFs st') new_LTF) as [rows|e];
      [|reflexivity].
    step. apply learn_loop_stops; simpl; lia. }
  unfold learn.
  destruct (learn_loop sqrtQ expQ linalg_eigh linalg_inv np_argsort LTFArray_eval LTFArray_val
                       fuel search_fuel st draws dedup_challenges 0) as [[st'|]|e];
    [discriminate|reflexivity|reflexivity].
Qed.

Lemma learn_never_returns_two_chains_witness :
  returned (learn sqrt_down exp_one eigh_diag inv_diag argsort_ascending eval_ones val_dot
                  4 3 ex_learner (fun _ => ex_draws) (fun _ => ex_challenges)
                  ex_target_responses ex_ten_challenges)
  = false.
Proof.
  apply (@learn_never_returns_two_chains sqrt_down exp_one eigh_diag inv_diag argsort_ascending
           eval_ones val_dot 4 3 ex_learner (fun _ => ex_draws) (fun _ => ex_challenges)
           ex_target_responses ex_ten_challenges).
  - simpl. lia.
  - simpl. lia.
Defined.

(** With one chain to learn, [learn] returns as soon as the first search
    has: the model's only chain is the chain found, negated when the sum
    of the absolute differences between the instance's and the chain's
    ten responses exceeds 10. *)
Theorem learn_one_chain_returns_found_chain
    (sqrtQ expQ : Q -> Q) (linalg_eigh : mat -> result (vec * mat))
    (linalg_inv : mat -> result mat) (np_argsort : vec -> list nat)
    (LTFArray_eval LTFArray_val : LTFArray -> mat -> vec)
    (fuel search_fuel : nat) (st st' : self.t) (draws : nat -> nat -> draw)
    (dedup_challenges : nat -> mat) (pole_responses : vec) (pole_challenges : mat)
    (row new_LTF : vec) :
  let learned := LTFArray_eval (mkLTFArray [new_LTF] transform_id None) pole_challenges in
  inst_k (self.instance st) = 1 ->
  self.num_of_LTFs st = 0 ->
  self.different_LTFs st = [row] ->
  length new_LTF = length row ->
  learn_LTF sqrtQ expQ linalg_eigh linalg_inv np_argsort LTFArray_val search_fuel st (draws 0) 0
  = Ok (Some (new_LTF, st')) ->
  length pole_responses = 10 ->
  length learned = 10 ->
  learn sqrtQ expQ linalg_eigh linalg_inv np_argsort LTFArray_eval LTFArray_val
        (S (S fuel)) search_fuel st draws dedup_challenges pole_responses pole_challenges
  = Ok (Some (mkLTFArray
                [if fgtb (np_sum (np_abs (vsub pole_responses learned))) (of_nat 10)
                 then map fopp new_LTF else new_LTF]
                transform_atf (Some false))).
Proof.
  intros learned Hk H0 Hrows Hlen Hsearch Hp Hl.
  pose proof Hsearch as Hspec. apply learn_LTF_spec in Hspec. destruct Hspec as (Hsame & _).
  unfold same_configuration in Hsame.
  repeat match goal with H : _ /\ _ |- _ => destruct H end.
  assert (self.num_of_LTFs st' = 0) as H0' by congruence.
  assert (self.different_LTFs st' = [row]) as Hrows' by congruence.
  assert (inst_k (self.instance st') = 1) as Hk' by congruence.
  unfold learn.
  change (learn_loop sqrtQ expQ linalg_eigh linalg_inv np_argsort LTFArray_eval LTFArray_val
                     (S (S fuel)) search_fuel st draws dedup_challenges 0)
    with (if self.num_of_LTFs st <? inst_k (self.instance st) then
            found <- learn_LTF sqrtQ expQ linalg_eigh linalg_inv np_argsort LTFArray_val
                               search_fuel st (draws 0) 0 ;;
            match found with
            | None => Ok None
            | Some (new_LTF, st) =>
                different <- is_different_LTF LTFArray_eval st (Arr1 new_LTF)
                                              (dedup_challenges 0) ;;
                if different : bool then
                  different_LTFs <- set_row (self.different_LTFs st) (self.num_of_LTFs st)
                                            new_LTF ;;
                  learn_loop sqrtQ expQ linalg_eigh linalg_inv np_argsort LTFArray_eval
                             LTFArray_val (S fuel) search_fuel
                             (set_learned st different_LTFs (self.num_of_LTFs st + 1))
                             draws dedup_challenges 1
                else learn_loop sqrtQ expQ linalg_eigh linalg_inv np_argsort LTFArray_eval
                                LTFArray_val (S fuel) search_fuel st draws dedup_challenges 1
            end
          else Ok (Some st)).
  rewrite H0, Hk, Hsearch. change (0 <? 1) with true. step.
  rewrite is_different_LTF_first by exact H0'. step.
  rewrite Hrows', H0'. unfold set_row. cbn [nth_error].
  rewrite Hlen, Nat.eqb_refl. step. cbn [replace_nth].
  cbn [learn_loop set_learned self.num_of_LTFs self.instance self.different_LTFs Nat.add].
  rewrite Hk'. change (1 <? 1) with false. cbv iota. step.
  change (self.different_LTFs (set_learned st' [new_LTF] 1)) with [new_LTF].
  unfold set_pole_of_LTFs.
  rewrite (set_row_in_bounds (c := 10)); [|apply np_empty2_rows|assumption|simpl; lia].
  step. fold learned.
  rewrite (set_row_in_bounds (c := 10));
    [|apply replace_nth_rows; [apply np_empty2_rows|assumption]|assumption|simpl; lia].
  step.
  change (nth 0 (replace_nth 1 learned (replace_nth 0 pole_responses (np_empty2 2 10))) [])
    with pole_responses.
  change (nth 1 (replace_nth 1 learned (replace_nth 0 pole_responses (np_empty2 2 10))) [])
    with learned.
  rewrite vscale_r_minus_one.
  destruct (fgtb (np_sum (np_abs (vsub pole_responses learned))) (of_nat 10)); reflexivity.
Qed.

Lemma learn_one_chain_returns_found_chain_witness :
  learn sqrt_down exp_one eigh_diag inv_diag argsort_ascending eval_ones val_dot
        2 3 ex_search_learner (fun _ => ex_draws) (fun _ => ex_challenges)
        ex_target_responses ex_ten_challenges
  = Ok (Some (mkLTFArray
                [if fgtb (np_sum (np_abs (vsub ex_target_responses
                                               (eval_ones (mkLTFArray [[1%np; 1%np; 1%np]]
                                                                      transform_id None)
                                                          ex_ten_challenges))))
                         (of_nat 10)
                 then map fopp [1%np; 1%np; 1%np] else [1%np; 1%np; 1%np]]
                transform_atf (Some false))).
Proof.
  apply (@learn_one_chain_returns_found_chain sqrt_down exp_one eigh_diag inv_diag
           argsort_ascending eval_ones val_dot 0 3 ex_search_learner
           (set_individuals ex_search_learner [[1%np; 1%np; 1%np]])
           (fun _ => ex_draws) (fun _ => ex_challenges) ex_target_responses ex_ten_challenges
           (np_zeros 3) [1%np; 1%np; 1%np]).
  - reflexivity.
  - reflexivity.
  - reflexivity.
  - reflexivity.
  - vm_compute. reflexivity.
  - reflexivity.
  - reflexivity.
Defined.

(** * The correlation test on responses *)

Lemma existsb_map (A B : Type) (f : B -> bool) (g : A -> B) (l : list A) :
  existsb f (map g l) = existsb (fun x => f (g x)) l.
Proof. induction l as [|a l IH]; simpl; [reflexivity|rewrite IH; reflexivity]. Qed.

Lemma existsb_ext_in (A : Type) (f g : A -> bool) (l : list A) :
  (forall x, In x l -> f x = g x) -> existsb f l = existsb g l.
Proof.
  induction l as [|a l IH]; intros H; simpl; [reflexivity|].
  rewrite (H a) by (left; reflexivity). rewrite IH; [reflexivity|].
  intros x Hx. apply H. right. exact Hx.
Qed.

(** The loop over the indices 1, 2, ... of the rows is a loop over the
    rows after the first. *)
Lemma existsb_rows_after_first (f : vec -> bool) (first : vec) (others : mat) :
  existsb (fun i => f (nth i (first :: others) [])) (seq 1 (length others))
  = existsb f others.
Proof.
  rewrite <- seq_shift, existsb_map. cbn [nth].
  rewrite <- (map_nth_seq others []) at 2. rewrite existsb_map. reflexivity.
Qed.

Lemma inject_nat_lt (a b : nat) :
  (inject_Z (Z.of_nat a) < inject_Z (Z.of_nat b))%Q <-> a < b.
Proof. rewrite <- Zlt_Qlt. lia. Qed.

Lemma inject_nat_le (a b : nat) :
  (inject_Z (Z.of_nat a) <= inject_Z (Z.of_nat b))%Q <-> a <= b.
Proof. rewrite <- Zle_Qle. lia. Qed.

(** The two comparisons of lines 231-233 on one pair of response rows. *)
Lemma correlated_pair (first r : vec) (N : nat) :
  forallb is_response first = true ->
  forallb is_response r = true ->
  fltb (np_sum (np_abs (vsub first r)) / 2)%np (Fin (1 # 4) * of_nat N)%np
  || fgtb (np_sum (np_abs (vsub first r)) / 2)%np (Fin (3 # 4) * of_nat N)%np
  = (4 * disagreements first r <? N) || (3 * N <? 4 * disagreements first r).
Proof.
  intros Hf Hr. destruct (sum_abs_diff_responses _ _ Hf Hr) as [d [Hd Heq]].
  rewrite Hd. unfold fgtb, of_nat, of_Z.
  change (Fin d / 2)%np with (Fin (d / 2)).
  cbn [fmul fltb].
  set (D := disagreements first r) in *. clearbody D.
  assert (d / 2 == inject_Z (Z.of_nat D))%Q as Hhalf by (rewrite Qhalf, Heq; ring).
  assert (forall a b : nat,
             inject_Z (Z.of_nat (a * b)) = (inject_Z (Z.of_nat a) * inject_Z (Z.of_nat b))%Q)
    as Hmul by (intros a b; rewrite Nat2Z.inj_mul, inject_Z_mult; reflexivity).
  f_equal.
  - destruct (Nat.ltb_spec (4 * D) N) as [H|H].
    + apply Qltb_lt. apply inject_nat_lt in H. rewrite Hmul in H. rewrite Hhalf.
      change (inject_Z (Z.of_nat 4)) with 4%Q in H.
      set (Dq := inject_Z (Z.of_nat D)) in *. set (Nq := inject_Z (Z.of_nat N)) in *.
      clearbody Dq Nq. lra.
    + apply Qltb_ge. apply inject_nat_le in H. rewrite Hmul in H. rewrite Hhalf.
      change (inject_Z (Z.of_nat 4)) with 4%Q in H.
      set (Dq := inject_Z (Z.of_nat D)) in *. set (Nq := inject_Z (Z.of_nat N)) in *.
      clearbody Dq Nq. lra.
  - destruct (Nat.ltb_spec (3 * N) (4 * D)) as [H|H].
    + apply Qltb_lt. apply inject_nat_lt in H. rewrite !Hmul in H. rewrite Hhalf.
      change (inject_Z (Z.of_nat 4)) with 4%Q in H.
      change (inject_Z (Z.of_nat 3)) with 3%Q in H.
      set (Dq := inject_Z (Z.of_nat D)) in *. set (Nq := inject_Z (Z.of_nat N)) in *.
      clearbody Dq Nq. lra.
    + apply Qltb_ge. apply inject_nat_le in H. rewrite !Hmul in H. rewrite Hhalf.
      change (inject_Z (Z.of_nat 4)) with 4%Q in H.
      change (inject_Z (Z.of_nat 3)) with 3%Q in H.
      set (Dq := inject_Z (Z.of_nat D)) in *. set (Nq := inject_Z (Z.of_nat N)) in *.
      clearbody Dq Nq. lra.
Qed.

(** [is_correlated] compares the first row with each later row, and no
    two later rows with each other: it reports a correlation exactly when
    some later row differs from the first in less than a quarter or in
    more than three quarters of the positions. *)
Lemma is_correlated_quarter_thresholds (first : vec) (others : mat) :
  forallb is_response first = true ->
  (forall r, In r others -> forallb is_response r = true) ->
  is_correlated (first :: others)
  = existsb (fun r => (4 * disagreements first r <? length first)
                      || (3 * length first <? 4 * disagreements first r))
            others.
Proof.
  intros Hf Hrows. unfold is_correlated.
  cbv zeta. cbn [length hd]. unfold ncols. cbn [hd].
  rewrite Nat.sub_succ, Nat.sub_0_r.
  rewrite (existsb_rows_after_first
             (fun r => fltb (np_sum (np_abs (vsub first r)) / 2)%np
                            (Fin (1 # 4) * of_nat (length first))%np
                       || fgtb (np_sum (np_abs (vsub first r)) / 2)%np
                               (Fin (3 # 4) * of_nat (length first))%np)).
  apply existsb_ext_in. intros r Hr. apply correlated_pair; [exact Hf|apply Hrows; exact Hr].
Qed.

Lemma is_correlated_quarter_thresholds_witness :
  is_correlated [[1%np; Fin (-1); 1%np; 1%np]; [1%np; 1%np; Fin (-1); 1%np];
                 [1%np; 1%np; Fin (-1); 1%np]]
  = existsb (fun r => (4 * disagreements [1%np; Fin (-1); 1%np; 1%np] r
                       <? length [1%np; Fin (-1); 1%np; 1%np])
                      || (3 * length [1%np; Fin (-1); 1%np; 1%np]
                          <? 4 * disagreements [1%np; Fin (-1); 1%np; 1%np] r))
            [[1%np; 1%np; Fin (-1); 1%np]; [1%np; 1%np; Fin (-1); 1%np]].
Proof.
  apply (@is_correlated_quarter_thresholds [1%np; Fin (-1); 1%np; 1%np]
           [[1%np; 1%np; Fin (-1); 1%np]; [1%np; 1%np; Fin (-1); 1%np]]).
  - reflexivity.
  - intros r Hr. simpl in Hr. destruct Hr as [<-|[<-|[]]]; reflexivity.
Defined.

(** * A step size that is NaN *)

Lemma fadd_nan_r (x : npfloat) : (x + NaN)%np = NaN.
Proof. destruct x; reflexivity. Qed.

Lemma fgtb_nan_r (x : npfloat) : fgtb x NaN = false.
Proof. destruct x; reflexivity. Qed.

Lemma mapM_in (A B : Type) (g : A -> result B) (l : list A) :
  forall bs, mapM g l = Ok bs -> forall b, In b bs -> exists a, In a l /\ g a = Ok b.
Proof.
  induction l as [|a l IH]; intros bs H b Hb; simpl in H.
  - injection H as <-. destruct Hb.
  - destruct (g a) as [b'|e] eqn:Hg; [|discriminate]. simpl in H.
    destruct (mapM g l) as [bs'|e] eqn:Hbs; [|discriminate]. simpl in H.
    injection H as <-. destruct Hb as [<-|Hb].
    + exists a. split; [left; reflexivity|exact Hg].
    + destruct (IH bs' eq_refl b Hb) as (a' & Ha' & Hga').
      exists a'. split; [right; exact Ha'|exact Hga'].
Qed.

Lemma vadd_vscale_nan (mean : vec) :
  forall row : vec, length row = length mean ->
    vadd mean (vscale NaN row) = repeat NaN (length mean).
Proof.
  unfold vadd, vscale.
  induction mean as [|m mean IH]; intros [|x row] Hrow; try discriminate; [reflexivity|].
  cbn [map map2 length repeat]. change (NaN * x)%np with NaN.
  rewrite fadd_nan_r. f_equal. apply IH. simpl in Hrow. lia.
Qed.

(** With a NaN step size every individual is NaN in every entry. *)
Lemma reproduce_nan (c : nat) (mean : vec) (mutations : mat) (pop_size : nat) :
  length mean = c ->
  rows_of_length c mutations ->
  Forall (fun row => row = repeat NaN c) (reproduce mean mutations pop_size NaN).
Proof.
  intros Hmean Hrows. unfold reproduce, np_tile, madd, mscale. cbv zeta.
  revert pop_size. induction Hrows as [|row rest Hrow Hrest IH]; intros [|pop_size];
    cbn [map map2 repeat]; try constructor.
  - rewrite vadd_vscale_nan by congruence. rewrite Hmean. reflexivity.
  - apply IH.
Qed.

Lemma last_repeat (A : Type) (x d : A) (c : nat) : last (repeat x (S c)) d = x.
Proof.
  induction c as [|c IH]; [reflexivity|].
  change (repeat x (S (S c))) with (x :: repeat x (S c)).
  cbn [last]. change (repeat x (S c)) with (x :: repeat x c) at 1. exact IH.
Qed.

(** Against NaN thresholds no challenge is predicted reliable. *)
Lemma get_reliabilities_rows_nan (delay_diffs : mat) :
  forall (epsilons : vec) (i size : nat) (reliabilities : mat),
    Forall (fun e => e = NaN) epsilons ->
    get_reliabilities_rows delay_diffs epsilons i size = Ok reliabilities ->
    Forall (fun row => np_any row = false) reliabilities.
Proof.
  assert (forall c, np_any (np_zeros c) = false) as Hzeros.
  { intros c. induction c as [|c IH]; [reflexivity|exact IH]. }
  induction delay_diffs as [|row rest IH]; intros epsilons i size reliabilities Heps H.
  - destruct epsilons; simpl in H; [|discriminate]. injection H as <-. constructor.
  - destruct epsilons as [|e es].
    + simpl in H. injection H as <-. apply Forall_forall. intros r Hr.
      change (In r (map (fun row => np_zeros (length row)) (row :: rest))) in Hr.
      apply in_map_iff in Hr as (r' & <- & _). apply Hzeros.
    + simpl in H. apply bind_ok in H as [rows [Hrows H]]. injection H as <-.
      inversion Heps as [|e' es' He Hes]; subst.
      constructor; [|eapply IH; [exact Hes|exact Hrows]].
      clear. induction row as [|d row IHr]; [reflexivity|].
      cbn [map]. change (fabs NaN) with NaN. rewrite fgtb_nan_r. exact IHr.
Qed.

Lemma get_correlations_no_reliable (sqrtQ : Q -> Q) (reliabilities : mat) (measured_rels : vec)
    (correlations : vec) :
  Forall (fun row => np_any row = false) reliabilities ->
  get_correlations sqrtQ reliabilities measured_rels = Ok correlations ->
  Forall (fun f => f = 0%np) correlations.
Proof.
  intros Hrel H. unfold get_correlations in H. apply Forall_forall. intros f Hf.
  destruct (mapM_in _ _ H f Hf) as (row & Hrow & Hg).
  rewrite Forall_forall in Hrel. rewrite (Hrel row Hrow) in Hg. congruence.
Qed.

(** A population of NaN has fitness 0 throughout. *)
Lemma fitness_nan_population (sqrtQ : Q -> Q) (LTFArray_val : LTFArray -> mat -> vec)
    (challenges : mat) (challenge_num : nat) (measured_rels : vec) (individuals : mat)
    (c : nat) (correlations : vec) :
  Forall (fun row => row = repeat NaN (S c)) individuals ->
  fitness sqrtQ LTFArray_val challenges challenge_num measured_rels individuals
  = Ok correlations ->
  Forall (fun f => f = 0%np) correlations.
Proof.
  intros Hnan H. unfold fitness in H.
  apply bind_ok in H as [delay_diffs [_ H]].
  apply bind_ok in H as [reliabilities [Hrel H]].
  eapply get_correlations_no_reliable; [|exact H].
  unfold get_reliabilities in Hrel.
  eapply get_reliabilities_rows_nan; [|exact Hrel].
  apply Forall_forall. intros e He. apply in_map_iff in He as (row & <- & Hrow).
  rewrite Forall_forall in Hnan. rewrite (Hnan row Hrow). apply last_repeat.
Qed.

Lemma scan_precision_none (precision : npfloat) (individuals : mat) (correlations : vec) :
  forall (i : nat) (found : option vec),
    Forall (fun f => fgtb f precision = false) correlations ->
    scan_precision precision individuals correlations i found = Ok found.
Proof.
  induction correlations as [|f rest IH]; intros i found H; [reflexivity|].
  inversion H as [|f' rest' Hf Hrest]; subst. simpl. rewrite Hf. apply IH. exact Hrest.
Qed.

Lemma get_parent_loop_length (c : nat) (sorted_individuals : mat) (priorities : vec)
    (count : nat) :
  forall (i : nat) (acc parent : vec),
    rows_of_length c sorted_individuals ->
    length acc = c ->
    get_parent_loop sorted_individuals priorities i count acc = Ok parent ->
    length parent = c.
Proof.
  induction count as [|count IH]; intros i acc parent Hrows Hacc H.
  - simpl in H. congruence.
  - simpl in H. apply bind_ok in H as [p [_ H]]. apply bind_ok in H as [x [Hx H]].
    eapply IH; [exact Hrows| |exact H].
    unfold index in Hx. destruct (nth_error sorted_individuals i) as [x'|] eqn:Hn; [|discriminate].
    injection Hx as ->. apply nth_error_In in Hn.
    unfold rows_of_length in Hrows. rewrite Forall_forall in Hrows.
    unfold vadd, vscale. rewrite map2_length, length_map, (Hrows x Hn). lia.
Qed.

(** The parent of a population whose rows have [c] entries has [c]
    entries, when there is at least one parent. *)
Lemma get_parent_length (c : nat) (sorted_individuals : mat) (parent_size : nat)
    (priorities parent : vec) :
  rows_of_length c sorted_individuals ->
  1 <= parent_size ->
  get_parent sorted_individuals parent_size priorities = Ok parent ->
  length parent = c.
Proof.
  intros Hrows H1 H. unfold get_parent in H.
  eapply get_parent_loop_length; [exact Hrows| |exact H].
  unfold np_zeros. rewrite repeat_length.
  destruct parent_size as [|count]; [lia|]. simpl in H.
  destruct sorted_individuals as [|first rest]; [|inversion Hrows; assumption].
  apply bind_ok in H as [p [_ H]]. apply bind_ok in H as [x [Hx _]]. discriminate.
Qed.

Section NaNStepSize.

Variable sqrtQ : Q -> Q.
Variable expQ : Q -> Q.
Variable linalg_eigh : mat -> result (vec * mat).
Variable linalg_inv : mat -> result mat.
Variable np_argsort : vec -> list nat.
Variable LTFArray_val : LTFArray -> mat -> vec.

Lemma learn_LTF_nan_step_size (c : nat) (p : Q) (draws : nat -> draw) (fuel : nat) :
  (0 <= p)%Q ->
  (forall y, rows_of_length (S c) (mutations (draws y))) ->
  forall (st : self.t) (x : nat),
    self.step_size st = NaN ->
    self.precision st = Fin p ->
    length (self.mean st) = S c ->
    (1 <= self.parent_size st)%Z ->
    returned (learn_LTF sqrtQ expQ linalg_eigh linalg_inv np_argsort LTFArray_val
                        fuel st draws x) = false.
Proof.
  intros Hp Hmut. induction fuel as [|fuel IH]; intros st x Hss Hprec Hmean Hparents;
    [reflexivity|].
  simpl learn_LTF. destruct (self.pop_size st <? 0)%Z; [reflexivity|].
  destruct (measure_rels (evals (draws x)) (self.challenge_num st) (self.repeat st))
    as [measured_rels|e]; [|reflexivity].
  step. rewrite Hss.
  pose proof (@reproduce_nan (S c) (self.mean st) (mutations (draws x))
                (Z.to_nat (self.pop_size st)) Hmean (Hmut x)) as Hnan.
  set (individuals := reproduce (self.mean st) (mutations (draws x))
                                (Z.to_nat (self.pop_size st)) NaN) in *.
  destruct (fitness sqrtQ LTFArray_val (challenges (draws x)) (self.challenge_num st)
                    measured_rels individuals) as [correlations|e] eqn:Hfit; [|reflexivity].
  step.
  assert (Forall (fun f => f = 0%np) correlations) as Hzero
    by (eapply fitness_nan_population; [exact Hnan|exact Hfit]).
  destruct (generation sqrtQ expQ linalg_eigh linalg_inv np_argsort st individuals correlations)
    as [[new_LTF|next]|e] eqn:Hgen; [|step|reflexivity].
  - exfalso. unfold generation in Hgen.
    rewrite scan_precision_none in Hgen.
    + step_in Hgen.
      repeat match type of Hgen with
             | match ?r with _ => _ end = _ => destruct r; try discriminate
             end.
    + rewrite Hprec. apply Forall_forall. intros f Hf.
      rewrite Forall_forall in Hzero. rewrite (Hzero f Hf).
      unfold fgtb, fltb. apply Qltb_ge. exact Hp.
  - pose proof Hgen as Hcont. apply generation_continue in Hcont.
    destruct Hcont as (sorted & parent & cm_mu & path_ss & Hsort & Hparent & _ & _ & Hnext).
    assert (length parent = S c) as Hpl.
    { eapply get_parent_length; [|idtac|exact Hparent]; [|lia].
      unfold sort_individuals in Hsort. apply Forall_forall. intros row Hrow.
      destruct (mapM_in _ _ Hsort row Hrow) as (i & _ & Hi).
      unfold index in Hi. destruct (nth_error individuals i) as [row'|] eqn:Hn; [|discriminate].
      injection Hi as ->. apply nth_error_In in Hn.
      rewrite Forall_forall in Hnan. rewrite (Hnan row Hn). apply repeat_length. }
    apply IH; rewrite Hnext.
    + cbn [self.step_size set_distribution]. unfold update_ss. rewrite Hss. reflexivity.
    + exact Hprec.
    + cbn [self.mean set_distribution]. unfold update_mean, vadd, vscale.
      rewrite map2_length, length_map. lia.
    + exact Hparents.
Qed.

End NaNStepSize.

(** Once the step size is NaN, the search for a chain never ends: every
    individual is NaN, so is its threshold, no challenge is predicted
    reliable, every fitness is 0, and the step size stays NaN. *)
Theorem learn_LTF_never_returns_with_nan_step_size
    (sqrtQ expQ : Q -> Q) (linalg_eigh : mat -> result (vec * mat))
    (linalg_inv : mat -> result mat) (np_argsort : vec -> list nat)
    (LTFArray_val : LTFArray -> mat -> vec)
    (fuel : nat) (st : self.t) (draws : nat -> draw) (p : Q) :
  self.step_size st = NaN ->
  self.precision st = Fin p ->
  (0 <= p)%Q ->
  length (self.mean st) = self.n st ->
  1 <= self.n st ->
  (1 <= self.parent_size st)%Z ->
  (forall y, rows_of_length (self.n st) (mutations (draws y))) ->
  returned (learn_LTF sqrtQ expQ linalg_eigh linalg_inv np_argsort LTFArray_val
                      fuel st draws 0) = false.
Proof.
  intros Hss Hprec Hp Hmean Hn Hparents Hmut.
  remember (self.n st) as k eqn:En. destruct k as [|c]; [lia|].
  eapply learn_LTF_nan_step_size; eassumption.
Qed.

Lemma learn_LTF_never_returns_with_nan_step_size_witness :
  returned (learn_LTF sqrt_down exp_one eigh_diag inv_diag argsort_ascending val_dot
                      5 ex_nan_learner ex_draws 0) = false.
Proof.
  apply (@learn_LTF_never_returns_with_nan_step_size sqrt_down exp_one eigh_diag inv_diag
           argsort_ascending val_dot 5 ex_nan_learner ex_draws (9 # 10)).
  - reflexivity.
  - reflexivity.
  - discriminate.
  - reflexivity.
  - simpl. lia.
  - simpl. lia.
  - intros y. repeat constructor.
Defined.

(** * The step size *)

Lemma fmul_nan_r (x : npfloat) : (x * NaN)%np = NaN.
Proof. destruct x; reflexivity. Qed.

Lemma fold_fadd_from_nan (l : vec) : fold_left fadd l NaN = NaN.
Proof. induction l as [|x l IH]; [reflexivity|exact IH]. Qed.

Lemma np_sum_nan (l : vec) : In NaN l -> forall a, fold_left fadd l a = NaN.
Proof.
  induction l as [|x l IH]; intros Hin a; [destruct Hin|].
  cbn [fold_left]. destruct Hin as [->|Hin].
  - rewrite fadd_nan_r. apply fold_fadd_from_nan.
  - apply IH. exact Hin.
Qed.

Lemma dot_nan (v : vec) : In NaN v -> dot v v = NaN.
Proof.
  intros Hin. unfold dot, np_sum. apply np_sum_nan.
  unfold vmul. induction v as [|x v IH]; [destruct Hin|].
  cbn [map2]. destruct Hin as [->|Hin]; [left; reflexivity|right; apply IH; exact Hin].
Qed.

Lemma update_ss_nan (sqrtQ expQ : Q -> Q)
    (step_size c_sigma d_sigma : npfloat) (path_ss : vec) :
  step_size = NaN \/ In NaN path_ss ->
  update_ss sqrtQ expQ step_size c_sigma d_sigma path_ss = NaN.
Proof.
  intros [->|Hin]; unfold update_ss; cbv zeta; [reflexivity|].
  unfold linalg_norm. rewrite (dot_nan _ Hin).
  change (np_sqrt sqrtQ NaN) with NaN.
  change (NaN / np_sqrt sqrtQ (of_nat (length path_ss)))%np with NaN.
  change (NaN - 1)%np with NaN.
  rewrite fmul_nan_r. change (np_exp expQ NaN) with NaN. apply fmul_nan_r.
Qed.

(** A step size that is NaN stays NaN, and a NaN in the step-size path
    makes the step size NaN, whatever the other arguments. *)
Theorem update_ss_nan_is_absorbing (sqrtQ expQ : Q -> Q)
    (step_size c_sigma d_sigma : npfloat) (path_ss : vec) :
  step_size = NaN \/ In NaN path_ss ->
  update_ss sqrtQ expQ step_size c_sigma d_sigma path_ss = NaN.
Proof. intros H. apply update_ss_nan. exact H. Qed.

Lemma update_ss_nan_is_absorbing_witness :
  update_ss sqrt_down exp_one 1%np (q 4 3) 2%np [0%np; NaN; 1%np] = NaN.
Proof.
  apply (@update_ss_nan_is_absorbing sqrt_down exp_one 1%np (q 4 3) 2%np [0%np; NaN; 1%np]).
  right. right. left. reflexivity.
Defined.

Lemma np_exp_not_negative (expQ : Q -> Q) (x : npfloat) :
  (forall a : Q, (0 <= expQ a)%Q) -> fltb (np_exp expQ x) 0%np = false.
Proof.
  intros Hexp. destruct x as [a| | |]; try reflexivity.
  apply Qltb_ge. apply Hexp.
Qed.

Lemma fmul_not_negative (x y : npfloat) :
  fltb x 0%np = false -> fltb y 0%np = false -> fltb (x * y)%np 0%np = false.
Proof.
  assert (forall a : Q, (0 <= a)%Q -> fltb (inf_of_sign a) 0%np = false) as Hinf.
  { intros a Ha. unfold inf_of_sign. destruct (Qltb 0 a); [reflexivity|].
    assert (Qltb a 0 = false) as -> by (apply Qltb_ge; exact Ha). reflexivity. }
  destruct x as [a| | |], y as [b| | |]; cbn [fmul fltb]; intros Hx Hy;
    try reflexivity; try discriminate.
  - apply Qltb_ge in Hx, Hy. apply Qltb_ge. apply Qmult_le_0_compat; assumption.
  - apply Hinf. apply Qltb_ge. exact Hx.
  - apply Hinf. apply Qltb_ge. exact Hy.
Qed.

(** The step size never becomes negative: from a step size that is not
    negative (a number that is at least 0, inf or NaN), [update_ss]
    returns a step size that is not negative, since it multiplies by an
    exponential and [np.exp] is never negative.  The new step size can be
    0, inf or NaN. *)
Theorem update_ss_never_negative (sqrtQ expQ : Q -> Q)
    (step_size c_sigma d_sigma : npfloat) (path_ss : vec) :
  (forall a : Q, (0 <= expQ a)%Q) ->
  fltb step_size 0%np = false ->
  fltb (update_ss sqrtQ expQ step_size c_sigma d_sigma path_ss) 0%np = false.
Proof.
  intros Hexp Hs. unfold update_ss. cbv zeta.
  apply fmul_not_negative; [exact Hs|]. apply np_exp_not_negative. exact Hexp.
Qed.

Lemma update_ss_never_negative_witness :
  fltb (update_ss sqrt_down exp_one 1%np (q 4 3) 2%np [0%np; 1%np; q 1 2]) 0%np = false.
Proof.
  apply (@update_ss_never_negative sqrt_down exp_one 1%np (q 4 3) 2%np [0%np; 1%np; q 1 2]).
  - intros a. discriminate.
  - reflexivity.
Defined.

(** With a NaN in the step-size path the comparison of line 127 is
    false: the covariance path only decays and the parent is ignored. *)
Theorem cumulation_for_cm_ignores_parent_on_nan (sqrtQ : Q -> Q) (path_cm : vec)
    (c_c : npfloat) (path_ss : vec) (n : nat) (mu_w : npfloat) (parent : vec) :
  In NaN path_ss ->
  cumulation_for_cm sqrtQ path_cm c_c path_ss n mu_w parent = vscale_r path_cm (1 - c_c)%np.
Proof.
  intros Hin. unfold cumulation_for_cm, linalg_norm. cbv zeta.
  rewrite (dot_nan _ Hin). reflexivity.
Qed.

Lemma cumulation_for_cm_ignores_parent_on_nan_witness :
  cumulation_for_cm sqrt_down [1%np; 0%np] (q 1 2) [NaN; 0%np] 2 1%np [1%np; 1%np]
  = vscale_r [1%np; 0%np] (1 - q 1 2)%np.
Proof.
  apply (@cumulation_for_cm_ignores_parent_on_nan sqrt_down [1%np; 0%np] (q 1 2) [NaN; 0%np]
           2 1%np [1%np; 1%np]).
  left. reflexivity.
Defined.

(** A generation that goes on and leaves a NaN in the step-size path
    leaves a NaN step size: the step size is updated from the new path. *)
Theorem generation_nan_path_gives_nan_step_size
    (sqrtQ expQ : Q -> Q) (linalg_eigh : mat -> result (vec * mat))
    (linalg_inv : mat -> result mat) (np_argsort : vec -> list nat)
    (st st' : self.t) (individuals : mat) (correlations : vec) :
  generation sqrtQ expQ linalg_eigh linalg_inv np_argsort st individuals correlations
  = Ok (Continue st') ->
  In NaN (self.path_ss st') ->
  self.step_size st' = NaN.
Proof.
  intros Hgen Hin. apply generation_continue in Hgen.
  destruct Hgen as (sorted & parent & cm_mu & path_ss & _ & _ & _ & _ & ->).
  cbn [self.step_size self.path_ss set_distribution] in *.
  apply update_ss_nan. right. exact Hin.
Qed.

Lemma generation_nan_path_gives_nan_step_size_witness :
  self.step_size ex_indefinite_next = NaN.
Proof.
  apply (@generation_nan_path_gives_nan_step_size sqrt_down exp_one eigh_diag inv_diag
           argsort_ascending ex_indefinite_learner ex_indefinite_next ex_individuals
           ex_correlations).
  - vm_compute. reflexivity.
  - vm_compute. left. reflexivity.
Defined.

(** * The population and the move of the mean *)

(** [reproduce] returns [pop_size] individuals of the mean's dimension:
    entry [(i, j)] is [mean[j] + step_size * mutations[i, j]]. *)
Theorem reproduce_entry (c : nat) (mean : vec) (mutations : mat) (pop_size : nat)
    (step_size : npfloat) :
  length mean = c ->
  rows_of_length c mutations ->
  length mutations = pop_size ->
  length (reproduce mean mutations pop_size step_size) = pop_size /\
  rows_of_length c (reproduce mean mutations pop_size step_size) /\
  forall i j, i < pop_size -> j < c ->
    entry (reproduce mean mutations pop_size step_size) i j
    = (nth j mean 0 + step_size * entry mutations i j)%np.
Proof.
  intros Hmean Hrows Hlen. unfold reproduce. cbv zeta.
  assert (rows_of_length c (np_tile mean pop_size)) as Htile.
  { unfold np_tile. apply Forall_forall. intros row Hrow.
    apply repeat_spec in Hrow. congruence. }
  assert (length (np_tile mean pop_size) = pop_size) as Htl by apply repeat_length.
  assert (length (mscale step_size mutations) = pop_size) as Hml
    by (unfold mscale; rewrite length_map; exact Hlen).
  split; [|split].
  - unfold madd. unfold mat, vec in *. rewrite map2_length, Htl, Hml. apply Nat.min_id.
  - apply madd_shape; [exact Htile|apply mscale_shape; exact Hrows].
  - intros i j Hi Hj.
    rewrite (@entry_madd c) by
        (try exact Htile; try (apply mscale_shape; exact Hrows); unfold mat, vec in *; lia).
    rewrite (@entry_mscale c) by (try exact Hrows; unfold mat, vec in *; lia).
    f_equal. unfold entry, np_tile.
    rewrite (nth_indep _ [] mean) by (rewrite repeat_length; exact Hi).
    rewrite nth_repeat. reflexivity.
Qed.

Lemma reproduce_entry_witness :
  length (reproduce [1%np; q 1 2] [[1%np; 0%np]; [Fin (-1); 2%np]] 2 (q 1 2)) = 2 /\
  rows_of_length 2 (reproduce [1%np; q 1 2] [[1%np; 0%np]; [Fin (-1); 2%np]] 2 (q 1 2)) /\
  forall i j, i < 2 -> j < 2 ->
    entry (reproduce [1%np; q 1 2] [[1%np; 0%np]; [Fin (-1); 2%np]] 2 (q 1 2)) i j
    = (nth j [1%np; q 1 2] 0 + q 1 2 * entry [[1%np; 0%np]; [Fin (-1); 2%np]] i j)%np.
Proof.
  apply (@reproduce_entry 2 [1%np; q 1 2] [[1%np; 0%np]; [Fin (-1); 2%np]] 2 (q 1 2)).
  - reflexivity.
  - repeat constructor.
  - reflexivity.
Defined.

(** A recombination that returns has read [count] priorities and
    [count] individuals. *)
Lemma get_parent_loop_bounds (sorted_individuals : mat) (priorities : vec) (count : nat) :
  forall (i : nat) (acc parent : vec),
    get_parent_loop sorted_individuals priorities i count acc = Ok parent ->
    1 <= count ->
    i + count <= length sorted_individuals /\ i + count <= length priorities.
Proof.
  induction count as [|count IH]; intros i acc parent H H1; [lia|].
  simpl in H. apply bind_ok in H as [p [Hp H]]. apply bind_ok in H as [x [Hx H]].
  unfold index in Hp, Hx.
  destruct (nth_error priorities i) eqn:Ep; [|discriminate].
  destruct (nth_error sorted_individuals i) eqn:Ex; [|discriminate].
  assert (i < length priorities) by (apply nth_error_Some; congruence).
  assert (i < length sorted_individuals) by (apply nth_error_Some; congruence).
  destruct count as [|count]; [lia|].
  apply IH in H; lia.
Qed.

(** A generation that goes on moves the mean by the step size times the
    priority-weighted sum of the [parent_size] fittest individuals
    themselves, not of their distances to the mean. *)
Theorem generation_moves_mean_by_weighted_sum
    (sqrtQ expQ : Q -> Q) (linalg_eigh : mat -> result (vec * mat))
    (linalg_inv : mat -> result mat) (np_argsort : vec -> list nat)
    (st st' : self.t) (individuals : mat) (correlations : vec) (c : nat) :
  generation sqrtQ expQ linalg_eigh linalg_inv np_argsort st individuals correlations
  = Ok (Continue st') ->
  (1 <= self.parent_size st)%Z ->
  rows_of_length c individuals ->
  length (self.mean st) = c ->
  exists sorted_individuals,
    sort_individuals np_argsort individuals correlations = Ok sorted_individuals /\
    length (self.mean st') = c /\
    forall a, a < c ->
      nth a (self.mean st') 0%np
      = (nth a (self.mean st) 0
         + self.step_size st
           * weighted_sum sorted_individuals (self.priorities st)
                          (Z.to_nat (self.parent_size st)) a)%np.
Proof.
  intros Hgen Hparents Hrows Hmean.
  apply generation_continue in Hgen.
  destruct Hgen as (sorted & parent & cm_mu & path_ss & Hsort & Hparent & _ & _ & ->).
  exists sorted. split; [exact Hsort|].
  assert (rows_of_length c sorted) as Hsrows.
  { unfold sort_individuals in Hsort. apply Forall_forall. intros row Hrow.
    destruct (mapM_in _ _ Hsort row Hrow) as (i & _ & Hi).
    unfold index in Hi. destruct (nth_error individuals i) as [row'|] eqn:Hn; [|discriminate].
    injection Hi as ->. apply nth_error_In in Hn.
    unfold rows_of_length in Hrows. rewrite Forall_forall in Hrows. auto. }
  set (parent_size := Z.to_nat (self.parent_size st)) in *.
  assert (1 <= parent_size) as H1 by (unfold parent_size; lia).
  unfold get_parent in Hparent.
  destruct (get_parent_loop_bounds _ _ _ _ Hparent H1) as [Hbs Hbp].
  assert (ncols sorted = c) as Hcols.
  { unfold ncols. destruct sorted as [|first rest]; [simpl in Hbs; lia|].
    inversion Hsrows; assumption. }
  rewrite Hcols in Hparent.
  destruct (@get_parent_loop_sum c sorted (self.priorities st) Hsrows parent_size 0 (np_zeros c))
    as (parent' & Hparent' & Hl & He).
  - lia.
  - lia.
  - apply repeat_length.
  - assert (parent' = parent) as -> by congruence.
    cbn [self.mean set_distribution]. unfold update_mean, vadd, vscale. split.
    + rewrite map2_length, length_map. lia.
    + intros a Ha.
      rewrite (@nth_map2 _ _ _ _ _ _ a 0%np 0%np 0%np) by (rewrite ?length_map; lia).
      rewrite (@nth_map_lt npfloat npfloat _ parent a 0%np 0%np) by lia.
      rewrite (He a Ha). unfold weighted_sum, np_zeros. rewrite nth_repeat. reflexivity.
Qed.

Lemma generation_moves_mean_by_weighted_sum_witness :
  exists sorted_individuals,
    sort_individuals argsort_ascending ex_individuals ex_correlations = Ok sorted_individuals /\
    length (self.mean ex_next) = 3 /\
    forall a, a < 3 ->
      nth a (self.mean ex_next) 0%np
      = (nth a (self.mean ex_learner) 0
         + self.step_size ex_learner
           * weighted_sum sorted_individuals (self.priorities ex_learner)
                          (Z.to_nat (self.parent_size ex_learner)) a)%np.
Proof.
  apply (@generation_moves_mean_by_weighted_sum sqrt_down exp_one eigh_diag inv_diag
           argsort_ascending ex_learner ex_next ex_individuals ex_correlations 3).
  - vm_compute. reflexivity.
  - simpl. lia.
  - repeat constructor.
  - reflexivity.
Defined.

(** * The learner the constructor returns *)

(** A learner that the constructor returns is ready for a search: the
    mean has the learner's dimension, which is at least 1, the step size
    is 1, the covariance matrix is the identity, both paths are zero, no
    chain is learned and there is a zero row for each chain to learn, the
    population size is not negative, and there is at least one parent and
    one priority for each parent. *)
Theorem init_establishes_search_state (sqrtQ : Q -> Q) (float_sum : vec -> npfloat)
    (round64 : Q -> npfloat) (instance : instance_t)
    (pop_size parent_size : Z) (priorities : vec) (challenge_num repeat : nat)
    (unreliability precision : npfloat) (st : self.t) :
  init sqrtQ float_sum round64 instance pop_size parent_size priorities challenge_num repeat
       unreliability precision
  = Ok st ->
  self.n st = S (inst_n instance) /\
  length (self.mean st) = self.n st /\
  self.step_size st = 1%np /\
  self.cov_matrix st = np_identity (self.n st) /\
  self.path_cm st = np_zeros (self.n st) /\
  self.path_ss st = np_zeros (self.n st) /\
  self.num_of_LTFs st = 0 /\
  length (self.different_LTFs st) = inst_k instance /\
  rows_of_length (self.n st) (self.different_LTFs st) /\
  (0 <= self.pop_size st)%Z /\
  length (self.individuals st) = Z.to_nat (self.pop_size st) /\
  (1 <= self.parent_size st)%Z /\
  length (self.priorities st) = Z.to_nat (self.parent_size st).
Proof.
  intros H. unfold init, np_zeros2_Z in H.
  destruct (Z.ltb_spec pop_size 0) as [Hneg|Hpop]; [discriminate|].
  cbv beta iota zeta delta [bind py_assert] in H.
  destruct (Z.eqb_spec (Z.of_nat (length priorities)) parent_size) as [Hlen|Hlen];
    [|discriminate].
  destruct (py_int (ndarray_sum float_sum priorities)) as [s|e] eqn:Hs; [|discriminate].
  destruct (Z.eqb_spec s 1) as [Hs1|Hs1]; [|discriminate].
  match type of H with context [fleb ?a ?b] => destruct (fleb a b) end; [|discriminate].
  injection H as <-. cbn [self.n self.mean self.step_size self.cov_matrix self.path_cm
    self.path_ss self.num_of_LTFs self.different_LTFs self.pop_size self.individuals
    self.parent_size self.priorities].
  assert (priorities <> []) as Hne.
  { intros ->. vm_compute in Hs. injection Hs as <-. discriminate. }
  assert (1 <= length priorities) as Hl1 by (destruct priorities; [congruence|simpl; lia]).
  refine (conj eq_refl (conj _ (conj eq_refl (conj eq_refl (conj eq_refl (conj eq_refl
           (conj eq_refl (conj _ (conj _ (conj Hpop (conj _ (conj _ _)))))))))))).
  - apply repeat_length.
  - apply repeat_length.
  - apply np_empty2_rows.
  - apply repeat_length.
  - lia.
  - lia.
Qed.

Lemma init_establishes_search_state_witness :
  self.n ex_constructed = S (inst_n ex_instance) /\
  length (self.mean ex_constructed) = self.n ex_constructed /\
  self.step_size ex_constructed = 1%np /\
  self.cov_matrix ex_constructed = np_identity (self.n ex_constructed) /\
  self.path_cm ex_constructed = np_zeros (self.n ex_constructed) /\
  self.path_ss ex_constructed = np_zeros (self.n ex_constructed) /\
  self.num_of_LTFs ex_constructed = 0 /\
  length (self.different_LTFs ex_constructed) = inst_k ex_instance /\
  rows_of_length (self.n ex_constructed) (self.different_LTFs ex_constructed) /\
  (0 <= self.pop_size ex_constructed)%Z /\
  length (self.individuals ex_constructed) = Z.to_nat (self.pop_size ex_constructed) /\
  (1 <= self.parent_size ex_constructed)%Z /\
  length (self.priorities ex_constructed) = Z.to_nat (self.parent_size ex_constructed).
Proof.
  apply (@init_establishes_search_state sqrt_down exact_sum exact_round ex_instance 30 4
           ex_priorities 256 5
           (q 1 10) (q 9 10) ex_constructed).
  vm_compute. reflexivity.
Defined.

(** * The delay differences *)

Lemma replace_nth_app (A : Type) (done : list A) (x r : A) (rest : list A) :
  replace_nth (length done) x (done ++ r :: rest) = done ++ x :: rest.
Proof. induction done as [|a done IH]; simpl; [reflexivity|rewrite IH; reflexivity]. Qed.

Lemma get_delay_differences_loop_map (LTFArray_val : LTFArray -> mat -> vec)
    (challenges : mat) (c : nat) (built : list LTFArray) :
  (forall l, In l built -> length (LTFArray_val l challenges) = c) ->
  forall (done rows : mat),
    length rows = length built ->
    rows_of_length c rows ->
    get_delay_differences_loop LTFArray_val built challenges (length done) (done ++ rows)
    = Ok (done ++ map (fun l => LTFArray_val l challenges) built).
Proof.
  induction built as [|l rest IH]; intros Hval done rows Hlen Hrows.
  - destruct rows; [reflexivity|discriminate].
  - destruct rows as [|r rows]; [discriminate|].
    inversion Hrows as [|r' rows' Hr Hrows']; subst.
    cbn [get_delay_differences_loop]. unfold set_row.
    rewrite nth_error_app2 by lia. rewrite Nat.sub_diag. cbn [nth_error].
    rewrite (Hval l (or_introl eq_refl)), Nat.eqb_refl. step.
    rewrite replace_nth_app.
    change (done ++ LTFArray_val l challenges :: rows)
      with (done ++ [LTFArray_val l challenges] ++ rows).
    rewrite app_assoc.
    replace (S (length done)) with (length (done ++ [LTFArray_val l challenges]))
      by (rewrite length_app; simpl; lia).
    rewrite IH.
    + rewrite <- app_assoc. reflexivity.
    + intros l' Hl'. apply Hval. right. exact Hl'.
    + simpl in Hlen. lia.
    + exact Hrows'.
Qed.

(** When [LTFArray.val] returns one delay difference per challenge,
    [get_delay_differences] returns the delay differences of the
    simulations in their order, one row per simulation; nothing of the
    uninitialised buffer is left. *)
Theorem get_delay_differences_rows (LTFArray_val : LTFArray -> mat -> vec)
    (built_LTFArrays : list LTFArray) (challenges : mat) (challenge_num : nat) :
  (forall l, In l built_LTFArrays -> length (LTFArray_val l challenges) = challenge_num) ->
  get_delay_differences LTFArray_val built_LTFArrays (length built_LTFArrays) challenges
                        challenge_num
  = Ok (map (fun l => LTFArray_val l challenges) built_LTFArrays).
Proof.
  intros Hval. unfold get_delay_differences.
  apply (@get_delay_differences_loop_map LTFArray_val challenges challenge_num built_LTFArrays
           Hval [] (np_empty2 (length built_LTFArrays) challenge_num)).
  - apply np_empty2_length.
  - apply np_empty2_rows.
Qed.

Lemma get_delay_differences_rows_witness :
  get_delay_differences val_dot (build_LTFArrays [[1%np; 1%np]; [1%np; Fin (-2)]])
                        (length (build_LTFArrays [[1%np; 1%np]; [1%np; Fin (-2)]]))
                        ex_challenges 4
  = Ok (map (fun l => val_dot l ex_challenges)
            (build_LTFArrays [[1%np; 1%np]; [1%np; Fin (-2)]])).
Proof.
  apply (@get_delay_differences_rows val_dot (build_LTFArrays [[1%np; 1%np]; [1%np; Fin (-2)]])
           ex_challenges 4).
  intros l _. reflexivity.
Defined.

(** * An instance without noise *)

Lemma get_reliabilities_rows_finite (delay_diffs : mat) :
  forall (epsilons : vec) (i size : nat) (reliabilities : mat),
    get_reliabilities_rows delay_diffs epsilons i size = Ok reliabilities ->
    forall row, In row reliabilities -> forallb finite row = true.
Proof.
  assert (forall c, forallb finite (np_zeros c) = true) as Hzeros.
  { intros c. induction c as [|c IH]; [reflexivity|exact IH]. }
  induction delay_diffs as [|r rest IH]; intros epsilons i size reliabilities H row Hrow.
  - destruct epsilons; simpl in H; [|discriminate]. injection H as <-. destruct Hrow.
  - destruct epsilons as [|e es].
    + simpl in H. injection H as <-.
      change (In row (map (fun row => np_zeros (length row)) (r :: rest))) in Hrow.
      apply in_map_iff in Hrow as (r' & <- & _). apply Hzeros.
    + simpl in H. apply bind_ok in H as [rows [Hrows H]]. injection H as <-.
      destruct Hrow as [<-|Hrow]; [|exact (IH _ _ _ _ Hrows row Hrow)].
      clear. induction r as [|d r IHr]; [reflexivity|].
      cbn [map forallb]. rewrite IHr. destruct (fgtb (fabs d) (fabs e)); reflexivity.
Qed.

(** Against a finite constant measured signature every correlation that
    is computed is NaN or 0 (in exact arithmetic; used below for the
    signature of ones). *)
Lemma get_correlations_constant_measured (sqrtQ : Q -> Q) (reliabilities : mat)
    (measured_rels correlations : vec) :
  forallb finite measured_rels = true ->
  constantb measured_rels = true ->
  (forall row, In row reliabilities -> forallb finite row = true) ->
  get_correlations sqrtQ reliabilities measured_rels = Ok correlations ->
  Forall (fun f => f = NaN \/ f = 0%np) correlations.
Proof.
  intros Hfm Hcm Hrows H. unfold get_correlations in H.
  apply Forall_forall. intros f Hf.
  destruct (mapM_in _ _ H f Hf) as (row & Hrow & Hg).
  destruct (np_any row); [|right; congruence].
  left.
  assert (length row = length measured_rels) as Hlen.
  { unfold corrcoef01 in Hg.
    destruct (Nat.eqb_spec (length row) (length measured_rels)) as [E|E];
      [exact E|discriminate]. }
  rewrite (finite_vec _ (Hrows row Hrow)), (finite_vec _ Hfm) in Hg.
  rewrite corrcoef01_constant_measured in Hg.
  - congruence.
  - rewrite !length_map. exact Hlen.
  - rewrite <- (finite_vec _ Hfm). exact Hcm.
Qed.

Section NoiseFree.

Variable sqrtQ : Q -> Q.
Variable expQ : Q -> Q.
Variable linalg_eigh : mat -> result (vec * mat).
Variable linalg_inv : mat -> result mat.
Variable np_argsort : vec -> list nat.
Variable LTFArray_val : LTFArray -> mat -> vec.

(** A generation in which no correlation exceeds the precision does not
    end the search. *)
Lemma generation_not_converged (st : self.t) (individuals : mat) (correlations : vec)
    (new_LTF : vec) :
  Forall (fun f => fgtb f (self.precision st) = false) correlations ->
  generation sqrtQ expQ linalg_eigh linalg_inv np_argsort st individuals correlations
  <> Ok (Converged new_LTF).
Proof.
  intros Hbelow Hgen. unfold generation in Hgen.
  rewrite scan_precision_none in Hgen by exact Hbelow.
  step_in Hgen.
  repeat match type of Hgen with
         | match ?r with _ => _ end = _ => destruct r; try discriminate
         end.
Qed.

Lemma learn_LTF_steady_answers (p : Q) (challenge_num repeat : nat) (draws : nat -> draw)
    (fuel : nat) :
  (0 <= p)%Q ->
  1 <= repeat ->
  (forall y, exists r,
      length r = challenge_num /\ forallb is_response r = true /\
      forall i, i < repeat -> evals (draws y) i = r) ->
  forall (st : self.t) (x : nat),
    self.precision st = Fin p ->
    self.challenge_num st = challenge_num ->
    self.repeat st = repeat ->
    returned (learn_LTF sqrtQ expQ linalg_eigh linalg_inv np_argsort LTFArray_val
                        fuel st draws x) = false.
Proof.
  intros Hp Hrep Hsteady. induction fuel as [|fuel IH]; intros st x Hprec Hcn Hrp;
    [reflexivity|].
  simpl learn_LTF. destruct (self.pop_size st <? 0)%Z; [reflexivity|].
  destruct (Hsteady x) as (r & Hlen & Hresp & Hev).
  rewrite Hcn, Hrp.
  destruct (@measure_rels_steady (evals (draws x)) challenge_num repeat r Hrep Hlen Hresp Hev)
    as (measured_rels & -> & _ & _ & Hfin & Hconst).
  step.
  match goal with |- context [fitness sqrtQ LTFArray_val ?c ?n ?m ?i] =>
    destruct (fitness sqrtQ LTFArray_val c n m i) as [correlations|e] eqn:Hfit
  end; [|reflexivity].
  step.
  assert (Forall (fun f => fgtb f (self.precision st) = false) correlations) as Hbelow.
  { unfold fitness in Hfit.
    apply bind_ok in Hfit as [delay_diffs [_ Hfit]].
    apply bind_ok in Hfit as [reliabilities [Hrel Hfit]].
    unfold get_reliabilities in Hrel.
    pose proof (get_reliabilities_rows_finite _ _ _ _ Hrel) as Hrows.
    pose proof (get_correlations_constant_measured _ _ _ Hfin Hconst Hrows Hfit) as Hvals.
    rewrite Hprec. apply Forall_forall. intros f Hf.
    rewrite Forall_forall in Hvals. destruct (Hvals f Hf) as [-> | ->].
    - reflexivity.
    - unfold fgtb, fltb. apply Qltb_ge. exact Hp. }
  match goal with |- context [generation sqrtQ expQ linalg_eigh linalg_inv np_argsort st ?i ?c] =>
    destruct (generation sqrtQ expQ linalg_eigh linalg_inv np_argsort st i c)
      as [[new_LTF|next]|e] eqn:Hgen
  end; [|step|reflexivity].
  - exfalso. exact (generation_not_converged _ _ Hbelow Hgen).
  - apply generation_continue in Hgen.
    destruct Hgen as (sorted & parent & cm_mu & path_ss & _ & _ & _ & _ & ->).
    apply IH; assumption.
Qed.

End NoiseFree.

(** Against an instance without noise (the same answers, each 1 or -1,
    at every repetition of a measurement) the search for a chain never
    ends: every measured reliability is 1, so the correlation with a
    constant signature is NaN (or 0 for an individual that predicts no
    reliable challenge), and no correlation exceeds a precision that is
    not negative. *)
Theorem learn_LTF_never_returns_without_noise
    (sqrtQ expQ : Q -> Q) (linalg_eigh : mat -> result (vec * mat))
    (linalg_inv : mat -> result mat) (np_argsort : vec -> list nat)
    (LTFArray_val : LTFArray -> mat -> vec)
    (fuel : nat) (st : self.t) (draws : nat -> draw) (p : Q) :
  self.precision st = Fin p ->
  (0 <= p)%Q ->
  1 <= self.repeat st ->
  (forall y, exists r,
      length r = self.challenge_num st /\ forallb is_response r = true /\
      forall i, i < self.repeat st -> evals (draws y) i = r) ->
  returned (learn_LTF sqrtQ expQ linalg_eigh linalg_inv np_argsort LTFArray_val
                      fuel st draws 0) = false.
Proof.
  intros Hprec Hp Hrep Hsteady.
  eapply learn_LTF_steady_answers; eauto.
Qed.

Lemma learn_LTF_never_returns_without_noise_witness :
  returned (learn_LTF sqrt_down exp_one eigh_diag inv_diag argsort_ascending val_dot
                      5 ex_search_learner ex_steady_draws 0) = false.
Proof.
  apply (@learn_LTF_never_returns_without_noise sqrt_down exp_one eigh_diag inv_diag
           argsort_ascending val_dot 5 ex_search_learner ex_steady_draws (9 # 10)).
  - reflexivity.
  - discriminate.
  - simpl. lia.
  - intros y. exists [1%np; Fin (-1); 1%np; Fin (-1)].
    split; [reflexivity|]. split; [reflexivity|]. intros i _. reflexivity.
Defined.
